(** * Kas-Free resilient request layer: a shallow embedding and its properties

    The development follows the JavaScript sources of the extension:

    - [AdaptiveTimeoutManager]  (src/background/AdaptiveTimeoutManager.js)
    - [ApiClient]               (fetchWithTimeout / fetchWithRetry / calculateDelay)
    - [AdvancedCacheManager]    (smartCleanup, the LFU + TTL sweep)
    - [ErrorRecoveryManager]    (src/background/ErrorRecoveryManager.js)
    - [ServiceWorker]           (analyzeImage, determineStatus, buildFinalResult)
    - [Analyzers]               (transformResult, transformCheckResult, mapCategoryToScores)
    - [ReporterId]              (getOrCreateReporterId, isNerdyId, generateNerdyReporterId)
    - [Storage]                 (src/utils/storage.js: the result cache and the hash cache)
    - [CacheManager], [AdvancedCache]  (the stored results behind the access bookkeeping)
    - [RequestHandler]          (handleAnalyzeImage)

    Numbers.  JavaScript numbers are IEEE doubles.  Quantities that the code
    only compares, adds or multiplies by constants (scores, delays, rates) are
    modelled by exact rationals [Q] and stay executable; the timeout estimator
    takes a square root and is modelled over the real numbers [R].
    Millisecond configuration values, counters and timestamps are integers
    [Z].  Rounding error of the double arithmetic is outside the model.

    Effects.  Promises, timers and logging carry no information that the
    properties below depend on; collaborators (network, storage, backends)
    are modelled by their outcomes, and code that threads a mutable object is
    written in state-passing style. *)

From stdpp Require Import base option list gmap strings pretty sorting.
From Stdlib Require Import Ascii ZArith QArith Qminmax Qround Reals Lra Lia Psatz.

Close Scope Q_scope.
Close Scope R_scope.
Open Scope string_scope.
Open Scope list_scope.
Open Scope Z_scope.

(** ** JavaScript helpers shared by the components *)

Module JS.

(** [o || d] on a numeric option field: [undefined] and [0] are falsy. *)
Definition or_default (o : option Z) (d : Z) : Z :=
  match o with
  | Some v => if v =? 0 then d else v
  | None => d
  end.

(** Truthiness of a string ([""] is falsy) and of an optional string. *)
Definition truthy_string (o : option string) : option string :=
  match o with
  | Some s => if String.eqb s "" then None else Some s
  | None => None
  end.

(** An [Error] object as the code inspects it: [name], [message], and for an
    [ApiError] instance its [statusCode] and [retryable] fields. *)
Record Error : Type := mkError {
  name : string;
  message : string;
  apiError : option (Z * bool)
}.

Definition new_Error (msg : string) : Error := mkError "Error" msg None.

(** [new ApiError(message, statusCode, retryable)] *)
Definition new_ApiError (msg : string) (statusCode : Z) (retryable : bool) : Error :=
  mkError "ApiError" msg (Some (statusCode, retryable)).

(** The outcome of an awaited call: a value, or a thrown error. *)
Inductive Result (A : Type) : Type :=
| Return (a : A)
| Throw (e : Error).
Arguments Return {A} a.
Arguments Throw {A} e.

(** Comparison of exact rationals, as booleans. *)
Definition Qltb (a b : Q) : bool := negb (Qle_bool b a).

(** [Math.round]: the integer nearest to [x], ties towards +infinity. *)
Definition Math_round (x : R) : Z := Zfloor (x + 1 / 2)%R.

(** [Math.max] and [Math.min] on (non-NaN) numbers. *)
Definition Math_max (a b : R) : R := Rmax a b.
Definition Math_min (a b : R) : R := Rmin a b.

(** [arr.push(x)] followed by the size guard
    [if (arr.length > limit) arr.shift()] used by both history buffers. *)
Definition push_bounded {A} (limit : Z) (arr : list A) (x : A) : list A :=
  let arr' := arr ++ [x] in
  if limit <? Z.of_nat (length arr') then tail arr' else arr'.

(** A JavaScript [Map] with string keys: the entries in insertion order,
    one entry per key.  [set] on a present key keeps its position. *)
Module Map.

Abbreviation t V := (list (string * V)).

Definition get {V} (m : t V) (k : string) : option V :=
  snd <$> List.find (fun e => String.eqb (fst e) k) m.

Definition has {V} (m : t V) (k : string) : bool :=
  existsb (fun e => String.eqb (fst e) k) m.

Fixpoint set {V} (m : t V) (k : string) (v : V) : t V :=
  match m with
  | [] => [(k, v)]
  | e :: m' => if String.eqb (fst e) k then (k, v) :: m' else e :: set m' k v
  end.

Definition delete {V} (m : t V) (k : string) : t V :=
  filter (fun e => fst e <> k) m.

Definition size {V} (m : t V) : Z := Z.of_nat (length m).

Definition keys {V} (m : t V) : list string := m.*1.

(** Well-formedness of the representation: no key occurs twice. *)
Definition wf {V} (m : t V) : Prop := NoDup (keys m).

End Map.

End JS.

(** ** AdaptiveTimeoutManager *)

Module AdaptiveTimeoutManager.
Import JS.

(** The [options] argument of the constructor; an absent field is [None]. *)
Record Options : Type := mkOptions {
  opt_minTimeout : option Z;
  opt_maxTimeout : option Z;
  opt_defaultTimeout : option Z;
  opt_historySize : option Z
}.

Definition no_options : Options := mkOptions None None None None.

(** The fields of a manager instance.  [history] is the [Map] from endpoint
    to the array of recorded response times. *)
Record t : Type := mkManager {
  minTimeout : Z;
  maxTimeout : Z;
  defaultTimeout : Z;
  historySize : Z;
  history : gmap string (list R)
}.

Definition constructor (options : Options) : t :=
  {| minTimeout := or_default (opt_minTimeout options) 3000;
     maxTimeout := or_default (opt_maxTimeout options) 30000;
     defaultTimeout := or_default (opt_defaultTimeout options) 15000;
     historySize := or_default (opt_historySize options) 100;
     history := ∅ |}.

Definition set_history (m : t) (h : gmap string (list R)) : t :=
  {| minTimeout := minTimeout m;
     maxTimeout := maxTimeout m;
     defaultTimeout := defaultTimeout m;
     historySize := historySize m;
     history := h |}.

(** [recordResponseTime(endpoint, responseTime)] without its log line. *)
Definition recordResponseTime (m : t) (endpoint : string) (responseTime : R) : t :=
  let times := default [] (history m !! endpoint) in
  set_history m (<[endpoint := push_bounded (historySize m) times responseTime]> (history m)).

(** [times.reduce((sum, t) => sum + t, 0) / times.length] *)
Definition mean_of (times : list R) : R :=
  (fold_left (fun sum t => sum + t) times 0 / INR (length times))%R.

(** [times.reduce((sum, t) => sum + Math.pow(t - mean, 2), 0) / times.length] *)
Definition variance_of (times : list R) : R :=
  let mean := mean_of times in
  (fold_left (fun sum t => sum + (t - mean) ^ 2) times 0 / INR (length times))%R.

Definition stdDev_of (times : list R) : R := sqrt (variance_of times).

Definition calculateTimeout (m : t) (endpoint : string) : Z :=
  match history m !! endpoint with
  | None => defaultTimeout m
  | Some times =>
      if (length times <? 5)%nat then defaultTimeout m
      else
        let mean := mean_of times in
        let stdDev := stdDev_of times in
        let calculatedTimeout := (mean + 2 * stdDev)%R in
        let boundedTimeout :=
          Math_max (IZR (minTimeout m))
                   (Math_min calculatedTimeout (IZR (maxTimeout m))) in
        Math_round boundedTimeout
  end.

Definition getTimeout (m : t) (endpoint : string) : Z := calculateTimeout m endpoint.

(** [clearHistory(endpoint)]: one endpoint, or everything for [null]. *)
Definition clearHistory (m : t) (endpoint : option string) : t :=
  match endpoint with
  | Some e => if String.eqb e "" then set_history m ∅ else set_history m (delete e (history m))
  | None => set_history m ∅
  end.

(** [loadHistory] when the stored object is present: the map is replaced. *)
Definition loadHistory (m : t) (stored : option (gmap string (list R))) : t :=
  match stored with
  | Some h => set_history m h
  | None => m
  end.

(** The recorded latencies of the worked example in the source's comment,
    and a manager with the default configuration that holds them. *)
Definition example_latencies : list R := [3000; 3200; 2800; 3100; 3000]%R.

Definition example_manager : t :=
  set_history (constructor no_options) {[ "api.openai.com" := example_latencies ]}.


(** A run of [recordResponseTime] calls, one per pair of endpoint and
    response time, and the response times among them that belong to one
    endpoint. *)
Definition record_all (m : t) (recs : list (string * R)) : t :=
  fold_left (fun m r => recordResponseTime m r.1 r.2) recs m.

Definition samples_of (endpoint : string) (recs : list (string * R)) : list R :=
  (filter (fun r => r.1 = endpoint) recs).*2.

(** Nine responses after one second and one after eleven. *)
Definition spiky_latencies : list R := replicate 9 1000%R ++ [11000%R].

Definition spiky_manager : t :=
  set_history (constructor no_options) {[ "api.openai.com" := spiky_latencies ]}.



End AdaptiveTimeoutManager.

(** ** ApiClient: timeout, retry loop and backoff *)

Module ApiClient.
Import JS.

Record Options : Type := mkOptions {
  opt_timeout : option Z;
  opt_maxRetries : option Z;
  opt_baseDelay : option Z;
  opt_enableAdaptiveTimeout : option bool
}.

Definition no_options : Options := mkOptions None None None None.

Record t : Type := mkClient {
  timeout : Z;
  maxRetries : Z;
  baseDelay : Z;
  timeoutManager : option AdaptiveTimeoutManager.t
}.

(** The constructor; [enableAdaptiveTimeout !== false] holds unless the
    option is present and [false]. *)
Definition constructor (options : Options) : t :=
  let enableAdaptiveTimeout :=
    match opt_enableAdaptiveTimeout options with
    | Some false => false
    | _ => true
    end in
  {| timeout := or_default (opt_timeout options) 30000;
     maxRetries := or_default (opt_maxRetries options) 3;
     baseDelay := or_default (opt_baseDelay options) 1000;
     timeoutManager :=
       if enableAdaptiveTimeout
       then Some (AdaptiveTimeoutManager.constructor
                    (AdaptiveTimeoutManager.mkOptions (Some 3000) (Some 30000) (Some 15000) None))
       else None |}.

Definition set_timeoutManager (c : t) (tm : option AdaptiveTimeoutManager.t) : t :=
  {| timeout := timeout c; maxRetries := maxRetries c; baseDelay := baseDelay c;
     timeoutManager := tm |}.

(** An HTTP response as the retry layer sees it. *)
Record Response : Type := mkResponse {
  status : Z
}.

(** [response.ok]: a status in the range 200-299. *)
Definition ok (r : Response) : bool := (200 <=? status r) && (status r <=? 299).

(** What one call of the platform's [fetch] does: it resolves with a
    response after [responseTime] milliseconds, or it rejects (the abort
    signal rejects it with an error named ["AbortError"], a connectivity
    failure with a ["TypeError"]). *)
Inductive FetchOutcome : Type :=
| Resolved (response : Response) (responseTime : R)
| Rejected (error : Error).

(** [AdaptiveTimeoutManager.extractEndpoint(url)], the host name of the URL,
    is taken from the caller. *)
Definition timeout_message (dynamicTimeout : Z) : string :=
  "요청 시간이 초과되었습니다 (" +:+ pretty dynamicTimeout
  +:+ "ms). 잠시 후 다시 시도해주세요.".

Definition fetchWithTimeout (c : t) (endpoint : string) (net : FetchOutcome)
  : Result Response * t :=
  let endpoint := match timeoutManager c with Some _ => endpoint | None => "default" end in
  let dynamicTimeout :=
    match timeoutManager c with
    | Some tm => AdaptiveTimeoutManager.getTimeout tm endpoint
    | None => timeout c
    end in
  match net with
  | Resolved response responseTime =>
      let c' :=
        match timeoutManager c with
        | Some tm =>
            if ok response
            then set_timeoutManager c
                   (Some (AdaptiveTimeoutManager.recordResponseTime tm endpoint responseTime))
            else c
        | None => c
        end in
      (Return response, c')
  | Rejected error =>
      if String.eqb (name error) "AbortError"
      then (Throw (new_ApiError (timeout_message dynamicTimeout) 408 true), c)
      else (Throw error, c)
  end.

(** [status >= 500 || status === 408 || status === 429] *)
Definition isRetryableStatus (status : Z) : bool :=
  (500 <=? status) || (status =? 408) || (status =? 429).

(** [calculateDelay(attempt)]; [random] is the value [Math.random()]
    returns, a number in the half-open interval from 0 to 1. *)
Definition calculateDelay (c : t) (attempt : nat) (random : Q) : Q :=
  let exponentialDelay := (inject_Z (2 ^ Z.of_nat attempt) * inject_Z (baseDelay c))%Q in
  let jitter := (random * 1000)%Q in
  Qmin (exponentialDelay + jitter)%Q 10000%Q.

(** What the retry loop does that an observer can see. *)
Inductive Event : Type :=
| EvFetch (attempt : nat)
| EvDelay (ms : Q).

Definition is_retryable_ApiError (error : Error) : bool :=
  match apiError error with
  | Some (_, retryable) => retryable
  | None => false
  end.

Definition unknown_error : Error := new_Error "알 수 없는 오류가 발생했습니다.".

Section retry.
Variable endpoint : string.
(** The network's answer to the fetch issued in each attempt, and the random
    number drawn for the backoff after it. *)
Variable net : nat -> FetchOutcome.
Variable random : nat -> Q.

(** The [for] loop of [fetchWithRetry], entered with [attempt], with
    [remaining] iterations left before [attempt <= maxRetries] fails. *)
Fixpoint retry_loop (remaining : nat) (attempt : nat) (c : t)
    (lastError : option Error) (trace : list Event)
  : Result Response * t * list Event :=
  match remaining with
  | O => (Throw (default unknown_error lastError), c, trace)
  | S remaining' =>
      let again c' lastError' :=
        retry_loop remaining' (S attempt) c' lastError'
          (trace ++ [EvFetch attempt; EvDelay (calculateDelay c attempt (random attempt))]) in
      match fetchWithTimeout c endpoint (net attempt) with
      | (Return response, c') =>
          if isRetryableStatus (status response) && (Z.of_nat attempt <? maxRetries c)
          then again c' lastError
          else (Return response, c', trace ++ [EvFetch attempt])
      | (Throw error, c') =>
          if is_retryable_ApiError error && (Z.of_nat attempt <? maxRetries c)
          then again c' (Some error)
          else if String.eqb (name error) "TypeError" && (Z.of_nat attempt <? maxRetries c)
          then again c' (Some error)
          else (Throw error, c', trace ++ [EvFetch attempt])
      end
  end.

Definition fetchWithRetry (c : t) : Result Response * t * list Event :=
  retry_loop (Z.to_nat (maxRetries c + 1)) 0 c None [].

End retry.


(** The number of fetches a log records. *)
Definition count_fetches (trace : list Event) : nat :=
  length (List.filter (fun ev => match ev with EvFetch _ => true | _ => false end) trace).


(** [2^attempt * baseDelay], the delay before jitter and cap. *)
Definition exponentialDelay (c : t) (attempt : nat) : Q :=
  inject_Z (2 ^ Z.of_nat attempt * baseDelay c).

(** The timeout [fetchWithTimeout] arms the abort timer with. *)
Definition dynamicTimeout (c : t) (endpoint : string) : Z :=
  match timeoutManager c with
  | Some tm => AdaptiveTimeoutManager.getTimeout tm endpoint
  | None => timeout c
  end.

(** What [fetchWithTimeout] throws when [fetch] rejects with [rejection]. *)
Definition thrown_error (c : t) (endpoint : string) (rejection : Error) : Error :=
  if String.eqb (name rejection) "AbortError"
  then new_ApiError (timeout_message (dynamicTimeout c endpoint)) 408 true
  else rejection.

(** The client after [recordResponseTime(endpoint, time)] on its manager. *)
Definition record_latency (c : t) (endpoint : string) (time : R) : t :=
  set_timeoutManager c
    ((fun tm => AdaptiveTimeoutManager.recordResponseTime tm endpoint time)
       <$> timeoutManager c).

(** The log of [n] attempts that were retried, starting with attempt [a], and
    the log of a run that ends with attempt [n]. *)
Definition backoff_steps (c : t) (random : nat -> Q) (a n : nat) : list Event :=
  flat_map (fun k => [EvFetch k; EvDelay (calculateDelay c k (random k))]) (seq a n).

Definition backoff_trace (c : t) (random : nat -> Q) (n : nat) : list Event :=
  backoff_steps c random 0 n ++ [EvFetch n].

(** The milliseconds a run has waited between its attempts. *)
Definition total_delay (trace : list Event) : Q :=
  fold_right (fun ev acc => match ev with EvDelay ms => (ms + acc)%Q | EvFetch _ => acc end)
    0%Q trace.

(** A network that is down: every fetch is rejected with a [TypeError]. *)
Definition always_offline : nat -> FetchOutcome :=
  fun _ => Rejected (mkError "TypeError" "Failed to fetch" None).


End ApiClient.

(** ** The IndexedDB wrapper, as far as its callers reach it *)

Module KasFreeDB.

(** The methods [class KasFreeDB] defines (src/utils/db.js).  A call of any
    other property of the instance raises a [TypeError]. *)
Definition methods : list string :=
  ["init"; "getAnalysisResult"; "setAnalysisResult"; "getPostContent";
   "setPostContent"; "deleteOldRecords"; "trimToLimit"; "clearStore";
   "clearAll"; "getStats"].

Definition is_function (method : string) : bool :=
  existsb (String.eqb method) methods.

(** The global scope of the running script: [window.kasFreeDB] is present
    only where db.js was loaded into a page, and then holds the keys of the
    [analysisResults] object store. *)
Record Window : Type := mkWindow {
  kasFreeDB : option (gset string)
}.

End KasFreeDB.

(** ** AdvancedCacheManager: access bookkeeping and the hybrid sweep *)

Module AdvancedCacheManager.
Import JS.

Record t : Type := mkCache {
  accessCount : Map.t Z;
  lastAccess : gmap string Z;
  window : KasFreeDB.Window
}.

Definition constructor (w : KasFreeDB.Window) : t :=
  {| accessCount := []; lastAccess := ∅; window := w |}.

(** The bookkeeping of [getAnalysisResult(postUrl)] once the parent class has
    answered: [hit] tells whether it returned a cached value. *)
Definition getAnalysisResult (c : t) (postUrl : string) (hit : bool) (now : Z) : t :=
  if hit then
    let count := default 0 (Map.get (accessCount c) postUrl) in
    {| accessCount := Map.set (accessCount c) postUrl (count + 1);
       lastAccess := <[postUrl := now]> (lastAccess c);
       window := window c |}
  else c.

(** The bookkeeping of [setAnalysisResult(postUrl, result)]. *)
Definition setAnalysisResult (c : t) (postUrl : string) (now : Z) : t :=
  if Map.has (accessCount c) postUrl then c
  else {| accessCount := Map.set (accessCount c) postUrl 1;
          lastAccess := <[postUrl := now]> (lastAccess c);
          window := window c |}.

(** One element of the [entries] array built by [smartCleanup]. *)
Record Entry : Type := mkEntry {
  url : string;
  count : Z;
  age : Z;
  score : Z
}.

(** The body of the scoring loop for one [[url, count]] pair. *)
Definition score_entry (lastAccess : gmap string Z) (now : Z) (e : string * Z) : Entry :=
  let '(url, count) := e in
  let lastTime := default 0 (lastAccess !! url) in
  let age := now - lastTime in
  let frequencyScore := count * 1000 in
  let recencyScore := Z.max 0 (86400000 - age) in
  let score := frequencyScore + recencyScore in
  mkEntry url count age score.

(** [entries.sort((a, b) => a.score - b.score)].  [Array.prototype.sort] is
    stable, so its result is the one ascending arrangement that keeps entries
    of equal score in their original order; insertion from the right
    computes it. *)
Fixpoint insert_by_score (x : Entry) (l : list Entry) : list Entry :=
  match l with
  | [] => [x]
  | y :: l' => if score x <=? score y then x :: l else y :: insert_by_score x l'
  end.

Definition sort_by_score (l : list Entry) : list Entry :=
  fold_right insert_by_score [] l.

(** [Math.max(10, Math.ceil(totalCount * 0.8))] *)
Definition keepCount (totalCount : Z) : Z :=
  Z.max 10 (Qceiling (inject_Z totalCount * (8 # 10))).

(** [deleteCachedResult(postUrl)]: the call of [deleteAnalysisResult] on the
    database object sits in a [try] whose [catch] only logs.  Where
    [window.kasFreeDB] is missing nothing is attempted; where it is present
    the call raises, because the object has no such method, and the store
    keeps the record. *)
Definition deleteCachedResult (w : KasFreeDB.Window) (postUrl : string) : KasFreeDB.Window :=
  match KasFreeDB.kasFreeDB w with
  | Some records =>
      if KasFreeDB.is_function "deleteAnalysisResult"
      then KasFreeDB.mkWindow (Some (records ∖ {[postUrl]}))
      else w
  | None => w
  end.

(** One iteration of the deletion loop. *)
Definition delete_entry (c : t) (entry : Entry) : t :=
  {| accessCount := Map.delete (accessCount c) (url entry);
     lastAccess := delete (url entry) (lastAccess c);
     window := deleteCachedResult (window c) (url entry) |}.

(** [smartCleanup()] at time [now]: the number of deleted entries and the
    manager afterwards. *)
Definition smartCleanup (c : t) (now : Z) : Z * t :=
  let entries := map (score_entry (lastAccess c) now) (accessCount c) in
  if Z.of_nat (length entries) =? 0 then (0, c)
  else
    let sorted := sort_by_score entries in
    let totalCount := Z.of_nat (length sorted) in
    let keepCount := keepCount totalCount in
    let deleteCount := totalCount - keepCount in
    if deleteCount <=? 0 then (0, c)
    else
      let toDelete := take (Z.to_nat deleteCount) sorted in
      (deleteCount, fold_left delete_entry toDelete c).


(** The scored entries of a manager, their ascending arrangement, and the
    manager after the deletion loop has run over the first [d] of them. *)
Definition scored (c : t) (now : Z) : list Entry :=
  map (score_entry (lastAccess c) now) (accessCount c).

Definition ranking (c : t) (now : Z) : list Entry := sort_by_score (scored c now).

Definition evict (c : t) (now : Z) (d : nat) : t :=
  fold_left delete_entry (take d (ranking c now)) c.


(** A cache that tracks the posts [p1 .. pn], post [pi] having been read [i]
    times, all last touched at time 0. *)
Definition tracked_posts (n : nat) : t :=
  {| accessCount := (fun i => ("p" +:+ pretty i, Z.of_nat i)) <$> seq 1 n;
     lastAccess := list_to_map ((fun i => ("p" +:+ pretty i, 0)) <$> seq 1 n);
     window := KasFreeDB.mkWindow None |}.

(** The calls that change the bookkeeping of a manager. *)
Inductive Op : Type :=
| OpGet (postUrl : string) (hit : bool) (now : Z)
| OpSet (postUrl : string) (now : Z)
| OpSweep (now : Z).

Definition run_op (c : t) (op : Op) : t :=
  match op with
  | OpGet postUrl hit now => getAnalysisResult c postUrl hit now
  | OpSet postUrl now => setAnalysisResult c postUrl now
  | OpSweep now => (smartCleanup c now).2
  end.

Definition run_ops (c : t) (ops : list Op) : t := fold_left run_op ops c.

(** The two maps track the same posts, each once, with a positive count. *)
Definition tracked (c : t) : Prop :=
  Map.wf (accessCount c) /\
  (forall k, k ∈ Map.keys (accessCount c) <-> is_Some (lastAccess c !! k)) /\
  (forall k v, (k, v) ∈ accessCount c -> 1 <= v).


End AdvancedCacheManager.

(** ** ErrorRecoveryManager *)

Module ErrorRecoveryManager.
Import JS.

(** The error types [classifyError] can return. *)
Inductive ErrorType : Type :=
| NetworkError | TimeoutError | ApiKeyError | IndexedDBError
| OutOfMemoryError | ServiceWorkerError | RateLimitError | UnknownError.

Definition type_name (ty : ErrorType) : string :=
  match ty with
  | NetworkError => "NetworkError"
  | TimeoutError => "TimeoutError"
  | ApiKeyError => "ApiKeyError"
  | IndexedDBError => "IndexedDBError"
  | OutOfMemoryError => "OutOfMemoryError"
  | ServiceWorkerError => "ServiceWorkerError"
  | RateLimitError => "RateLimitError"
  | UnknownError => "UnknownError"
  end.

#[export] Instance ErrorType_eq_dec : EqDecision ErrorType.
Proof. solve_decision. Defined.

Inductive Action : Type := retry | fallback | fail | restart.

#[export] Instance Action_eq_dec : EqDecision Action.
Proof. solve_decision. Defined.

(** [s.toLowerCase()] on the ASCII letters; the other bytes of the UTF-8
    text (Hangul has no case) are kept. *)
Definition lower_ascii (c : ascii) : ascii :=
  let n := nat_of_ascii c in
  if ((65 <=? n) && (n <=? 90))%nat then ascii_of_nat (n + 32) else c.

Fixpoint toLowerCase (s : string) : string :=
  match s with
  | EmptyString => EmptyString
  | String c s' => String (lower_ascii c) (toLowerCase s')
  end.

(** [s.includes(sub)] *)
Definition includes (s sub : string) : bool :=
  match String.index 0 sub s with
  | Some _ => true
  | None => false
  end.

Definition classifyError (error : Error) : ErrorType :=
  let message := toLowerCase (message error) in
  let name := toLowerCase (name error) in
  if String.eqb name "typeerror" && includes message "fetch" then NetworkError
  else if includes message "timeout" || includes message "시간이 초과" then TimeoutError
  else if includes message "401" || includes message "403" ||
          includes message "api key" || includes message "unauthorized" then ApiKeyError
  else if includes name "idb" || includes message "indexeddb" ||
          includes message "database" then IndexedDBError
  else if includes message "memory" || includes message "out of" then OutOfMemoryError
  else if includes message "service worker" || includes message "worker" then ServiceWorkerError
  else if includes message "429" || includes message "rate limit" then RateLimitError
  else UnknownError.

Section manager.
(** The cached analysis results are opaque to the recovery code. *)
Context {Data : Type}.

(** [context.cacheManager] as the strategies use it: the answer of
    [getAnalysisResult(postUrl)], and [smartCleanup] when the object has such
    a function, with the number it returns. *)
Record CacheManagerRef : Type := mkCacheManagerRef {
  cm_getAnalysisResult : string -> Result (option Data);
  cm_smartCleanup : option (Result Z)
}.

Record Context : Type := mkContext {
  postUrl : option string;
  cacheManager : option CacheManagerRef
}.

(** The empty context [{}], the default argument of [handleError]. *)
Definition empty_context : Context := mkContext None None.

(** What a recovery strategy resolves to. *)
Record StrategyResult : Type := mkStrategyResult {
  sr_action : Action;
  sr_message : string;
  sr_data : option Data;
  sr_suggestion : option string
}.

Definition Strategy : Type := Error -> Context -> Result StrategyResult.

Record ErrorRecord : Type := mkErrorRecord {
  timestamp : Z;
  type : ErrorType;
  rec_message : string;
  rec_postUrl : option string;
  rec_hasCache : bool
}.

Record t : Type := mkManager {
  maxRetries : Z;
  retryDelay : Z;
  errorCounts : gmap string Z;
  recoveryStrategies : ErrorType -> option Strategy;
  errorHistory : list ErrorRecord;
  maxHistorySize : Z
}.

Definition set_errorCounts (m : t) (counts : gmap string Z) : t :=
  {| maxRetries := maxRetries m; retryDelay := retryDelay m; errorCounts := counts;
     recoveryStrategies := recoveryStrategies m; errorHistory := errorHistory m;
     maxHistorySize := maxHistorySize m |}.

Definition set_errorHistory (m : t) (h : list ErrorRecord) : t :=
  {| maxRetries := maxRetries m; retryDelay := retryDelay m; errorCounts := errorCounts m;
     recoveryStrategies := recoveryStrategies m; errorHistory := h;
     maxHistorySize := maxHistorySize m |}.

(** [registerStrategy(errorType, strategy)] *)
Definition registerStrategy (m : t) (errorType : ErrorType) (strategy : Strategy) : t :=
  {| maxRetries := maxRetries m; retryDelay := retryDelay m; errorCounts := errorCounts m;
     recoveryStrategies :=
       fun ty => if decide (ty = errorType) then Some strategy else recoveryStrategies m ty;
     errorHistory := errorHistory m; maxHistorySize := maxHistorySize m |}.

(** The six default strategies.  The waits ([delay]) do not show in the
    results.  [w] is the global scope the IndexedDB strategy looks into. *)
Definition networkStrategy : Strategy := fun error context =>
  Return (mkStrategyResult retry "네트워크 연결 재시도 중..." None None).

Definition timeoutStrategy : Strategy := fun error context =>
  let failed := Return (mkStrategyResult fail "타임아웃 (캐시 없음)" None None) in
  match truthy_string (postUrl context), cacheManager context with
  | Some url, Some cm =>
      match cm_getAnalysisResult cm url with
      | Return (Some cached) =>
          Return (mkStrategyResult fallback "캐시된 결과 사용" (Some cached) None)
      | Return None => failed
      | Throw e => Throw e
      end
  | _, _ => failed
  end.

Definition indexedDBStrategy (w : KasFreeDB.Window) : Strategy := fun error context =>
  let failed := Return (mkStrategyResult fail "IndexedDB 복구 실패" None None) in
  match KasFreeDB.kasFreeDB w with
  | Some _ =>
      if KasFreeDB.is_function "initialize"
      then Return (mkStrategyResult retry "IndexedDB 재초기화 완료" None None)
      else failed
  | None => failed
  end.

Definition apiKeyStrategy : Strategy := fun error context =>
  Return (mkStrategyResult fallback "다른 AI API로 재시도 필요" None (Some "tryNextApi")).

Definition outOfMemoryStrategy : Strategy := fun error context =>
  match cacheManager context with
  | Some cm =>
      match cm_smartCleanup cm with
      | Some (Return deleted) =>
          Return (mkStrategyResult retry
                    ("캐시 정리 완료 (" +:+ pretty deleted +:+ "개 삭제)") None None)
      | Some (Throw e) => Throw e
      | None => Return (mkStrategyResult fail "메모리 정리 실패" None None)
      end
  | None => Return (mkStrategyResult fail "메모리 정리 실패" None None)
  end.

Definition serviceWorkerStrategy : Strategy := fun error context =>
  Return (mkStrategyResult restart "Service Worker 재시작 필요" None None).

Definition defaultStrategies (w : KasFreeDB.Window) (ty : ErrorType) : option Strategy :=
  match ty with
  | NetworkError => Some networkStrategy
  | TimeoutError => Some timeoutStrategy
  | IndexedDBError => Some (indexedDBStrategy w)
  | ApiKeyError => Some apiKeyStrategy
  | OutOfMemoryError => Some outOfMemoryStrategy
  | ServiceWorkerError => Some serviceWorkerStrategy
  | RateLimitError | UnknownError => None
  end.

Definition constructor (w : KasFreeDB.Window) (opt_maxRetries opt_retryDelay : option Z) : t :=
  {| maxRetries := or_default opt_maxRetries 3;
     retryDelay := or_default opt_retryDelay 1000;
     errorCounts := ∅;
     recoveryStrategies := defaultStrategies w;
     errorHistory := [];
     maxHistorySize := 100 |}.

(** [recordError(error, errorType, context)] at time [now]. *)
Definition recordError (m : t) (now : Z) (error : Error) (errorType : ErrorType)
    (context : Context) : t :=
  let record :=
    {| timestamp := now; type := errorType; rec_message := message error;
       rec_postUrl := postUrl context;
       rec_hasCache := bool_decide (is_Some (cacheManager context)) |} in
  set_errorHistory m (push_bounded (maxHistorySize m) (errorHistory m) record).

(** The object [handleError] resolves to. *)
Record Recovery : Type := mkRecovery {
  success : bool;
  action : Action;
  rmessage : string;
  data : option Data;
  suggestion : option string;
  error : option Error
}.

Definition errorKey_of (errorType : ErrorType) (context : Context) : string :=
  type_name errorType +:+ "_" +:+ default "global" (truthy_string (postUrl context)).

Definition handleError (m : t) (now : Z) (error : Error) (context : Context)
  : Recovery * t :=
  let errorType := classifyError error in
  let errorKey := errorKey_of errorType context in
  let count := default 0 (errorCounts m !! errorKey) + 1 in
  let m := set_errorCounts m (<[errorKey := count]> (errorCounts m)) in
  let m := recordError m now error errorType context in
  if maxRetries m <? count then
    (mkRecovery false fail "최대 재시도 횟수 초과" None None (Some error), m)
  else
    match recoveryStrategies m errorType with
    | Some strategy =>
        match strategy error context with
        | Return result =>
            let m :=
              if bool_decide (sr_action result = retry \/ sr_action result = fallback)
              then set_errorCounts m (delete errorKey (errorCounts m))
              else m in
            (mkRecovery (bool_decide (sr_action result <> fail)) (sr_action result)
               (sr_message result) (sr_data result) (sr_suggestion result) None, m)
        | Throw recoveryError =>
            (mkRecovery false fail "복구 실패" None None (Some recoveryError), m)
        end
    | None => (mkRecovery false retry "기본 재시도" None None None, m)
    end.

(** [resetErrorCounts(key)]: one key, or all of them for [null]. *)
Definition resetErrorCounts (m : t) (key : option string) : t :=
  match truthy_string key with
  | Some k => set_errorCounts m (delete k (errorCounts m))
  | None => set_errorCounts m ∅
  end.

Inductive HealthLevel : Type := healthy | degraded | critical.

Record Health : Type := mkHealth {
  status : HealthLevel;
  totalErrors : Z;
  recentErrors : Z;
  errorRate : Q;
  activeRetries : Z
}.

(** [arr.slice(-n)]: the last [n] elements. *)
Definition slice_last {A} (n : nat) (arr : list A) : list A :=
  drop (length arr - n)%nat arr.

Definition getHealthStatus (m : t) : Health :=
  let recentErrors := slice_last 10 (errorHistory m) in
  let recentErrorRate := (inject_Z (Z.of_nat (length recentErrors)) / 10)%Q in
  let status := healthy in
  let status := if Qltb (5 # 10) recentErrorRate then degraded else status in
  let status := if Qltb (8 # 10) recentErrorRate then critical else status in
  {| status := status;
     totalErrors := Z.of_nat (length (errorHistory m));
     recentErrors := Z.of_nat (length recentErrors);
     errorRate := recentErrorRate;
     activeRetries := Z.of_nat (size (errorCounts m)) |}.

(** The calls that change a manager after its construction. *)
Inductive Call : Type :=
| CallHandleError (now : Z) (error : Error) (context : Context)
| CallRegisterStrategy (errorType : ErrorType) (strategy : Strategy)
| CallResetErrorCounts (key : option string).

Definition run_call (m : t) (c : Call) : t :=
  match c with
  | CallHandleError now error context => snd (handleError m now error context)
  | CallRegisterStrategy errorType strategy => registerStrategy m errorType strategy
  | CallResetErrorCounts key => resetErrorCounts m key
  end.

Definition run_calls (m : t) (cs : list Call) : t := fold_left run_call cs m.


(** The status as a function of the number of history entries. *)
Definition health_of_count (n : nat) : HealthLevel :=
  if (n <=? 5)%nat then healthy else if (n <=? 8)%nat then degraded else critical.

(** The number of [handleError] calls among some calls. *)
Definition handled_errors (cs : list Call) : nat :=
  length (List.filter (fun c => match c with CallHandleError _ _ _ => true | _ => false end) cs).

(** The counter [handleError] finds for an error in a context. *)
Definition counter (m : t) (error : Error) (context : Context) : Z :=
  default 0 (errorCounts m !! errorKey_of (classifyError error) context).


(** One call of [handleError] per time stamp, each on the manager the
    previous call left. *)
Fixpoint handle_each (m : t) (error : Error) (context : Context) (nows : list Z)
  : list Recovery * t :=
  match nows with
  | [] => ([], m)
  | now :: nows' =>
      let '(r, m') := handleError m now error context in
      let '(rs, m'') := handle_each m' error context nows' in
      (r :: rs, m'')
  end.

End manager.
Arguments CacheManagerRef Data : clear implicits.
Arguments Context Data : clear implicits.
Arguments StrategyResult Data : clear implicits.
Arguments Strategy Data : clear implicits.
Arguments t Data : clear implicits.
Arguments Recovery Data : clear implicits.
Arguments Call Data : clear implicits.

(** A new manager in a service worker (no [window.kasFreeDB]), and two
    errors in the context of one post. *)
Definition new_manager : t unit := constructor (KasFreeDB.mkWindow None) None None.

Definition network_error : Error := mkError "TypeError" "Failed to fetch" None.
Definition unknown_failure : Error := mkError "Error" "something went wrong" None.
Definition post_context : Context unit :=
  mkContext (Some "https://gall.dcinside.com/board/view/?id=dcbest&no=1") None.

Section records.
Context {Data : Type}.

(** The entry [recordError] appends for an error handled at time [now]. *)
Definition error_record (now : Z) (error : Error) (context : Context Data) : ErrorRecord :=
  {| timestamp := now; type := classifyError error; rec_message := message error;
     rec_postUrl := postUrl context;
     rec_hasCache := bool_decide (is_Some (cacheManager context)) |}.

(** The entries that a sequence of calls records, oldest first. *)
Definition records_of (cs : list (Call Data)) : list ErrorRecord :=
  omap (fun c => match c with
                 | CallHandleError now error context => Some (error_record now error context)
                 | _ => None
                 end) cs.

(** [context.postUrl || 'global'] *)
Definition context_key (context : Context Data) : string :=
  default "global" (truthy_string (postUrl context)).

End records.

(** A failed database request, an aborted request, and the context of a post
    whose analysis result the cache holds. *)
Definition database_error : Error := mkError "Error" "IndexedDB transaction failed" None.

Definition abort_error : Error := mkError "AbortError" "The user aborted a request." None.

Definition cached_context : Context unit :=
  mkContext (Some "https://gall.dcinside.com/board/view/?id=dcbest&no=1")
            (Some (mkCacheManagerRef (fun _ => Return (Some tt)) None)).


End ErrorRecoveryManager.

(** ** The service worker's two-stage image analysis *)

Module ServiceWorker.
Import JS.

Inductive Status : Type := safe | caution | danger.

#[export] Instance Status_eq_dec : EqDecision Status.
Proof. solve_decision. Defined.

(** [currentSettings.thresholds] *)
Record Thresholds : Type := mkThresholds {
  safeMax : Q;
  cautionMax : Q
}.

Definition determineStatus (thresholds : Thresholds) (riskScore : Q) : Status :=
  if Qltb riskScore (safeMax thresholds) then safe
  else if Qltb riskScore (cautionMax thresholds) then caution
  else danger.

(** A stage result, as [hashChecker.check] and [nsfwServer.check] build it.
    [categories] is the object literal with one score per category. *)
Record AnalysisResult : Type := mkAnalysisResult {
  riskScore : Q;
  detailedScores : list (string * Q);
  categories : list (string * Q);
  source : string;
  matched : bool
}.

Record FinalResult : Type := mkFinalResult {
  final_status : Status;
  final_riskScore : Q;
  final_categories : list (string * Q);
  final_primary : option AnalysisResult;
  final_secondary : option AnalysisResult;
  final_source : string;
  final_timestamp : Z
}.

(** [buildFinalResult(primary, secondary, status)] at time [now]. *)
Definition buildFinalResult (primary secondary : option AnalysisResult)
    (status : Status) (now : Z) : FinalResult :=
  let mainResult := match secondary with Some s => Some s | None => primary end in
  {| final_status := status;
     final_riskScore :=
       match mainResult with
       | Some r => if Qeq_bool (riskScore r) 0 then 0%Q else riskScore r
       | None => 0%Q
       end;
     final_categories :=
       match mainResult with
       | Some r => categories r
       | None => []
       end;
     final_primary := primary;
     final_secondary := secondary;
     final_source :=
       match mainResult with
       | Some r => if String.eqb (source r) "" then "unknown" else source r
       | None => "unknown"
       end;
     final_timestamp := now |}.

Definition zero_scores : list (string * Q) :=
  [("gore", 0%Q); ("violence", 0%Q); ("death", 0%Q); ("disturbing", 0%Q);
   ("insects", 0%Q); ("medical", 0%Q); ("shock", 0%Q); ("animal_cruelty", 0%Q);
   ("nsfw_porn", 0%Q); ("nsfw_sexy", 0%Q)].

Definition safeFallbackResult : AnalysisResult :=
  {| riskScore := 0%Q;
     detailedScores := zero_scores;
     categories := zero_scores;
     source := "hash-check-failed";
     matched := false |}.

(** The collaborators' calls, in the order they are issued. *)
Inductive Call : Type :=
| CallGetHashResult (imageUrl : string)
| CallGetOrCreateReporterId
| CallGenerateHashes (imageUrl : string)
| CallHashCheck (hashes reporterId : string)
| CallSetHashResult (imageUrl : string)
| CallImageUrlToBase64 (imageUrl : string)
| CallDeepAnalysis (imageBase64 reporterId : string).

#[export] Instance Call_eq_dec : EqDecision Call.
Proof. solve_decision. Defined.

(** Awaited code: it extends the log of issued calls and returns or throws. *)
Definition M (A : Type) : Type := list Call -> Result A * list Call.

Definition ret {A} (a : A) : M A := fun log => (Return a, log).

Definition bind {A B} (m : M A) (k : A -> M B) : M B := fun log =>
  match m log with
  | (Return a, log') => k a log'
  | (Throw e, log') => (Throw e, log')
  end.

(** An awaited call of a collaborator with its outcome. *)
Definition await {A} (c : Call) (outcome : Result A) : M A := fun log =>
  (outcome, log ++ [c]).

(** [try { m } catch (error) { handler(error) }] *)
Definition try_catch {A} (m : M A) (handler : Error -> M A) : M A := fun log =>
  match m log with
  | (Return a, log') => (Return a, log')
  | (Throw e, log') => handler e log'
  end.

Notation "'let*' x := m 'in' k" := (bind m (fun x => k))
  (at level 10, x name, m at level 100, k at level 200).

(** What the world answers to each collaborator call of one request. *)
Record Collaborators : Type := mkCollaborators {
  getHashResult : string -> option AnalysisResult;
  getOrCreateReporterId : Result string;
  generateHashesAsync : string -> Result string;
  hashChecker_check : string -> string -> Result AnalysisResult;
  imageUrlToBase64 : string -> Result string;
  nsfwServer_check : string -> string -> Result AnalysisResult
}.

Section pipeline.
Variable env : Collaborators.
Variable thresholds : Thresholds.
Variable now : Z.

(** [analyzeImageWithHash(imageUrl)]; its [catch] records timings and
    rethrows. *)
Definition analyzeImageWithHash (imageUrl : string) : M AnalysisResult :=
  let* cached := await (CallGetHashResult imageUrl) (Return (getHashResult env imageUrl)) in
  match cached with
  | Some result => ret result
  | None =>
      let* reporterId := await CallGetOrCreateReporterId (getOrCreateReporterId env) in
      let* hashes := await (CallGenerateHashes imageUrl) (generateHashesAsync env imageUrl) in
      let* result := await (CallHashCheck hashes reporterId)
                       (hashChecker_check env hashes reporterId) in
      let* _ := await (CallSetHashResult imageUrl) (Return tt) in
      ret result
  end.

(** The statements of the second stage's [try] block up to the assignment
    of [secondaryResult]. *)
Definition secondStage (imageUrl : string) : M AnalysisResult :=
  let* reporterId := await CallGetOrCreateReporterId (getOrCreateReporterId env) in
  let* imageBase64 := await (CallImageUrlToBase64 imageUrl) (imageUrlToBase64 env imageUrl) in
  await (CallDeepAnalysis imageBase64 reporterId) (nsfwServer_check env imageBase64 reporterId).

Definition analyzeImage (imageUrl : string) : M FinalResult :=
  let* primaryResult :=
    try_catch (let* r := analyzeImageWithHash imageUrl in ret (Some r)) (fun _ => ret None) in
  match primaryResult with
  | Some primary =>
      let status := determineStatus thresholds (riskScore primary) in
      match status with
      | safe => ret (buildFinalResult (Some primary) None status now)
      | caution | danger =>
          let* secondaryResult :=
            try_catch (let* r := secondStage imageUrl in ret (Some r)) (fun _ => ret None) in
          match secondaryResult with
          | Some secondary =>
              let finalStatus := determineStatus thresholds (riskScore secondary) in
              ret (buildFinalResult (Some primary) (Some secondary) finalStatus now)
          | None => ret (buildFinalResult (Some primary) None status now)
          end
      end
  | None => ret (buildFinalResult (Some safeFallbackResult) None safe now)
  end.

End pipeline.

(** A request runs from an empty call log. *)
Definition run {A} (m : M A) : Result A * list Call := m [].

(** Whether the deep-analysis backend was called. *)
Definition is_deep_call (c : Call) : bool :=
  match c with
  | CallDeepAnalysis _ _ => true
  | _ => false
  end.

Definition deep_analysis_called (log : list Call) : bool := existsb is_deep_call log.

(** The thresholds and stage results of the specification's scenario. *)
Definition example_image : string := "https://dcimg1.dcinside.com/viewimage.php?no=1".


Definition default_thresholds : Thresholds := mkThresholds (3 # 10) (6 # 10).

Definition hash_result_045 : AnalysisResult :=
  mkAnalysisResult (45 # 100) zero_scores zero_scores "hash-check" true.

Definition deep_result_08 : AnalysisResult :=
  mkAnalysisResult (8 # 10) zero_scores zero_scores "nsfw-server-check" true.


(** The hash stage answers 0.15. *)
Definition hash_result_015 : AnalysisResult :=
  mkAnalysisResult (15 # 100) zero_scores zero_scores "hash-check" false.

Definition env_hash_safe : Collaborators :=
  {| getHashResult := fun _ => None;
     getOrCreateReporterId := Return "nerd-0001";
     generateHashesAsync := fun _ => Return "f0e1d2c3";
     hashChecker_check := fun _ _ => Return hash_result_015;
     imageUrlToBase64 := fun _ => Return "aGVsbG8=";
     nsfwServer_check := fun _ _ => Return deep_result_08 |}.

(** As [env_deep_danger], but the image cannot be converted to Base64. *)
Definition env_encoding_fails : Collaborators :=
  {| getHashResult := fun _ => Some hash_result_045;
     getOrCreateReporterId := Return "nerd-0001";
     generateHashesAsync := fun _ => Return "f0e1d2c3";
     hashChecker_check := fun _ _ => Return hash_result_045;
     imageUrlToBase64 :=
       fun _ => Throw (new_Error "이미지를 Base64로 변환할 수 없습니다.");
     nsfwServer_check := fun _ _ => Return deep_result_08 |}.

(** Nothing cached and the hash server answers 503. *)
Definition env_hash_down : Collaborators :=
  {| getHashResult := fun _ => None;
     getOrCreateReporterId := Return "nerd-0001";
     generateHashesAsync := fun _ => Return "f0e1d2c3";
     hashChecker_check := fun _ _ => Throw (new_Error "서버 응답 오류: 503");
     imageUrlToBase64 := fun _ => Return "aGVsbG8=";
     nsfwServer_check := fun _ _ => Return deep_result_08 |}.

(** The three statuses in the order green, yellow, red. *)
Definition severity (s : Status) : Z :=
  match s with safe => 0 | caution => 1 | danger => 2 end.


End ServiceWorker.

(** ** The backends' answers in the service worker's format *)

Module Analyzers.
Import JS ServiceWorker.

(** The part of [result.data] the transformations read: [matched], and of
    [image] the fields [severity] and [category] ([None] where [image] or the
    field is missing). *)
Record CheckData : Type := mkCheckData {
  data_matched : bool;
  image_severity : option Q;
  image_category : option Z
}.

(** [image?.severity || 5]: a missing severity and the number 0 give 5. *)
Definition severity_or_default (data : CheckData) : Q :=
  match image_severity data with
  | Some s => if Qeq_bool s 0 then 5%Q else s
  | None => 5%Q
  end.

(** [categoryMap[categoryId] || { disturbing: score }], as the key that
    receives the score. *)
Definition category_key (categoryId : Z) : string :=
  match categoryId with
  | 1 => "gore"
  | 2 => "violence"
  | 3 => "death"
  | 4 => "disturbing"
  | 5 => "insects"
  | 6 => "medical"
  | 7 => "shock"
  | 8 => "animal_cruelty"
  | 9 => "nsfw_porn"
  | 10 => "nsfw_sexy"
  | _ => "disturbing"
  end.

(** [mapCategoryToScores(categoryId, severity)], the same function in both
    analyzer classes: [{ ...baseCategories, ...mapped }] keeps the keys of
    [baseCategories] in their order and overwrites one value. *)
Definition mapCategoryToScores (categoryId : Z) (severity : Q) : list (string * Q) :=
  let score := (severity / 5)%Q in
  Map.set zero_scores (category_key categoryId) score.

(** The common body of [HashChecker.transformResult] and
    [NsfwjsServerAnalyzer.transformCheckResult]; they differ in [source]. *)
Definition transform (source : string) (data : CheckData) : AnalysisResult :=
  if negb (data_matched data) then
    {| riskScore := 0%Q; detailedScores := zero_scores; categories := zero_scores;
       source := source; matched := false |}
  else
    let severity := severity_or_default data in
    let riskScore := (severity / 5)%Q in
    let categoryId := or_default (image_category data) 1 in
    let categories := mapCategoryToScores categoryId severity in
    {| riskScore := riskScore; detailedScores := categories; categories := categories;
       source := source; matched := true |}.

Definition transformResult : CheckData -> AnalysisResult := transform "hash-db".
Definition transformCheckResult : CheckData -> AnalysisResult := transform "nsfw-server-check".

(** A match of severity 2 in category 9, and a match that names neither. *)
Definition porn_match : CheckData := mkCheckData true (Some 2%Q) (Some 9).

Definition bare_match : CheckData := mkCheckData true None None.

(** The sum of the scores of a [categories] object. *)
Definition total_score (categories : list (string * Q)) : Q :=
  fold_right (fun e acc => (e.2 + acc)%Q) 0%Q categories.

End Analyzers.


(** ** The reporter id of the installation *)

Module ReporterId.

(** A string as the array of its characters. *)
Abbreviation Chars := (list ascii).

(** [id.indexOf(char, fromIndex)] for a single character; [None] is -1. *)
Fixpoint indexOf (id : Chars) (char : ascii) (fromIndex : nat) : option nat :=
  match id with
  | [] => None
  | c :: id' =>
      match fromIndex with
      | O => if Ascii.eqb c char then Some O else S <$> indexOf id' char O
      | S n => S <$> indexOf id' char n
      end
  end.

(** The loop of [isNerdyId] over the remaining [chars]. *)
Fixpoint isNerdyId_loop (id : Chars) (chars : list ascii) (lastIndex : Z) : bool :=
  match chars with
  | [] => true
  | char :: chars' =>
      match indexOf id char (Z.to_nat (lastIndex + 1)) with
      | None => false
      | Some index =>
          if Z.of_nat index <=? lastIndex then false
          else isNerdyId_loop id chars' (Z.of_nat index)
      end
  end.

Definition nerdChars : list ascii := ["n"; "e"; "r"; "d"]%char.

Definition isNerdyId (id : Chars) : bool := isNerdyId_loop id nerdChars (-1).

(** The positions of a UUID that may be overwritten: no hyphen, and neither
    the version digit (index 14) nor the variant digit (index 19). *)
Definition availablePositions (uuid : Chars) : list nat :=
  filter (fun i => uuid !! i <> Some "-"%char /\ i <> 14%nat /\ i <> 19%nat)
         (seq 0 (length uuid)).

(** One iteration of the selection loop: [selectedPositions] and
    [availableCopy] before and after, for a number [random] in [0, 1) as
    [Math.random()] returns it.  An index past the end of the array reads
    [undefined] ([None]) and [splice] removes nothing. *)
Definition select (state : list (option nat) * list nat) (random : Q)
  : list (option nat) * list nat :=
  let '(selectedPositions, availableCopy) := state in
  let randomIndex :=
    Z.to_nat (Qfloor (random * inject_Z (Z.of_nat (length availableCopy)))) in
  (selectedPositions ++ [availableCopy !! randomIndex], delete randomIndex availableCopy).

(** [selectedPositions.sort((a, b) => a - b)]: the numbers in ascending order,
    [undefined] entries last. *)
Fixpoint insert_position (x : nat) (l : list nat) : list nat :=
  match l with
  | [] => [x]
  | y :: l' => if (x <=? y)%nat then x :: l else y :: insert_position x l'
  end.

Definition sort_positions (l : list (option nat)) : list (option nat) :=
  (Some <$> fold_right insert_position [] (omap (fun p => p) l))
  ++ filter (fun p => p = None) l.

(** [uuidArray[position] = char]; an [undefined] position leaves the
    elements of the array as they are. *)
Definition assign (uuidArray : Chars) (pc : option nat * ascii) : Chars :=
  match pc.1 with
  | Some position => <[position := pc.2]> uuidArray
  | None => uuidArray
  end.

(** [generateNerdyReporterId()], given the UUID that [crypto.randomUUID()]
    returns and the numbers that the four calls of [Math.random()] return. *)
Definition generateNerdyReporterId (uuid : Chars) (random : nat -> Q) : Chars :=
  let availablePositions := availablePositions uuid in
  let '(selectedPositions, _) :=
    fold_left select (random <$> seq 0 4) ([], availablePositions) in
  let selectedPositions := sort_positions selectedPositions in
  fold_left assign (zip selectedPositions nerdChars) uuid.

(** [getOrCreateReporterId()] over the value stored under ["reporterId"];
    the empty string is falsy. *)
Definition getOrCreateReporterId (stored : option Chars) (uuid : Chars) (random : nat -> Q)
  : Chars * option Chars :=
  let create :=
    let reporterId := generateNerdyReporterId uuid random in
    (reporterId, Some reporterId) in
  match stored with
  | Some reporterId =>
      if negb (bool_decide (reporterId = [])) && isNerdyId reporterId
      then (reporterId, stored)
      else create
  | None => create
  end.

Definition chars_of (s : string) : Chars := String.list_ascii_of_string s.

(** A version 4 UUID, and four random numbers. *)
Definition example_uuid : Chars := chars_of "123e4567-e89b-42d3-a456-426614174000".

Definition example_random (i : nat) : Q :=
  match i with
  | 0%nat => 0%Q
  | 1%nat => (1 # 2)%Q
  | 2%nat => (27 # 28)%Q
  | _ => (1 # 3)%Q
  end.

End ReporterId.


(** ** The caches kept in [chrome.storage.local] (src/utils/storage.js)

    The storage is taken to keep what is written to it: a function reads the
    object that the last write left, and its own write succeeds. *)

Module Storage.

(** [ToInt32]: the signed 32-bit integer congruent to [x]. *)
Definition ToInt32 (x : Z) : Z := (x + 2 ^ 31) mod 2 ^ 32 - 2 ^ 31.

(** One iteration of the loop of [hashString]:
    [hash = ((hash << 5) - hash) + char; hash = hash & hash]. *)
Definition hashString_step (hash char : Z) : Z :=
  let hash := ToInt32 (Z.shiftl (ToInt32 hash) 5) - hash + char in
  ToInt32 (Z.land (ToInt32 hash) (ToInt32 hash)).

(** [str.charCodeAt(i)] for the characters of an ASCII string. *)
Definition charCodes (str : string) : list Z :=
  (fun c => Z.of_nat (nat_of_ascii c)) <$> String.list_ascii_of_string str.

(** [hashString(str)] before its rendering in base 36; [toString(36)] is
    one-to-one, so the integer identifies the cache key. *)
Definition hashString (str : string) : Z :=
  fold_left hashString_step (charCodes str) 0.

(** [keys.sort((a, b) => timestamp(a) - timestamp(b))]: the stable ascending
    arrangement. *)
Fixpoint insert_by_timestamp {K} (timestamp : K -> Z) (x : K) (l : list K) : list K :=
  match l with
  | [] => [x]
  | y :: l' =>
      if timestamp x <=? timestamp y then x :: l
      else y :: insert_by_timestamp timestamp x l'
  end.

Definition sort_by_timestamp {K} (timestamp : K -> Z) (l : list K) : list K :=
  fold_right (insert_by_timestamp timestamp) [] l.

Section caches.
Context {Data : Type}.

(** An entry of the result cache: [{ timestamp, result }]. *)
Record CachedData : Type := mkCachedData {
  cd_timestamp : Z;
  cd_result : Data
}.

(** [getCachedResult(imageUrl, cacheDuration)] at time [now]. *)
Definition getCachedResult (cache : gmap Z CachedData) (imageUrl : string) (cacheDuration now : Z)
  : option Data :=
  let cacheKey := hashString imageUrl in
  match cache !! cacheKey with
  | None => None
  | Some cachedData =>
      let elapsed := now - cd_timestamp cachedData in
      if cacheDuration <? elapsed then None else Some (cd_result cachedData)
  end.

(** [cache[key].timestamp] for a key of the object. *)
Definition timestamp_of (cache : gmap Z CachedData) (key : Z) : Z :=
  default 0 (cd_timestamp <$> cache !! key).

(** [setCachedResult(imageUrl, result)] at time [now]; [Object_keys] is the
    order in which the engine enumerates the keys of the object. *)
Definition setCachedResult (Object_keys : gmap Z CachedData -> list Z)
    (cache : gmap Z CachedData) (imageUrl : string) (result : Data) (now : Z) : gmap Z CachedData :=
  let cacheKey := hashString imageUrl in
  let cache := <[cacheKey := mkCachedData now result]> cache in
  let keys := Object_keys cache in
  if (1000 <? length keys)%nat then
    let sortedKeys := sort_by_timestamp (timestamp_of cache) keys in
    let keysToDelete := take (length keys - 1000) sortedKeys in
    fold_left (fun cache key => delete key cache) keysToDelete cache
  else cache.

(** An entry of the hash cache: [{ hashes, result, timestamp }]. *)
Record HashEntry : Type := mkHashEntry {
  he_hashes : string;
  he_result : Data;
  he_timestamp : Z
}.

(** [24 * 60 * 60 * 1000] *)
Definition TTL : Z := 24 * 60 * 60 * 1000.

(** [getHashCache(imageUrl)] at time [now]. *)
Definition getHashCache (cache : gmap string HashEntry) (imageUrl : string) (now : Z)
  : option HashEntry :=
  match cache !! imageUrl with
  | None => None
  | Some cached =>
      let age := now - he_timestamp cached in
      if TTL <? age then None else Some cached
  end.

(** [cache[key].timestamp || 0] for a key of the object. *)
Definition hash_timestamp_of (cache : gmap string HashEntry) (key : string) : Z :=
  default 0 (he_timestamp <$> cache !! key).


(** [clearExpiredHashCache()] at time [now]: the number of deleted entries
    and the object afterwards. *)
Definition clearExpiredHashCache (Object_keys : gmap string HashEntry -> list string)
    (cache : gmap string HashEntry) (now : Z) : Z * gmap string HashEntry :=
  let step (state : Z * gmap string HashEntry) (url : string) :=
    let '(deletedCount, cache') := state in
    let age := now - hash_timestamp_of cache url in
    if TTL <? age then (deletedCount + 1, delete url cache') else state in
  fold_left step (Object_keys cache) (0, cache).

(** An enumeration order that an engine may use. *)
Definition listed_keys {K V} `{Countable K} (cache : gmap K V) : list K :=
  (map_to_list cache).*1.

End caches.
Arguments CachedData Data : clear implicits.
Arguments HashEntry Data : clear implicits.

(** The object stored under [STORAGE_KEYS.CACHE]. *)
Abbreviation Cache Data := (gmap Z (CachedData Data)).

(** The URL of a post and of its image. *)
Definition example_post : string := "https://gall.dcinside.com/board/view/?id=dcbest&no=1".

Definition example_picture : string := "https://dcimg1.dcinside.com/viewimage.php?no=1".

End Storage.



(** ** CacheManager: the stored analysis results *)

Module CacheManager.
Import JS Storage.

(** The fields of [currentSettings] that the cache and the request handler
    read. *)
Record Settings : Type := mkSettings {
  enabled : bool;
  cacheEnabled : bool;
  cacheDuration : Z
}.

Section methods.
Context {Data : Type}.

(** [getAnalysisResult(postUrl)] at time [now]; a cached result is an
    object, which is truthy. *)
Definition getAnalysisResult (settings : Settings) (cache : Cache Data)
    (postUrl : string) (now : Z) : option Data :=
  if negb (cacheEnabled settings) then None
  else getCachedResult cache postUrl (cacheDuration settings) now.

(** [setAnalysisResult(postUrl, result)] at time [now]. *)
Definition setAnalysisResult (Object_keys : Cache Data -> list Z) (settings : Settings)
    (cache : Cache Data) (postUrl : string) (result : Data) (now : Z) : Cache Data :=
  if negb (cacheEnabled settings) then cache
  else setCachedResult Object_keys cache postUrl result now.

(** [getHashResult(imageUrl)] at time [now]. *)
Definition getHashResult (cache : gmap string (HashEntry Data)) (imageUrl : string) (now : Z)
  : option Data :=
  he_result <$> getHashCache cache imageUrl now.

End methods.

(** The default settings: enabled, caching on, results kept for a day. *)
Definition default_settings : Settings := mkSettings true true 86400000.

End CacheManager.

(** ** AdvancedCacheManager over the store of its parent class *)

Module AdvancedCache.
Import JS Storage.

Section methods.
Context {Data : Type}.

(** The access bookkeeping of the instance and the object under
    [STORAGE_KEYS.CACHE]. *)
Record State : Type := mkState {
  tracker : AdvancedCacheManager.t;
  store : Cache Data
}.

(** [getAnalysisResult(postUrl)]: the parent's answer, looked up at time
    [now]; a hit is counted as an access, for which the clock is read again
    ([accessed]). *)
Definition getAnalysisResult (settings : CacheManager.Settings) (st : State)
    (postUrl : string) (now accessed : Z) : option Data * State :=
  let cached := CacheManager.getAnalysisResult settings (store st) postUrl now in
  (cached,
   {| tracker := AdvancedCacheManager.getAnalysisResult (tracker st) postUrl
                   (bool_decide (is_Some cached)) accessed;
      store := store st |}).

(** [setAnalysisResult(postUrl, result)]; the parent writes at time
    [stored], the bookkeeping reads the clock again. *)
Definition setAnalysisResult (Object_keys : Cache Data -> list Z)
    (settings : CacheManager.Settings) (st : State) (postUrl : string) (result : Data)
    (stored now : Z) : State :=
  {| tracker := AdvancedCacheManager.setAnalysisResult (tracker st) postUrl now;
     store := CacheManager.setAnalysisResult Object_keys settings (store st) postUrl
                result stored |}.

(** [smartCleanup()]: [deleteCachedResult] addresses [window.kasFreeDB], not
    the object in [chrome.storage.local]. *)
Definition smartCleanup (st : State) (now : Z) : Z * State :=
  let '(deleted, tracker') := AdvancedCacheManager.smartCleanup (tracker st) now in
  (deleted, {| tracker := tracker'; store := store st |}).

End methods.
Arguments State Data : clear implicits.

End AdvancedCache.


(** ** The handler of an analysis request *)

Module RequestHandler.
Import JS ServiceWorker.

(** What is cached for a post and returned to the page: the final result
    with the [imageUrl] that was analysed. *)
Record PostResult : Type := mkPostResult {
  result : FinalResult;
  imageUrl : string
}.

(** The answers [handleAnalyzeImage] gives before its [catch] block. *)
Inductive Response : Type :=
| Disabled
| Unchecked
| Analysed (r : PostResult).

(** [handleAnalyzeImage(message)] up to its [catch] block.  [fetchPostImage]
    is what that function resolves to for a post URL ([None] is [null]; it
    catches its own exceptions).  The clock reads [now] at the cache lookup,
    [accessed] when a hit is counted, [built] when the result is built,
    [stored] and [tracked] when it is written and counted.  [Throw] means
    that control passes to the [catch] block.  The calls of the performance
    monitor are left out. *)
Definition handleAnalyzeImage
    (Object_keys : Storage.Cache PostResult -> list Z) (settings : CacheManager.Settings)
    (env : Collaborators) (thresholds : Thresholds) (fetchPostImage : string -> option string)
    (st : AdvancedCache.State PostResult) (postUrl : string)
    (now accessed built stored tracked : Z)
  : JS.Result Response * AdvancedCache.State PostResult * list Call :=
  if negb (CacheManager.enabled settings) then (Return Disabled, st, [])
  else
    let '(cachedResult, st) := AdvancedCache.getAnalysisResult settings st postUrl now accessed in
    match cachedResult with
    | Some cached => (Return (Analysed cached), st, [])
    | None =>
        match fetchPostImage postUrl with
        | None => (Return Unchecked, st, [])
        | Some imageUrl =>
            match run (analyzeImage env thresholds built imageUrl) with
            | (Return result, log) =>
                let result := mkPostResult result imageUrl in
                let st := AdvancedCache.setAnalysisResult Object_keys settings st postUrl
                            result stored tracked in
                (Return (Analysed result), st, log)
            | (Throw error, log) => (Throw error, st, log)
            end
        end
    end.

(** Every post shows the example image. *)
Definition example_page : string -> option string := fun _ => Some example_image.

(** A new cache manager in a service worker. *)
Definition new_state : AdvancedCache.State PostResult :=
  AdvancedCache.mkState (AdvancedCacheManager.constructor (KasFreeDB.mkWindow None)) ∅.

End RequestHandler.


(** ** The timeout rule in the specification's words

    Used only to compare [AdaptiveTimeoutManager.calculateTimeout] with. *)

Module TimeoutSpec.

Definition sum (L : list R) : R := fold_right Rplus 0%R L.

(** The sample mean. *)
Definition mean (L : list R) : R := (sum L / INR (length L))%R.




End TimeoutSpec.

(** * Properties *)

(** ** AdaptiveTimeoutManager: the mean + 2 sigma rule and its bounds *)

Section AdaptiveTimeout.
Import JS AdaptiveTimeoutManager.
Local Open Scope R_scope.


Lemma fold_left_squares (mu : R) (L : list R) (a : R) :
  fold_left (fun sum t => sum + (t - mu) ^ 2) L a
  = a + TimeoutSpec.sum (map (fun x => Rsqr (x - mu)) L).
Proof.
  revert a; induction L as [|x L IH]; intros a; simpl.
  - lra.
  - rewrite IH. unfold Rsqr. lra.
Qed.





Lemma Math_round_bounds (x : R) :
  IZR (Math_round x) - 1 / 2 <= x < IZR (Math_round x) + 1 / 2.
Proof.
  unfold Math_round. pose proof (Zfloor_bound (x + 1 / 2)) as H. lra.
Qed.

Lemma Math_round_eq (x : R) (z : Z) :
  IZR z - 1 / 2 <= x < IZR z + 1 / 2 -> Math_round x = z.
Proof. intros H. unfold Math_round. apply Zfloor_eq. lra. Qed.



(** With five samples or more the manager takes the statistical path. *)
Lemma calculateTimeout_enough_samples (m : t) (endpoint : string) (L : list R) :
  history m !! endpoint = Some L ->
  (5 <= length L)%nat ->
  calculateTimeout m endpoint
  = Math_round (Math_max (IZR (minTimeout m))
                  (Math_min (mean_of L + 2 * stdDev_of L) (IZR (maxTimeout m)))).
Proof.
  intros Hh Hlen. unfold calculateTimeout. rewrite Hh.
  destruct (Nat.ltb_spec (length L) 5) as [Hlt|_]; [lia|]. reflexivity.
Qed.

(** With fewer samples, or none, it answers the configured default. *)
Lemma calculateTimeout_few_samples (m : t) (endpoint : string) :
  (forall L, history m !! endpoint = Some L -> (length L < 5)%nat) ->
  calculateTimeout m endpoint = defaultTimeout m.
Proof.
  intros H. unfold calculateTimeout.
  destruct (history m !! endpoint) as [L|] eqn:Hh; [|reflexivity].
  specialize (H L eq_refl).
  destruct (Nat.ltb_spec (length L) 5) as [_|Hge]; [reflexivity|lia].
Qed.

Lemma example_history :
  history example_manager !! "api.openai.com" = Some example_latencies.
Proof. unfold example_manager, set_history; simpl. apply lookup_singleton_eq. Qed.

Lemma example_mean : mean_of example_latencies = 3020.
Proof. unfold mean_of, example_latencies; simpl. lra. Qed.

Lemma example_variance : variance_of example_latencies = 17600.
Proof.
  unfold variance_of. rewrite example_mean.
  unfold example_latencies; simpl. lra.
Qed.

Lemma example_stdDev : 13266 / 100 < stdDev_of example_latencies < 13267 / 100.
Proof.
  unfold stdDev_of. rewrite example_variance. split.
  - rewrite <- (sqrt_square (13266 / 100)) by lra. apply sqrt_lt_1; lra.
  - rewrite <- (sqrt_square (13267 / 100)) by lra. apply sqrt_lt_1; lra.
Qed.

Lemma example_timeout (m : t) (endpoint : string) :
  minTimeout m = 3000%Z -> maxTimeout m = 30000%Z ->
  history m !! endpoint = Some example_latencies ->
  calculateTimeout m endpoint = 3285%Z.
Proof.
  intros Hmin Hmax Hh.
  rewrite (calculateTimeout_enough_samples m endpoint example_latencies Hh)
    by (simpl; lia).
  rewrite Hmin, Hmax, example_mean. pose proof example_stdDev as [Hlo Hhi].
  apply Math_round_eq.
  unfold Math_max, Math_min, Rmax, Rmin.
  repeat (destruct (Rle_dec _ _)); lra.
Qed.




(** C7, as the code has it.  For the history [3000, 3200, 2800, 3100, 3000]
    under the default configuration the mean is 3020, the variance 17600, the
    standard deviation lies between 132.66 and 132.67, and the timeout
    returned is 3285 ms. *)
Theorem example_timeout_is_3285 (m : t) (endpoint : string) :
  minTimeout m = 3000%Z -> maxTimeout m = 30000%Z ->
  history m !! endpoint = Some example_latencies ->
  mean_of example_latencies = 3020 /\
  variance_of example_latencies = 17600 /\
  13266 / 100 < stdDev_of example_latencies < 13267 / 100 /\
  calculateTimeout m endpoint = 3285%Z.
Proof.
  intros Hmin Hmax Hh.
  repeat split; try apply example_stdDev.
  - apply example_mean.
  - apply example_variance.
  - now apply example_timeout.
Qed.

Lemma example_timeout_is_3285_witness :
  mean_of example_latencies = 3020 /\
  variance_of example_latencies = 17600 /\
  13266 / 100 < stdDev_of example_latencies < 13267 / 100 /\
  calculateTimeout example_manager "api.openai.com" = 3285%Z.
Proof.
  apply (example_timeout_is_3285 example_manager "api.openai.com").
  - reflexivity.
  - reflexivity.
  - apply example_history.
Defined.

(** The figures of the worked example do not come out: the standard
    deviation is not within 1 of 134.4 and the timeout is not 3289. *)
Lemma example_timeout_is_not_3289 :
  ~ Rabs (stdDev_of example_latencies - 1344 / 10) <= 1 /\
  calculateTimeout example_manager "api.openai.com" <> 3289%Z.
Proof.
  split.
  - pose proof example_stdDev as [Hlo Hhi]. intros Habs.
    unfold Rabs in Habs. destruct (Rcase_abs _); lra.
  - rewrite (example_timeout example_manager "api.openai.com");
      [lia | reflexivity | reflexivity | apply example_history].
Qed.




End AdaptiveTimeout.

(** ** ApiClient: backoff delays and the retry loop *)

Section ApiClientFacts.
Import JS ApiClient.



Example isRetryableStatus_examples :
  isRetryableStatus <$> [200; 400; 401; 403; 404; 408; 429; 500; 502; 503]
  = [false; false; false; false; false; true; true; true; true; true].
Proof. reflexivity. Qed.

Lemma fetchWithTimeout_resolved (c : t) (endpoint : string) (r : Response) (time : R) :
  (fetchWithTimeout c endpoint (Resolved r time)).1 = Return r.
Proof. reflexivity. Qed.


Lemma fetchWithTimeout_maxRetries (c : t) (endpoint : string) (o : FetchOutcome) :
  maxRetries (fetchWithTimeout c endpoint o).2 = maxRetries c.
Proof.
  destruct o as [r time|rejection]; simpl.
  - destruct (timeoutManager c); [destruct (ok r)|]; reflexivity.
  - destruct (String.eqb (name rejection) "AbortError"); reflexivity.
Qed.







Section loop.
Variable endpoint : string.
Variable net : nat -> FetchOutcome.
Variable random : nat -> Q.




Lemma count_fetches_app (tr1 tr2 : list Event) :
  count_fetches (tr1 ++ tr2) = (count_fetches tr1 + count_fetches tr2)%nat.
Proof. unfold count_fetches. by rewrite List.filter_app, length_app. Qed.



(** The events of a run are appended to the log the loop starts with. *)
Lemma retry_loop_trace (remaining attempt : nat) (c : t) (lastError : option Error)
    (trace : list Event) :
  retry_loop endpoint net random remaining attempt c lastError trace
  = let '(res, c', tr) := retry_loop endpoint net random remaining attempt c lastError [] in
    (res, c', trace ++ tr).
Proof.
  revert attempt c lastError trace.
  induction remaining as [|remaining IH]; intros attempt c lastError trace; simpl.
  - by rewrite app_nil_r.
  - destruct (fetchWithTimeout c endpoint (net attempt)) as [[response|error] c1].
    + destruct (isRetryableStatus (status response) && (Z.of_nat attempt <? maxRetries c)).
      * rewrite (IH _ _ _ (trace ++ _)), (IH _ _ _ [_; _]).
        destruct (retry_loop endpoint net random remaining (S attempt) c1 lastError [])
          as [[res c'] tr].
        by rewrite app_assoc.
      * reflexivity.
    + destruct (is_retryable_ApiError error && (Z.of_nat attempt <? maxRetries c)).
      { rewrite (IH _ _ _ (trace ++ _)), (IH _ _ _ [_; _]).
        destruct (retry_loop endpoint net random remaining (S attempt) c1 (Some error) [])
          as [[res c'] tr].
        by rewrite app_assoc. }
      destruct (String.eqb (name error) "TypeError" && (Z.of_nat attempt <? maxRetries c)).
      { rewrite (IH _ _ _ (trace ++ _)), (IH _ _ _ [_; _]).
        destruct (retry_loop endpoint net random remaining (S attempt) c1 (Some error) [])
          as [[res c'] tr].
        by rewrite app_assoc. }
      reflexivity.
Qed.


End loop.



End ApiClientFacts.

(** ** AdvancedCacheManager: what a sweep keeps *)

Section CacheFacts.
Import JS AdvancedCacheManager.

Example keepCount_examples :
  keepCount 100 = 80 /\ keepCount 12 = 10 /\ keepCount 5 = 10 /\ keepCount 13 = 11.
Proof. by vm_compute. Qed.

Example sort_by_score_example :
  url <$> sort_by_score
            [mkEntry "a" 3 0 30; mkEntry "b" 1 0 10; mkEntry "c" 3 0 30; mkEntry "d" 2 0 20]
  = ["b"; "d"; "a"; "c"].
Proof. reflexivity. Qed.

Lemma keepCount_formula (totalCount : Z) :
  keepCount totalCount = Z.max 10 ((4 * totalCount + 4) / 5).
Proof.
  unfold keepCount. f_equal.
  unfold Qceiling, Qfloor, Qopp, Qmult, inject_Z; simpl.
  Z.to_euclidean_division_equations. lia.
Qed.

Lemma insert_by_score_Permutation (x : Entry) (l : list Entry) :
  insert_by_score x l ≡ₚ x :: l.
Proof.
  induction l as [|y l IH]; simpl; [done|].
  destruct (score x <=? score y); [done|].
  rewrite IH. apply Permutation_swap.
Qed.

Lemma sort_by_score_Permutation (l : list Entry) : sort_by_score l ≡ₚ l.
Proof.
  induction l as [|x l IH]; simpl; [done|].
  by rewrite insert_by_score_Permutation, IH.
Qed.



(** The arrangement is stable: entries of one score keep their order. *)
Lemma insert_by_score_stable (s : Z) (x : Entry) (l : list Entry) :
  filter (fun e => score e = s) (insert_by_score x l)
  = filter (fun e => score e = s) (x :: l).
Proof.
  induction l as [|y l IH]; simpl; [done|].
  destruct (Z.leb_spec (score x) (score y)) as [Hle|Hgt]; [done|].
  rewrite (filter_cons _ y), IH, !filter_cons.
  destruct (decide (score y = s)), (decide (score x = s)); try done. lia.
Qed.

Lemma sort_by_score_stable (s : Z) (l : list Entry) :
  filter (fun e => score e = s) (sort_by_score l) = filter (fun e => score e = s) l.
Proof.
  induction l as [|x l IH]; simpl; [done|].
  by rewrite insert_by_score_stable, !filter_cons, IH.
Qed.

Lemma filter_all {A} (P : A -> Prop) `{forall x, Decision (P x)} (l : list A) :
  Forall P l -> filter P l = l.
Proof.
  induction 1 as [|x l Hx Hl IH]; [done|]. by rewrite filter_cons_True, IH.
Qed.


Lemma fmap_fst_filter {V} (P : string -> Prop) `{forall k, Decision (P k)}
    (m : list (string * V)) :
  (filter (fun e => P e.1) m).*1 = filter P m.*1.
Proof.
  induction m as [|e m IH]; [done|].
  rewrite fmap_cons, !filter_cons.
  destruct (decide (P e.1)); [rewrite fmap_cons|]; by rewrite IH.
Qed.


Lemma Map_get_None {V} (m : list (string * V)) (k : string) :
  k ∉ m.*1 -> Map.get m k = None.
Proof.
  unfold Map.get. induction m as [|e m IH]; intros Hk; [done|].
  rewrite fmap_cons, not_elem_of_cons in Hk. destruct Hk as [Hne Hk]. simpl.
  destruct (String.eqb_spec e.1 k) as [Heq|_]; [congruence|]. by apply IH.
Qed.

(** The maps after the deletion loop. *)
Lemma fold_delete_accessCount (toDelete : list Entry) (c : t) :
  accessCount (fold_left delete_entry toDelete c)
  = filter (fun e => e.1 ∉ url <$> toDelete) (accessCount c).
Proof.
  revert c. induction toDelete as [|d ds IH]; intros c; simpl.
  - symmetry. apply filter_all, Forall_forall. intros e _. apply not_elem_of_nil.
  - rewrite IH. cbn [delete_entry accessCount]. unfold Map.delete.
    rewrite list_filter_filter.
    apply list_filter_iff. intros e. rewrite not_elem_of_cons. tauto.
Qed.

Lemma fold_delete_lastAccess (toDelete : list Entry) (c : t) (k : string) :
  lastAccess (fold_left delete_entry toDelete c) !! k
  = if decide (k ∈ url <$> toDelete) then None else lastAccess c !! k.
Proof.
  revert c. induction toDelete as [|d ds IH]; intros c.
  - cbn [fold_left]. rewrite decide_False; [done|]. apply not_elem_of_nil.
  - cbn [fold_left]. rewrite IH, fmap_cons. cbn [delete_entry lastAccess].
    destruct (decide (k ∈ url <$> ds)) as [Hin|Hnin].
    + rewrite decide_True; [done|]. apply elem_of_cons. by right.
    + destruct (decide (k = url d)) as [->|Hne].
      * rewrite lookup_delete_eq. rewrite decide_True; [done|]. apply elem_of_cons. by left.
      * rewrite lookup_delete_ne by done. rewrite decide_False; [done|].
        rewrite elem_of_cons. tauto.
Qed.



Section sweep.
Variable c : t.
Variable now : Z.
Variable d : nat.
Hypothesis Hwf : Map.wf (accessCount c).

Local Abbreviation entries := (scored c now).
Local Abbreviation sorted := (ranking c now).
Local Abbreviation c' := (evict c now d).







Lemma retained_original (e : string * Z) :
  e ∈ accessCount c' <-> e ∈ accessCount c /\ e.1 ∉ url <$> take d sorted.
Proof.
  unfold evict. rewrite fold_delete_accessCount, list_elem_of_filter. tauto.
Qed.



Lemma evicted_key (e : string * Z) :
  e ∈ accessCount c -> e ∉ accessCount c' -> e.1 ∈ url <$> take d sorted.
Proof.
  intros Hin Hgone.
  destruct (decide (e.1 ∈ url <$> take d sorted)) as [|Hn]; [done|].
  exfalso. apply Hgone. by apply retained_original.
Qed.

Lemma evicted_gone (e : string * Z) :
  e ∈ accessCount c -> e ∉ accessCount c' ->
  Map.get (accessCount c') e.1 = None /\ lastAccess c' !! e.1 = None.
Proof.
  intros Hin Hgone. pose proof (evicted_key e Hin Hgone) as Hkey. split.
  - apply Map_get_None. intros (e' & Hk & He')%list_elem_of_fmap.
    apply retained_original in He' as [_ Hn]. apply Hn. by rewrite <- Hk.
  - unfold evict. rewrite fold_delete_lastAccess. by rewrite decide_True.
Qed.

End sweep.

Lemma smartCleanup_unfold (c : t) (now : Z) :
  let N := Map.size (accessCount c) in
  smartCleanup c now
  = if N - keepCount N <=? 0 then (0, c)
    else (N - keepCount N, evict c now (Z.to_nat (N - keepCount N))).
Proof.
  intros N. subst N. unfold smartCleanup, evict, ranking, scored, Map.size.
  rewrite (Permutation_length (sort_by_score_Permutation _)), length_map.
  destruct (Z.eqb_spec (Z.of_nat (length (accessCount c))) 0) as [Hz|Hnz]; [|done].
  rewrite Hz. reflexivity.
Qed.


(** The call on the database object in [deleteCachedResult] never succeeds:
    the store is the same after a sweep. *)
Lemma deleteCachedResult_keeps_store (w : KasFreeDB.Window) (postUrl : string) :
  deleteCachedResult w postUrl = w.
Proof. unfold deleteCachedResult. by destruct (KasFreeDB.kasFreeDB w). Qed.

Lemma smartCleanup_keeps_store (c : t) (now : Z) :
  window (smartCleanup c now).2 = window c.
Proof.
  rewrite smartCleanup_unfold. destruct (_ <=? 0); [done|]. cbn [snd].
  unfold evict. generalize (take (Z.to_nat (Map.size (accessCount c)
                                            - keepCount (Map.size (accessCount c))))
                              (ranking c now)).
  intros l. revert c. induction l as [|e l IH]; intros c; [done|].
  cbn [fold_left]. rewrite IH. cbn [delete_entry window].
  apply deleteCachedResult_keeps_store.
Qed.

Lemma tracked_posts_wf : Map.wf (accessCount (tracked_posts 12)).
Proof. apply (bool_decide_unpack _). vm_compute. exact I. Defined.



End CacheFacts.

(** ** ErrorRecoveryManager: health status and the retry limit *)

Section ErrorRecoveryFacts.
Import JS ErrorRecoveryManager.
Context {Data : Type}.
Implicit Types (m : t Data) (context : Context Data).

Lemma push_bounded_length {A} (limit : Z) (arr : list A) (x : A) :
  (length arr <= length (push_bounded limit arr x))%nat.
Proof.
  unfold push_bounded; cbv zeta.
  destruct (limit <? _); [|rewrite length_app; lia].
  destruct arr; simpl; [lia|]. rewrite length_app. simpl. lia.
Qed.

Lemma push_bounded_length_eq {A} (limit : Z) (arr : list A) (x : A) :
  0 <= limit ->
  Z.of_nat (length arr) <= limit ->
  Z.of_nat (length (push_bounded limit arr x)) = Z.min (Z.of_nat (length arr) + 1) limit.
Proof.
  intros Hlim Hle. unfold push_bounded; cbv zeta.
  destruct (Z.ltb_spec limit (Z.of_nat (length (arr ++ [x])))) as [Hlt|Hge];
    rewrite length_app in *; simpl in *.
  - destruct arr; simpl in *; [lia|]. rewrite length_app. simpl. lia.
  - lia.
Qed.

Lemma handleError_errorHistory m now error context :
  errorHistory (handleError m now error context).2
  = errorHistory (recordError m now error (classifyError error) context).
Proof.
  unfold handleError. repeat case_match; reflexivity.
Qed.

Lemma handleError_maxHistorySize m now error context :
  maxHistorySize (handleError m now error context).2 = maxHistorySize m.
Proof. unfold handleError. repeat case_match; reflexivity. Qed.




(** *** Health status *)

Lemma slice_last_length {A} (n : nat) (arr : list A) :
  length (slice_last n arr) = Nat.min (length arr) n.
Proof. unfold slice_last. rewrite length_drop. lia. Qed.

Lemma health_status_of_recent (k : nat) :
  (k <= 10)%nat ->
  (if Qltb (8 # 10) (inject_Z (Z.of_nat k) / 10)
   then critical
   else if Qltb (5 # 10) (inject_Z (Z.of_nat k) / 10) then degraded else healthy)
  = health_of_count k.
Proof.
  intros Hk. do 11 (destruct k as [|k]; [reflexivity|]). lia.
Qed.

Lemma health_of_count_min (n : nat) :
  health_of_count (Nat.min n 10) = health_of_count n.
Proof.
  unfold health_of_count.
  destruct (Nat.leb_spec (Nat.min n 10) 5), (Nat.leb_spec n 5),
           (Nat.leb_spec (Nat.min n 10) 8), (Nat.leb_spec n 8); try reflexivity; lia.
Qed.

Lemma getHealthStatus_status m :
  status (getHealthStatus m) = health_of_count (length (errorHistory m)).
Proof.
  unfold getHealthStatus; cbn [status]. rewrite slice_last_length.
  rewrite <- health_of_count_min.
  apply health_status_of_recent. lia.
Qed.

Lemma getHealthStatus_errorRate m :
  (errorRate (getHealthStatus m)
   == inject_Z (Z.min (Z.of_nat (length (errorHistory m))) 10) / 10)%Q.
Proof.
  unfold getHealthStatus; simpl. rewrite slice_last_length.
  by rewrite Nat2Z.inj_min.
Qed.

Lemma run_call_errorHistory_length m (c : Call Data) :
  (length (errorHistory m) <= length (errorHistory (run_call m c)))%nat.
Proof.
  destruct c as [now error context|errorType strategy|key]; simpl.
  - rewrite handleError_errorHistory. apply push_bounded_length.
  - lia.
  - unfold resetErrorCounts. case_match; simpl; lia.
Qed.

Lemma run_calls_errorHistory_length m (cs : list (Call Data)) :
  (length (errorHistory m) <= length (errorHistory (run_calls m cs)))%nat.
Proof.
  revert m. induction cs as [|c cs IH]; intros m; simpl; [lia|].
  etrans; [apply (run_call_errorHistory_length m c)|apply IH].
Qed.

Lemma run_call_maxHistorySize m (c : Call Data) :
  maxHistorySize (run_call m c) = maxHistorySize m.
Proof.
  destruct c as [now error context|errorType strategy|key]; simpl.
  - apply handleError_maxHistorySize.
  - reflexivity.
  - unfold resetErrorCounts. case_match; reflexivity.
Qed.

(** From a new manager the history holds one record per handled error, up to
    its capacity of 100. *)
Lemma run_calls_history_count (m : t Data) (cs : list (Call Data)) :
  maxHistorySize m = 100 ->
  Z.of_nat (length (errorHistory m)) <= 100 ->
  Z.of_nat (length (errorHistory (run_calls m cs)))
  = Z.min (Z.of_nat (length (errorHistory m) + handled_errors cs)) 100.
Proof.
  revert m. induction cs as [|c cs IH]; intros m Hsize Hlen; simpl.
  - unfold handled_errors; simpl. lia.
  - assert (Hstep : Z.of_nat (length (errorHistory (run_call m c)))
             = Z.min (Z.of_nat (length (errorHistory m) + handled_errors [c])) 100).
    { destruct c as [now error context|errorType strategy|key]; unfold handled_errors; simpl.
      - rewrite handleError_errorHistory. unfold recordError; simpl.
        rewrite Hsize, push_bounded_length_eq by lia. lia.
      - lia.
      - unfold resetErrorCounts. case_match; simpl; lia. }
    assert (Hcons : handled_errors (c :: cs) = (handled_errors [c] + handled_errors cs)%nat).
    { unfold handled_errors; simpl. by destruct c. }
    unfold run_calls in *. rewrite IH; [|by rewrite run_call_maxHistorySize|lia].
    rewrite Hcons, !Nat2Z.inj_add, Hstep. lia.
Qed.

(** C10.  The health status is a function of the number of history entries
    alone: healthy up to 5, degraded for 6 to 8, critical from 9 on, the rate
    being [min (entries, 10) / 10].  No call removes history entries, so a
    critical manager stays critical whatever is called afterwards, and a new
    manager is critical exactly from its ninth handled error on. *)
Theorem getHealthStatus_by_history_length (m : t Data) (cs : list (Call Data)) :
  status (getHealthStatus m) = health_of_count (length (errorHistory m)) /\
  (errorRate (getHealthStatus m)
   == inject_Z (Z.min (Z.of_nat (length (errorHistory m))) 10) / 10)%Q /\
  (length (errorHistory m) <= length (errorHistory (run_calls m cs)))%nat /\
  (status (getHealthStatus m) = critical ->
   status (getHealthStatus (run_calls m cs)) = critical) /\
  (forall w opt_maxRetries opt_retryDelay,
     status (getHealthStatus (run_calls (constructor w opt_maxRetries opt_retryDelay) cs))
     = health_of_count (handled_errors cs)).
Proof.
  split; [apply getHealthStatus_status|].
  split; [apply getHealthStatus_errorRate|].
  split; [apply run_calls_errorHistory_length|].
  split.
  - rewrite !getHealthStatus_status.
    pose proof (run_calls_errorHistory_length m cs) as Hmono.
    unfold health_of_count. repeat case_match; try done; 
      repeat match goal with H : (_ <=? _)%nat = _ |- _ => 
        first [apply Nat.leb_le in H | apply Nat.leb_gt in H] end; lia.
  - intros w o1 o2. rewrite getHealthStatus_status.
    pose proof (run_calls_history_count (constructor w o1 o2) cs eq_refl) as H.
    simpl in H. specialize (H ltac:(lia)).
    unfold health_of_count.
    destruct (Nat.leb_spec (length (errorHistory (run_calls (constructor w o1 o2) cs))) 5),
             (Nat.leb_spec (handled_errors cs) 5),
             (Nat.leb_spec (length (errorHistory (run_calls (constructor w o1 o2) cs))) 8),
             (Nat.leb_spec (handled_errors cs) 8); try reflexivity; lia.
Qed.


(** *** The retry limit *)






End ErrorRecoveryFacts.

Section ErrorRecoveryExamples.
Import JS ErrorRecoveryManager.

Example classifyError_examples :
  classifyError network_error = NetworkError /\
  classifyError (new_ApiError (ApiClient.timeout_message 15000) 408 true) = TimeoutError /\
  classifyError (new_Error "HTTP 401: Unauthorized") = ApiKeyError /\
  classifyError (new_Error "Hash Worker failed") = ServiceWorkerError /\
  classifyError unknown_failure = UnknownError.
Proof. by vm_compute. Qed.

Example push_bounded_example : push_bounded 3 [1; 2; 3] 4 = [2; 3; 4].
Proof. reflexivity. Qed.


Lemma handleError_unknown_fails_from_fourth_call :
  action <$> (handle_each new_manager unknown_failure post_context [1; 2; 3; 4; 5]).1
  = [retry; retry; retry; fail; fail].
Proof. vm_compute. reflexivity. Qed.


End ErrorRecoveryExamples.

(** ** The two-stage analysis of the service worker *)

Section ServiceWorkerFacts.
Import JS ServiceWorker.

Lemma Qltb_lt (a b : Q) : Qltb a b = true <-> (a < b)%Q.
Proof.
  unfold Qltb. rewrite negb_true_iff. split.
  - intros H. apply Qnot_le_lt. intros Hle. apply Qle_bool_iff in Hle. congruence.
  - intros H. apply not_true_is_false. intros Hle. apply Qle_bool_iff in Hle.
    by apply Qlt_not_le in H.
Qed.

Example determineStatus_examples :
  determineStatus default_thresholds (15 # 100) = safe /\
  determineStatus default_thresholds (3 # 10) = caution /\
  determineStatus default_thresholds (45 # 100) = caution /\
  determineStatus default_thresholds (6 # 10) = danger /\
  determineStatus default_thresholds (8 # 10) = danger.
Proof. by vm_compute. Qed.

Lemma determineStatus_safe (thresholds : Thresholds) (riskScore : Q) :
  determineStatus thresholds riskScore = safe <-> (riskScore < safeMax thresholds)%Q.
Proof.
  unfold determineStatus. rewrite <- Qltb_lt.
  destruct (Qltb riskScore (safeMax thresholds)); [done|].
  destruct (Qltb riskScore (cautionMax thresholds)); split; discriminate.
Qed.

Lemma buildFinalResult_riskScore (primary secondary : option AnalysisResult)
    (status : Status) (now : Z) (main : AnalysisResult) :
  match secondary with Some s => Some s | None => primary end = Some main ->
  (final_riskScore (buildFinalResult primary secondary status now) == riskScore main)%Q.
Proof.
  intros Hmain. unfold buildFinalResult; simpl. rewrite Hmain.
  destruct (Qeq_bool (riskScore main) 0) eqn:Hz; [|reflexivity].
  apply Qeq_bool_iff in Hz. by rewrite Hz.
Qed.

Section request.
Variable env : Collaborators.
Variable thresholds : Thresholds.
Variable now : Z.
Variable imageUrl : string.

(** The log of a stage run after earlier calls is the earlier log followed by
    the stage's own calls. *)
Lemma analyzeImageWithHash_log (log : list Call) :
  analyzeImageWithHash env imageUrl log
  = ((run (analyzeImageWithHash env imageUrl)).1,
     log ++ (run (analyzeImageWithHash env imageUrl)).2).
Proof.
  unfold run, analyzeImageWithHash, bind, await, ret; simpl.
  destruct (getHashResult env imageUrl); simpl; [done|].
  destruct (getOrCreateReporterId env); simpl; [|by rewrite <- !app_assoc].
  destruct (generateHashesAsync env imageUrl); simpl; [|by rewrite <- !app_assoc].
  destruct (hashChecker_check env _ _); simpl; by rewrite <- !app_assoc.
Qed.

Lemma analyzeImage_hash_throws (e : Error) (log1 : list Call) :
  run (analyzeImageWithHash env imageUrl) = (Throw e, log1) ->
  run (analyzeImage env thresholds now imageUrl)
  = (Return (buildFinalResult (Some safeFallbackResult) None safe now), log1).
Proof.
  unfold run. intros H. unfold analyzeImage, bind, try_catch, ret. by rewrite H.
Qed.

Lemma analyzeImage_hash_safe (primary : AnalysisResult) (log1 : list Call) :
  run (analyzeImageWithHash env imageUrl) = (Return primary, log1) ->
  (riskScore primary < safeMax thresholds)%Q ->
  run (analyzeImage env thresholds now imageUrl)
  = (Return (buildFinalResult (Some primary) None safe now), log1).
Proof.
  unfold run. intros H Hsafe. apply determineStatus_safe in Hsafe.
  unfold analyzeImage, bind, try_catch, ret. rewrite H, Hsafe. done.
Qed.

(** The escalation: what the second stage's calls give decides the result. *)
Lemma analyzeImage_escalates (primary : AnalysisResult) (log1 : list Call) :
  run (analyzeImageWithHash env imageUrl) = (Return primary, log1) ->
  ~ (riskScore primary < safeMax thresholds)%Q ->
  run (analyzeImage env thresholds now imageUrl)
  = match secondStage env imageUrl log1 with
    | (Return secondary, log2) =>
        (Return (buildFinalResult (Some primary) (Some secondary)
                   (determineStatus thresholds (riskScore secondary)) now), log2)
    | (Throw _, log2) =>
        (Return (buildFinalResult (Some primary) None
                   (determineStatus thresholds (riskScore primary)) now), log2)
    end.
Proof.
  unfold run. intros H Hnot. rewrite <- determineStatus_safe in Hnot.
  unfold analyzeImage, bind, try_catch, ret. rewrite H.
  destruct (determineStatus thresholds (riskScore primary)) eqn:Hst; [done| |];
    destruct (secondStage env imageUrl log1) as [[secondary|e] log2]; done.
Qed.

Lemma analyzeImageWithHash_no_deep_call :
  deep_analysis_called (run (analyzeImageWithHash env imageUrl)).2 = false.
Proof.
  unfold run, analyzeImageWithHash, bind, await, ret; simpl.
  destruct (getHashResult env imageUrl); simpl; [done|].
  destruct (getOrCreateReporterId env); simpl; [|done].
  destruct (generateHashesAsync env imageUrl); simpl; [|done].
  destruct (hashChecker_check env _ _); done.
Qed.


(** C2.  When the hash stage throws, the request resolves to a result with
    status 'safe', risk score 0 and a zero score for each of the ten
    categories; the deep-analysis backend is not called and nothing is
    thrown. *)
Theorem analyzeImage_hash_failure_is_safe (e : Error) (log1 : list Call) :
  run (analyzeImageWithHash env imageUrl) = (Throw e, log1) ->
  exists final,
    run (analyzeImage env thresholds now imageUrl) = (Return final, log1) /\
    final_status final = safe /\
    (final_riskScore final == 0)%Q /\
    map fst (final_categories final)
    = ["gore"; "violence"; "death"; "disturbing"; "insects"; "medical"; "shock";
       "animal_cruelty"; "nsfw_porn"; "nsfw_sexy"] /\
    (forall category score, (category, score) ∈ final_categories final -> score = 0%Q) /\
    final_secondary final = None /\
    deep_analysis_called log1 = false.
Proof.
  intros Hthrow. eexists. split; [by apply analyzeImage_hash_throws with (e := e)|].
  split; [done|]. split; [done|]. split; [done|]. split; [|split; [done|]].
  - intros category score Hin. simpl in Hin. unfold zero_scores in Hin.
    repeat (apply elem_of_cons in Hin as [Heq|Hin]; [by inversion Heq|]).
    by apply elem_of_nil in Hin.
  - pose proof analyzeImageWithHash_no_deep_call as H. by rewrite Hthrow in H.
Qed.


End request.


Lemma analyzeImage_hash_failure_is_safe_witness :
  exists final,
    run (analyzeImage env_hash_down default_thresholds 0 example_image)
    = (Return final,
       [CallGetHashResult example_image;
        CallGetOrCreateReporterId;
        CallGenerateHashes example_image;
        CallHashCheck "f0e1d2c3" "nerd-0001"]) /\
    final_status final = safe /\ (final_riskScore final == 0)%Q.
Proof.
  destruct (analyzeImage_hash_failure_is_safe env_hash_down default_thresholds 0
              example_image
              (new_Error "서버 응답 오류: 503")
              [CallGetHashResult example_image;
               CallGetOrCreateReporterId;
               CallGenerateHashes example_image;
               CallHashCheck "f0e1d2c3" "nerd-0001"])
    as (final & Hrun & Hstatus & Hscore & _).
  - reflexivity.
  - exists final. split; [exact Hrun|]. split; [exact Hstatus|exact Hscore].
Defined.

Example analyzeImage_safe_short_circuit :
  let out := run (analyzeImage env_hash_safe default_thresholds 0 example_image) in
  final_status <$> (match out.1 with Return f => Some f | Throw _ => None end) = Some safe /\
  out.2 = [CallGetHashResult example_image;
           CallGetOrCreateReporterId;
           CallGenerateHashes example_image;
           CallHashCheck "f0e1d2c3" "nerd-0001";
           CallSetHashResult example_image] /\
  deep_analysis_called out.2 = false.
Proof. by vm_compute. Qed.


End ServiceWorkerFacts.

(** ** The bounded history buffers *)

Section BufferFacts.
Import JS ErrorRecoveryManager.

(** Pushing onto the last [limit] elements of a list gives the last [limit]
    elements of the extended list. *)
Lemma slice_last_snoc {A} (limit : Z) (xs : list A) (x : A) :
  push_bounded limit (slice_last (Z.to_nat limit) xs) x
  = slice_last (Z.to_nat limit) (xs ++ [x]).
Proof.
  unfold push_bounded, slice_last. cbv zeta.
  rewrite !length_app, length_drop. simpl.
  assert (Hnat : (0 <= limit /\ Z.of_nat (Z.to_nat limit) = limit) \/
                 (limit < 0 /\ Z.to_nat limit = 0%nat)) by lia.
  generalize dependent (Z.to_nat limit). intros n Hnat.
  destruct (Z.ltb_spec limit (Z.of_nat (length xs - (length xs - n) + 1)))
    as [Hlt|Hge].
  - assert (Hn : (n <= length xs)%nat) by lia.
    destruct (decide (n = 0%nat)) as [->|Hpos].
    + rewrite Nat.sub_0_r, drop_all. simpl.
      rewrite drop_ge; [done|]. rewrite length_app. simpl. lia.
    + replace (length xs + 1 - n)%nat with (S (length xs - n)) by lia.
      rewrite (drop_app_le xs [x]) by lia.
      destruct (drop (length xs - n) xs) as [|y ys] eqn:Hd.
      * assert (Hl : length (drop (length xs - n) xs) = 0%nat) by by rewrite Hd.
        rewrite length_drop in Hl. lia.
      * simpl. f_equal. change ys with (drop 1 (y :: ys)). rewrite <- Hd, drop_drop.
        f_equal. lia.
  - replace (length xs - n)%nat with 0%nat by lia.
    replace (length xs + 1 - n)%nat with 0%nat by lia.
    done.
Qed.

End BufferFacts.

(** ** The [Map] representation *)

Section MapFacts.
Import JS.

Lemma Map_set_keys {V} (m : list (string * V)) (k : string) (v : V) :
  k ∈ m.*1 -> (Map.set m k v).*1 = m.*1.
Proof.
  induction m as [|[k' v'] m IH]; intros Hin.
  - by apply elem_of_nil in Hin.
  - simpl. destruct (String.eqb_spec k' k) as [->|Hne]; [done|].
    rewrite !fmap_cons. f_equal. apply IH.
    rewrite fmap_cons in Hin. by apply elem_of_cons in Hin as [->|Hin].
Qed.

Lemma Map_set_keys_absent {V} (m : list (string * V)) (k : string) (v : V) :
  k ∉ m.*1 -> Map.set m k v = m ++ [(k, v)].
Proof.
  induction m as [|[k' v'] m IH]; intros Hin; [done|].
  rewrite fmap_cons in Hin. apply not_elem_of_cons in Hin as [Hne Hin]. simpl.
  destruct (String.eqb_spec k' k) as [->|_]; [done|]. by rewrite IH.
Qed.

Lemma Map_set_elem {V} (m : list (string * V)) (k : string) (v : V) (e : string * V) :
  e ∈ Map.set m k v -> e = (k, v) \/ e ∈ m.
Proof.
  induction m as [|[k' v'] m IH]; simpl.
  - intros ->%list_elem_of_singleton. by left.
  - destruct (String.eqb_spec k' k) as [->|Hne].
    + intros [->|Hin]%elem_of_cons; [by left|]. right. by right.
    + intros [->|Hin]%elem_of_cons; [right; by left|].
      destruct (IH Hin) as [->|Hin']; [by left|]. right. by right.
Qed.

Lemma Map_has_keys {V} (m : list (string * V)) (k : string) :
  Map.has m k = true <-> k ∈ m.*1.
Proof.
  unfold Map.has. rewrite existsb_exists, list_elem_of_fmap. split.
  - intros [e [Hin Heq%String.eqb_eq]]. exists e. split; [done|].
    by apply list_elem_of_In.
  - intros [e [-> Hin]]. exists e. split; [by apply list_elem_of_In|]. apply String.eqb_refl.
Qed.

Lemma Map_set_wf {V} (m : list (string * V)) (k : string) (v : V) :
  Map.wf m ->
  Map.wf (Map.set m k v) /\
  forall k', k' ∈ Map.keys (Map.set m k v) <-> k' = k \/ k' ∈ Map.keys m.
Proof.
  unfold Map.wf, Map.keys. intros Hwf.
  destruct (decide (k ∈ m.*1)) as [Hin|Hnin].
  - rewrite Map_set_keys by done. split; [done|].
    intros k'. split; [by right|]. by intros [->|?].
  - rewrite Map_set_keys_absent by done. rewrite fmap_app. simpl. split.
    + apply NoDup_app. split; [done|]. split; [|apply NoDup_singleton].
      intros x Hx ->%list_elem_of_singleton. done.
    + intros k'. rewrite elem_of_app, list_elem_of_singleton. tauto.
Qed.

Lemma Map_get_set {V} (m : list (string * V)) (k : string) (v : V) :
  Map.get (Map.set m k v) k = Some v.
Proof.
  unfold Map.get. induction m as [|[k' v'] m IH]; simpl.
  - by rewrite String.eqb_refl.
  - destruct (String.eqb_spec k' k) as [->|Hne]; simpl.
    + by rewrite String.eqb_refl.
    + destruct (String.eqb_spec k' k) as [?|_]; [done|]. exact IH.
Qed.

End MapFacts.

(** ** AdaptiveTimeoutManager: what the history holds and what the rule guarantees *)

Section AdaptiveTimeoutHistory.
Import JS AdaptiveTimeoutManager.

Lemma recordResponseTime_history (m : t) (e e' : string) (time : R) :
  history (recordResponseTime m e time) !! e'
  = if decide (e' = e)
    then Some (push_bounded (historySize m) (default [] (history m !! e)) time)
    else history m !! e'.
Proof.
  unfold recordResponseTime. simpl.
  destruct (decide (e' = e)) as [->|Hne].
  - by rewrite lookup_insert_eq.
  - by rewrite lookup_insert_ne.
Qed.

Lemma record_all_historySize (m : t) (recs : list (string * R)) :
  historySize (record_all m recs) = historySize m.
Proof.
  revert m. induction recs as [|r recs IH]; intros m; [done|].
  unfold record_all in *. simpl. by rewrite IH.
Qed.

Lemma record_all_defaultTimeout (m : t) (recs : list (string * R)) :
  defaultTimeout (record_all m recs) = defaultTimeout m.
Proof.
  revert m. induction recs as [|r recs IH]; intros m; [done|].
  unfold record_all in *. simpl. by rewrite IH.
Qed.

Lemma record_all_snoc (m : t) (recs : list (string * R)) (r : string * R) :
  record_all m (recs ++ [r]) = recordResponseTime (record_all m recs) r.1 r.2.
Proof. unfold record_all. by rewrite fold_left_app. Qed.

Lemma samples_of_snoc (e : string) (recs : list (string * R)) (r : string * R) :
  samples_of e (recs ++ [r])
  = samples_of e recs ++ (if decide (r.1 = e) then [r.2] else []).
Proof.
  unfold samples_of. rewrite filter_app, fmap_app. f_equal.
  rewrite filter_cons, filter_nil. by destruct (decide (r.1 = e)).
Qed.

Lemma record_all_history (m : t) (recs : list (string * R)) (e : string) :
  history m = ∅ ->
  history (record_all m recs) !! e
  = match samples_of e recs with
    | [] => None
    | _ => Some (ErrorRecoveryManager.slice_last (Z.to_nat (historySize m)) (samples_of e recs))
    end.
Proof.
  intros Hempty. induction recs as [|r recs IH] using rev_ind.
  - simpl. by rewrite Hempty.
  - rewrite record_all_snoc, recordResponseTime_history, record_all_historySize.
    rewrite samples_of_snoc.
    destruct (decide (e = r.1)) as [->|Hne].
    + rewrite decide_True by done. rewrite IH.
      destruct (samples_of r.1 recs) as [|t ts] eqn:Hs.
      * simpl. f_equal. apply (slice_last_snoc (historySize m) []).
      * cbv beta iota. cbn [default]. unfold Datatypes.id. rewrite slice_last_snoc.
        reflexivity.
    + rewrite decide_False by done. by rewrite app_nil_r.
Qed.

(** X1.  Whatever response times a new manager is given to record, and in
    whatever order the endpoints take turns, the history of an endpoint holds
    the most recent [historySize] response times recorded for that endpoint,
    oldest first; an endpoint nothing was recorded for has no history. *)
Theorem recordResponseTime_keeps_latest (options : Options) (recs : list (string * R))
    (endpoint : string) :
  let m := record_all (constructor options) recs in
  history m !! endpoint
  = match samples_of endpoint recs with
    | [] => None
    | samples => Some (ErrorRecoveryManager.slice_last (Z.to_nat (historySize m)) samples)
    end.
Proof.
  intros m. subst m. rewrite record_all_historySize.
  rewrite record_all_history by done.
  by destruct (samples_of endpoint recs).
Qed.

(** X2.  A new manager answers the default timeout for an endpoint until five
    response times have been recorded for it; a manager configured with a
    [historySize] below five never holds five and answers the default
    forever. *)
Theorem getTimeout_before_learning (options : Options) (recs : list (string * R))
    (endpoint : string) :
  (length (samples_of endpoint recs) < 5)%nat \/ historySize (constructor options) < 5 ->
  getTimeout (record_all (constructor options) recs) endpoint
  = or_default (opt_defaultTimeout options) 15000.
Proof.
  intros Hfew. unfold getTimeout.
  rewrite calculateTimeout_few_samples.
  - by rewrite record_all_defaultTimeout.
  - intros L. rewrite record_all_history by done.
    destruct (samples_of endpoint recs) as [|t ts] eqn:Hs; [done|].
    intros [= <-]. rewrite slice_last_length.
    cbn [historySize constructor] in *. lia.
Qed.

(** Four fast responses of one endpoint, interleaved with another's. *)
Lemma getTimeout_before_learning_witness :
  getTimeout
    (record_all (constructor no_options)
       [("api.openai.com", 120%R); ("api.anthropic.com", 300%R);
        ("api.openai.com", 110%R); ("api.openai.com", 130%R);
        ("api.openai.com", 125%R)])
    "api.openai.com"
  = 15000.
Proof.
  apply (getTimeout_before_learning no_options
           [("api.openai.com", 120%R); ("api.anthropic.com", 300%R);
            ("api.openai.com", 110%R); ("api.openai.com", 130%R);
            ("api.openai.com", 125%R)] "api.openai.com").
  left. unfold samples_of. rewrite length_fmap.
  repeat (rewrite filter_cons; destruct (decide _); [|try done]); try done. simpl. lia.
Defined.

End AdaptiveTimeoutHistory.

Section AdaptiveTimeoutGuarantee.
Import JS AdaptiveTimeoutManager.
Local Open Scope R_scope.


Lemma sum_nonneg (L : list R) : Forall (fun x => 0 <= x) L -> 0 <= TimeoutSpec.sum L.
Proof. induction 1; simpl; lra. Qed.

Lemma variance_of_sum (L : list R) :
  variance_of L
  = TimeoutSpec.sum (map (fun x => Rsqr (x - mean_of L)) L) / INR (length L).
Proof. unfold variance_of. cbv zeta. rewrite fold_left_squares. f_equal. lra. Qed.

Lemma squares_nonneg (mu : R) (L : list R) :
  Forall (fun x => 0 <= x) (map (fun x => Rsqr (x - mu)) L).
Proof. induction L as [|x L IH]; simpl; constructor; [apply Rle_0_sqr|done]. Qed.

Lemma variance_of_nonneg (L : list R) : 0 <= variance_of L.
Proof.
  rewrite variance_of_sum.
  pose proof (sum_nonneg _ (squares_nonneg (mean_of L) L)) as Hs.
  destruct L as [|x L].
  - simpl. unfold Rdiv. rewrite Rinv_0. lra.
  - apply Rmult_le_pos; [done|]. apply Rlt_le, Rinv_0_lt_compat, lt_0_INR. simpl. lia.
Qed.








Lemma sum_sublist (S L : list R) :
  Forall (fun x => 0 <= x) L -> sublist S L -> TimeoutSpec.sum S <= TimeoutSpec.sum L.
Proof.
  intros Hpos Hsub. induction Hsub as [|x S L Hsub IH|x S L Hsub IH]; simpl.
  - lra.
  - apply Forall_cons in Hpos as [_ Hpos]. specialize (IH Hpos). lra.
  - apply Forall_cons in Hpos as [Hx Hpos]. specialize (IH Hpos). lra.
Qed.

Lemma sublist_map {A B} (f : A -> B) (S L : list A) :
  sublist S L -> sublist (map f S) (map f L).
Proof.
  induction 1; simpl; [apply sublist_nil|by apply sublist_skip|by apply sublist_cons].
Qed.

Lemma sum_lower (S : list R) (b : R) :
  Forall (fun x => b <= x) S -> INR (length S) * b <= TimeoutSpec.sum S.
Proof.
  induction 1 as [|x S Hx _ IH]; [simpl; lra|].
  change (length (x :: S)) with (Datatypes.S (length S)). rewrite S_INR. simpl. lra.
Qed.

(** Chebyshev's inequality for the recorded response times: at most a
    quarter of them lie more than two standard deviations above the mean. *)
Lemma chebyshev_two_sigma (L S : list R) :
  L <> [] ->
  sublist S L ->
  Forall (fun x => mean_of L + 2 * stdDev_of L < x) S ->
  (4 * length S <= length L)%nat.
Proof.
  intros Hne Hsub Hfar.
  set (mu := mean_of L). set (var := variance_of L).
  assert (Hvar : 0 <= var) by apply variance_of_nonneg.
  assert (Hn : 0 < INR (length L)).
  { apply lt_0_INR. destruct L; [done|simpl; lia]. }
  assert (Hsq : sqrt var * sqrt var = var) by (by apply sqrt_sqrt).
  assert (Htotal : TimeoutSpec.sum (map (fun x => Rsqr (x - mu)) L) = INR (length L) * var).
  { subst var. rewrite variance_of_sum. fold mu. field. lra. }
  assert (Hpart : TimeoutSpec.sum (map (fun x => Rsqr (x - mu)) S)
                  <= TimeoutSpec.sum (map (fun x => Rsqr (x - mu)) L)).
  { apply sum_sublist; [apply squares_nonneg|]. by apply sublist_map. }
  assert (Hs := sqrt_pos var).
  assert (Helem : Forall (fun y => 4 * var <= y) (map (fun x => Rsqr (x - mu)) S)).
  { unfold stdDev_of in Hfar. fold var mu in Hfar.
    clear -Hfar Hs Hsq Hvar. induction Hfar as [|x S Hx _ IH]; simpl; constructor; [|done].
    unfold Rsqr. nra. }
  apply sum_lower in Helem. rewrite length_map in Helem.
  destruct (Rle_lt_or_eq_dec 0 var Hvar) as [Hpos|Hzero].
  - apply INR_le. rewrite mult_INR. simpl (INR 4).
    assert (INR (length S) * 4 * var <= INR (length L) * var) by lra.
    apply Rmult_le_reg_r with var; [done|]. lra.
  - destruct S as [|x S]; [simpl; lia|]. exfalso.
    apply Forall_cons in Hfar as [Hx _].
    assert (Hx2 : 0 < Rsqr (x - mu)).
    { unfold stdDev_of in Hx. fold var mu in Hx. rewrite <- Hzero, sqrt_0 in Hx.
      apply Rlt_0_sqr. lra. }
    assert (Hrest : 0 <= TimeoutSpec.sum (map (fun x => Rsqr (x - mu)) S)).
    { apply sum_nonneg, squares_nonneg. }
    simpl in Hpart. rewrite Htotal, <- Hzero in Hpart. lra.
Qed.

(** X4.  As long as mean + 2 sigma stays below the upper bound, at most a
    quarter of the recorded response times would have run into the timeout
    computed from them: any selection of recorded times that all exceed the
    timeout by half a millisecond or more has at most a quarter of the
    history's length. *)
Theorem calculateTimeout_covers_three_quarters (m : t) (endpoint : string) (L S : list R) :
  history m !! endpoint = Some L -> (5 <= length L)%nat ->
  mean_of L + 2 * stdDev_of L <= IZR (maxTimeout m) ->
  sublist S L ->
  Forall (fun x => IZR (calculateTimeout m endpoint) + 1 / 2 <= x) S ->
  (4 * length S <= length L)%nat.
Proof.
  intros Hh Hlen Hmax Hsub Hslow.
  apply chebyshev_two_sigma; [intros ->; simpl in Hlen; lia|done|].
  eapply Forall_impl; [exact Hslow|]. simpl. intros x Hx.
  rewrite (calculateTimeout_enough_samples m endpoint L Hh Hlen) in Hx.
  pose proof (Math_round_bounds
                (Math_max (IZR (minTimeout m))
                   (Math_min (mean_of L + 2 * stdDev_of L) (IZR (maxTimeout m))))) as [_ Hr].
  assert (mean_of L + 2 * stdDev_of L
          <= Math_max (IZR (minTimeout m))
               (Math_min (mean_of L + 2 * stdDev_of L) (IZR (maxTimeout m)))).
  { unfold Math_max, Math_min. rewrite Rmin_left by done. apply Rmax_r. }
  lra.
Qed.

Lemma spiky_history :
  history spiky_manager !! "api.openai.com" = Some spiky_latencies.
Proof. unfold spiky_manager, set_history; simpl. apply lookup_singleton_eq. Qed.

Lemma spiky_mean : mean_of spiky_latencies = 2000.
Proof. unfold mean_of, spiky_latencies; simpl. lra. Qed.

Lemma spiky_stdDev : stdDev_of spiky_latencies = 3000.
Proof.
  unfold stdDev_of, variance_of. rewrite spiky_mean.
  unfold spiky_latencies; simpl.
  replace (_ / _) with (3000 * 3000) by lra.
  apply sqrt_square. lra.
Qed.

Lemma spiky_timeout : calculateTimeout spiky_manager "api.openai.com" = 8000%Z.
Proof.
  rewrite (calculateTimeout_enough_samples _ _ _ spiky_history) by (simpl; lia).
  rewrite spiky_mean, spiky_stdDev. apply Math_round_eq. simpl.
  unfold Math_max, Math_min, Rmax, Rmin.
  repeat (destruct (Rle_dec _ _)); lra.
Qed.

(** Nine responses after one second and one after eleven: the timeout is
    8000 ms and the one slow response is a tenth of the history. *)
Lemma calculateTimeout_covers_three_quarters_witness :
  (4 * length [11000%R] <= length spiky_latencies)%nat.
Proof.
  apply (calculateTimeout_covers_three_quarters spiky_manager "api.openai.com"
           spiky_latencies [11000]).
  - apply spiky_history.
  - simpl. lia.
  - rewrite spiky_mean, spiky_stdDev. simpl. lra.
  - unfold spiky_latencies. apply sublist_inserts_l. reflexivity.
  - rewrite spiky_timeout. constructor; [lra|constructor].
Defined.

End AdaptiveTimeoutGuarantee.

(** ** ApiClient: how many attempts, what is thrown, what is recorded *)

Section RetryFacts.
Import JS ApiClient.

Lemma fetchWithTimeout_baseDelay (c : t) (endpoint : string) (o : FetchOutcome) :
  baseDelay (fetchWithTimeout c endpoint o).2 = baseDelay c.
Proof.
  destruct o as [r time|rejection]; simpl.
  - destruct (timeoutManager c); [destruct (ok r)|]; reflexivity.
  - destruct (String.eqb (name rejection) "AbortError"); reflexivity.
Qed.

Lemma calculateDelay_baseDelay (c c' : t) (attempt : nat) (r : Q) :
  baseDelay c' = baseDelay c -> calculateDelay c' attempt r = calculateDelay c attempt r.
Proof. unfold calculateDelay. by intros ->. Qed.

Lemma fetchWithTimeout_rejected (c : t) (endpoint : string) (rejection : Error) :
  fetchWithTimeout c endpoint (Rejected rejection)
  = (Throw (thrown_error c endpoint rejection), c).
Proof.
  unfold fetchWithTimeout, thrown_error, dynamicTimeout.
  destruct (String.eqb (name rejection) "AbortError"); [|done].
  by destruct (timeoutManager c).
Qed.

(** A response with a 2xx status is never retried. *)
Lemma ok_not_retryable (r : Response) : ok r = true -> isRetryableStatus (status r) = false.
Proof.
  unfold ok, isRetryableStatus. intros [H1%Z.leb_le H2%Z.leb_le]%andb_true_iff.
  apply not_true_is_false. rewrite !orb_true_iff. lia.
Qed.

Lemma set_timeoutManager_id (c : t) : set_timeoutManager c (timeoutManager c) = c.
Proof. by destruct c. Qed.

Lemma fetchWithTimeout_state (c : t) (endpoint : string) (o : FetchOutcome) :
  (fetchWithTimeout c endpoint o).2
  = match o with
    | Resolved r time => if ok r then record_latency c endpoint time else c
    | Rejected _ => c
    end.
Proof.
  destruct o as [r time|rejection]; simpl.
  - unfold record_latency. destruct (timeoutManager c) eqn:Htm; simpl.
    + by destruct (ok r).
    + rewrite <- Htm, set_timeoutManager_id. by destruct (ok r).
  - by destruct (String.eqb (name rejection) "AbortError").
Qed.

Lemma total_delay_app (tr1 tr2 : list Event) :
  (total_delay (tr1 ++ tr2) == total_delay tr1 + total_delay tr2)%Q.
Proof.
  induction tr1 as [|[k|ms] tr1 IH]; simpl.
  - lra.
  - exact IH.
  - rewrite IH. lra.
Qed.

Lemma calculateDelay_le_cap (c : t) (attempt : nat) (r : Q) :
  (calculateDelay c attempt r <= 10000)%Q.
Proof. unfold calculateDelay. apply Q.le_min_r. Qed.

Section attempts.
Variable endpoint : string.
Variable net : nat -> FetchOutcome.
Variable random : nat -> Q.

Lemma retry_loop_shape (remaining attempt : nat) (c c0 : t) (lastError : option Error) :
  (1 <= remaining)%nat ->
  Z.of_nat (remaining + attempt) = maxRetries c + 1 ->
  baseDelay c = baseDelay c0 ->
  exists n, (n < remaining)%nat /\
    (retry_loop endpoint net random remaining attempt c lastError []).2
    = backoff_steps c0 random attempt n ++ [EvFetch (attempt + n)].
Proof.
  revert attempt c lastError.
  induction remaining as [|remaining IH]; intros attempt c lastError Hpos Hinv Hbase; [lia|].
  assert (Hstop : exists n, (n < S remaining)%nat /\
            [EvFetch attempt] = backoff_steps c0 random attempt n ++ [EvFetch (attempt + n)]).
  { exists 0%nat. split; [lia|]. simpl. by rewrite Nat.add_0_r. }
  pose proof (fetchWithTimeout_maxRetries c endpoint (net attempt)) as Hmax.
  pose proof (fetchWithTimeout_baseDelay c endpoint (net attempt)) as Hb1.
  assert (Hnext : forall le,
    Z.of_nat attempt < maxRetries c ->
    exists n, (n < S remaining)%nat /\
      (retry_loop endpoint net random remaining (S attempt)
         (fetchWithTimeout c endpoint (net attempt)).2 le
         ([] ++ [EvFetch attempt; EvDelay (calculateDelay c attempt (random attempt))])).2
      = backoff_steps c0 random attempt n ++ [EvFetch (attempt + n)]).
  { intros le Hlt. rewrite retry_loop_trace.
    destruct (IH (S attempt) (fetchWithTimeout c endpoint (net attempt)).2 le)
      as (n & Hn & Heq); [lia|lia|congruence|].
    destruct (retry_loop endpoint net random remaining (S attempt) _ le []) as [[res c'] tr].
    simpl in *. exists (S n). split; [lia|]. rewrite Heq. unfold backoff_steps. simpl.
    rewrite (calculateDelay_baseDelay c0 c) by done.
    by rewrite Nat.add_succ_r. }
  simpl.
  destruct (fetchWithTimeout c endpoint (net attempt)) as [[response|error] c1]; simpl in Hnext.
  - destruct (isRetryableStatus (status response) && (Z.of_nat attempt <? maxRetries c)) eqn:Hr.
    + apply andb_true_iff in Hr as [_ Hlt%Z.ltb_lt]. by apply Hnext.
    + exact Hstop.
  - destruct (is_retryable_ApiError error && (Z.of_nat attempt <? maxRetries c)) eqn:Hr1.
    { apply andb_true_iff in Hr1 as [_ Hlt%Z.ltb_lt]. by apply Hnext. }
    destruct (String.eqb (name error) "TypeError" && (Z.of_nat attempt <? maxRetries c)) eqn:Hr2.
    { apply andb_true_iff in Hr2 as [_ Hlt%Z.ltb_lt]. by apply Hnext. }
    exact Hstop.
Qed.

Lemma count_fetches_steps (c : t) (a n : nat) :
  count_fetches (backoff_steps c random a n) = n.
Proof.
  revert a. induction n as [|n IH]; intros a; [done|].
  unfold backoff_steps in *. simpl. unfold count_fetches in *. simpl. by rewrite IH.
Qed.

Lemma total_delay_steps (c : t) (a n : nat) :
  (total_delay (backoff_steps c random a n) <= 10000 * inject_Z (Z.of_nat n))%Q.
Proof.
  revert a. induction n as [|n IH]; intros a.
  - by compute.
  - unfold backoff_steps in *. cbn [seq flat_map app total_delay fold_right].
    specialize (IH (S a)).
    fold (total_delay (flat_map (fun k => [EvFetch k; EvDelay (calculateDelay c k (random k))])
                         (seq (S a) n))).
    pose proof (calculateDelay_le_cap c a (random a)).
    rewrite Nat2Z.inj_succ. unfold Z.succ. rewrite inject_Z_plus.
    change (inject_Z 1) with 1%Q.
    generalize dependent (total_delay
      (flat_map (fun k => [EvFetch k; EvDelay (calculateDelay c k (random k))]) (seq (S a) n))).
    generalize dependent (calculateDelay c a (random a)).
    generalize (inject_Z (Z.of_nat n)). intros. lra.
Qed.

Lemma retry_loop_all_rejected (remaining attempt : nat) (c : t) (lastError : option Error) :
  (1 <= remaining)%nat ->
  Z.of_nat (remaining + attempt) = maxRetries c + 1 ->
  (forall k, (attempt <= k)%nat -> Z.of_nat k <= maxRetries c ->
     exists rejection, net k = Rejected rejection /\
       (name rejection = "AbortError" \/ name rejection = "TypeError")) ->
  exists rejection,
    net (Z.to_nat (maxRetries c)) = Rejected rejection /\
    retry_loop endpoint net random remaining attempt c lastError []
    = (Throw (thrown_error c endpoint rejection), c,
       backoff_steps c random attempt (remaining - 1) ++ [EvFetch (Z.to_nat (maxRetries c))]).
Proof.
  revert attempt lastError.
  induction remaining as [|remaining IH]; intros attempt lastError Hpos Hinv Hall; [lia|].
  destruct (Hall attempt) as (rejection & Hnet & Hname); [lia|lia|].
  cbn [retry_loop]. rewrite Hnet, fetchWithTimeout_rejected.
  assert (Hretry :
    is_retryable_ApiError (thrown_error c endpoint rejection)
    || String.eqb (name (thrown_error c endpoint rejection)) "TypeError" = true).
  { unfold thrown_error. destruct Hname as [Hn|Hn]; rewrite Hn; simpl; [done|].
    rewrite Hn. apply orb_true_r. }
  destruct (Z.ltb_spec (Z.of_nat attempt) (maxRetries c)) as [Hlt|Hge].
  - destruct (IH (S attempt) (Some (thrown_error c endpoint rejection)))
      as (last_rejection & Hlast & Hrun); [lia|lia|intros k Hk Hle; apply Hall; lia|].
    exists last_rejection. split; [done|].
    assert (Hcont :
      retry_loop endpoint net random remaining (S attempt) c
        (Some (thrown_error c endpoint rejection))
        ([] ++ [EvFetch attempt; EvDelay (calculateDelay c attempt (random attempt))])
      = (Throw (thrown_error c endpoint last_rejection), c,
         backoff_steps c random attempt (S remaining - 1)
         ++ [EvFetch (Z.to_nat (maxRetries c))])).
    { rewrite retry_loop_trace, Hrun.
      replace (S remaining - 1)%nat with (S (remaining - 1)) by lia.
      reflexivity. }
    rewrite !andb_true_r.
    apply orb_true_iff in Hretry as [->|Hty]; [exact Hcont|].
    rewrite Hty. destruct (is_retryable_ApiError _); exact Hcont.
  - rewrite !andb_false_r.
    assert (attempt = Z.to_nat (maxRetries c)) as Hatt by lia.
    assert (remaining = 0%nat) as -> by lia.
    exists rejection. rewrite <- Hatt. by split.
Qed.

(** Only the answer that ends a run can change the client: a response that
    is retried is not a 2xx response, and a rejection records nothing. *)
Lemma retry_loop_records (remaining attempt : nat) (c : t) (lastError : option Error)
    (trace : list Event) :
  let run := retry_loop endpoint net random remaining attempt c lastError trace in
  match run.1.1 with
  | Return r =>
      if ok r
      then exists k time,
             net k = Resolved r time /\ last run.2 = Some (EvFetch k) /\
             run.1.2 = record_latency c endpoint time
      else run.1.2 = c
  | Throw _ => run.1.2 = c
  end.
Proof.
  revert attempt c lastError trace.
  induction remaining as [|remaining IH]; intros attempt c lastError trace; [done|].
  cbv zeta in *. simpl.
  pose proof (fetchWithTimeout_state c endpoint (net attempt)) as Hst.
  destruct (fetchWithTimeout c endpoint (net attempt)) as [[response|error] c1] eqn:Hfetch;
    simpl in Hst.
  - destruct (net attempt) as [r time|rejection] eqn:Hnet.
    2:{ simpl in Hfetch. by destruct (String.eqb (name rejection) "AbortError"). }
    assert (response = r) as -> by (simpl in Hfetch; congruence).
    destruct (isRetryableStatus (status r) && (Z.of_nat attempt <? maxRetries c)) eqn:Hr.
    + apply andb_true_iff in Hr as [Hr _].
      destruct (ok r) eqn:Hok; [by rewrite ok_not_retryable in Hr|].
      subst c1. apply IH.
    + simpl. destruct (ok r); [|done].
      exists attempt, time. by rewrite last_snoc.
  - assert (c1 = c) as ->.
    { destruct (net attempt) as [r time|rejection]; [simpl in Hfetch; congruence|done]. }
    destruct (is_retryable_ApiError error && (Z.of_nat attempt <? maxRetries c)); [apply IH|].
    destruct (String.eqb (name error) "TypeError" && (Z.of_nat attempt <? maxRetries c));
      [apply IH|done].
Qed.

End attempts.

(** X5.  A call of [fetchWithRetry] issues at least one and at most
    [maxRetries + 1] fetches, numbered 0, 1, 2, ... without gaps; between two
    consecutive fetches it waits once, for the delay [calculateDelay] gives
    for the attempt that failed; nothing follows the last fetch.  The waits
    of one call add up to at most [maxRetries] times ten seconds. *)
Theorem fetchWithRetry_bounded_attempts (c : t) (endpoint : string)
    (net : nat -> FetchOutcome) (random : nat -> Q) :
  0 <= maxRetries c ->
  let trace := (fetchWithRetry endpoint net random c).2 in
  (exists n : nat, Z.of_nat n <= maxRetries c /\ trace = backoff_trace c random n) /\
  1 <= Z.of_nat (count_fetches trace) <= maxRetries c + 1 /\
  (total_delay trace <= 10000 * inject_Z (maxRetries c))%Q.
Proof.
  intros Hmax trace. subst trace. unfold fetchWithRetry.
  destruct (retry_loop_shape endpoint net random (Z.to_nat (maxRetries c + 1)) 0 c c None)
    as (n & Hn & Heq); [lia|lia|done|].
  rewrite Heq. simpl (0 + n)%nat.
  split; [exists n; split; [lia|done]|].
  split.
  - rewrite count_fetches_app, count_fetches_steps. unfold count_fetches; simpl. lia.
  - rewrite total_delay_app. simpl.
    pose proof (total_delay_steps random c 0 n) as Hd.
    assert (inject_Z (Z.of_nat n) <= inject_Z (maxRetries c))%Q.
    { rewrite <- Zle_Qle. lia. }
    lra.
Qed.

(** The default client against a network that is down: four fetches. *)
Lemma fetchWithRetry_bounded_attempts_witness :
  let trace := (fetchWithRetry "api.openai.com" always_offline (fun _ => 0%Q)
                  (constructor no_options)).2 in
  1 <= Z.of_nat (count_fetches trace) <= 4 /\ (total_delay trace <= 30000)%Q.
Proof.
  destruct (fetchWithRetry_bounded_attempts (constructor no_options) "api.openai.com"
              always_offline (fun _ => 0%Q)) as (_ & Hcount & Hdelay).
  - simpl. lia.
  - split; [exact Hcount|exact Hdelay].
Defined.

(** X6.  What [fetchWithRetry] throws.  A rejection of the first fetch that
    is neither an abort nor a [TypeError] is thrown at once, after that one
    fetch and without a wait.  When every attempt is rejected by an abort (a
    timeout) or a [TypeError] (no connection), all [maxRetries + 1] attempts
    are made with a backoff wait between them, and the error of the last
    attempt is thrown: the rejection itself, or for an abort the retryable 408
    [ApiError] that names the timeout applied.  The client is left as it
    was. *)
Theorem fetchWithRetry_rejections (c : t) (endpoint : string)
    (net : nat -> FetchOutcome) (random : nat -> Q) :
  0 <= maxRetries c ->
  (forall rejection,
     net 0%nat = Rejected rejection ->
     name rejection <> "AbortError" -> name rejection <> "TypeError" ->
     is_retryable_ApiError rejection = false ->
     fetchWithRetry endpoint net random c = (Throw rejection, c, [EvFetch 0])) /\
  ((forall k : nat, Z.of_nat k <= maxRetries c ->
      exists rejection, net k = Rejected rejection /\
        (name rejection = "AbortError" \/ name rejection = "TypeError")) ->
   exists rejection,
     net (Z.to_nat (maxRetries c)) = Rejected rejection /\
     fetchWithRetry endpoint net random c
     = (Throw (thrown_error c endpoint rejection), c,
        backoff_trace c random (Z.to_nat (maxRetries c)))).
Proof.
  intros Hmax. unfold fetchWithRetry. split.
  - intros rejection Hnet Habort Htype Hapi.
    destruct (Z.to_nat (maxRetries c + 1)) as [|remaining] eqn:Hrem; [lia|].
    cbn [retry_loop]. rewrite Hnet, fetchWithTimeout_rejected.
    unfold thrown_error.
    apply String.eqb_neq in Habort, Htype. by rewrite Habort, Hapi, Htype.
  - intros Hall.
    destruct (retry_loop_all_rejected endpoint net random (Z.to_nat (maxRetries c + 1)) 0 c None)
      as (rejection & Hlast & Hrun); [lia|lia|intros k _ Hle; by apply Hall|].
    exists rejection. split; [done|]. rewrite Hrun. unfold backoff_trace.
    by replace (Z.to_nat (maxRetries c + 1) - 1)%nat with (Z.to_nat (maxRetries c)) by lia.
Qed.

(** The default client against a network that is down: the [TypeError] of
    the fourth fetch is thrown. *)
Lemma fetchWithRetry_rejections_witness :
  exists rejection,
    always_offline 3%nat = Rejected rejection /\
    fetchWithRetry "api.openai.com" always_offline (fun _ => 0%Q) (constructor no_options)
    = (Throw (thrown_error (constructor no_options) "api.openai.com" rejection),
       constructor no_options,
       backoff_trace (constructor no_options) (fun _ => 0%Q) 3).
Proof.
  destruct (fetchWithRetry_rejections (constructor no_options) "api.openai.com"
              always_offline (fun _ => 0%Q)) as [_ Hall].
  - simpl. lia.
  - apply Hall. intros k _. eexists. split; [reflexivity|]. by right.
Defined.

(** X7.  One call of [fetchWithRetry] records at most one response time, and
    only that of a 2xx response it returns: when it throws, or returns a
    response with another status, the client and its timeout statistics are
    as before; when it returns a 2xx response, that response answered the
    last fetch and its response time is the one sample added for the
    endpoint. *)
Theorem fetchWithRetry_records_only_success (c : t) (endpoint : string)
    (net : nat -> FetchOutcome) (random : nat -> Q) :
  let run := fetchWithRetry endpoint net random c in
  (forall e, run.1.1 = Throw e -> run.1.2 = c) /\
  (forall r, run.1.1 = Return r -> ok r = false -> run.1.2 = c) /\
  (forall r, run.1.1 = Return r -> ok r = true ->
     exists (k : nat) (time : R),
       net k = Resolved r time /\ last run.2 = Some (EvFetch k) /\
       run.1.2 = record_latency c endpoint time).
Proof.
  intros run. subst run.
  pose proof (retry_loop_records endpoint net random (Z.to_nat (maxRetries c + 1)) 0 c None [])
    as H.
  unfold fetchWithRetry in *. cbv zeta in H.
  destruct (retry_loop _ _ _ _ _ _ _ _) as [[[r|e] c'] tr]; simpl in *.
  - split; [done|]. split; intros r' [= <-] Hok; rewrite Hok in H; done.
  - split; [done|]. split; intros r' [=].
Qed.

(** X8.  With a [baseDelay] that is not negative, a later attempt never
    waits less than an earlier one would for the same random number. *)
Theorem calculateDelay_monotone (c : t) (i j : nat) (random : Q) :
  0 <= baseDelay c -> (i <= j)%nat ->
  (calculateDelay c i random <= calculateDelay c j random)%Q.
Proof.
  intros Hbase Hij. unfold calculateDelay.
  apply Q.min_le_compat_r.
  assert (inject_Z (2 ^ Z.of_nat i) * inject_Z (baseDelay c)
          <= inject_Z (2 ^ Z.of_nat j) * inject_Z (baseDelay c))%Q; [|lra].
  rewrite <- !inject_Z_mult, <- Zle_Qle.
  apply Z.mul_le_mono_nonneg_r; [done|].
  apply Z.pow_le_mono_r; lia.
Qed.

Lemma calculateDelay_monotone_witness :
  (calculateDelay (constructor no_options) 1 (1 # 2)
   <= calculateDelay (constructor no_options) 2 (1 # 2))%Q.
Proof.
  apply (calculateDelay_monotone (constructor no_options) 1 2 (1 # 2)).
  - simpl. lia.
  - lia.
Defined.

End RetryFacts.

(** ** ErrorRecoveryManager: the history, the counters and the default strategies *)

Section ErrorRecoveryMore.
Import JS ErrorRecoveryManager.
Context {Data : Type}.
Implicit Types (m : t Data) (context : Context Data).

Lemma run_calls_snoc m (cs : list (Call Data)) (c : Call Data) :
  run_calls m (cs ++ [c]) = run_call (run_calls m cs) c.
Proof. unfold run_calls. by rewrite fold_left_app. Qed.

Lemma run_calls_maxHistorySize m (cs : list (Call Data)) :
  maxHistorySize (run_calls m cs) = maxHistorySize m.
Proof.
  induction cs as [|c cs IH] using rev_ind; [done|].
  by rewrite run_calls_snoc, run_call_maxHistorySize.
Qed.

(** X9.  After any sequence of calls on a new manager the error history
    holds the records of the most recent 100 handled errors, oldest first,
    each with the time, the type [classifyError] gave, the message, the post
    URL and whether a cache manager was passed; registering strategies and
    resetting counters leave it alone. *)
Theorem errorHistory_keeps_latest (w : KasFreeDB.Window) (opt_maxRetries opt_retryDelay : option Z)
    (cs : list (Call Data)) :
  errorHistory (run_calls (constructor w opt_maxRetries opt_retryDelay) cs)
  = slice_last 100 (records_of cs).
Proof.
  set (m0 := constructor w opt_maxRetries opt_retryDelay).
  induction cs as [|c cs IH] using rev_ind; [done|].
  rewrite run_calls_snoc. unfold records_of. rewrite omap_app. fold (records_of cs).
  destruct c as [now error context|errorType strategy|key]; simpl.
  - rewrite handleError_errorHistory. simpl.
    rewrite run_calls_maxHistorySize, IH.
    apply (slice_last_snoc 100).
  - by rewrite app_nil_r.
  - rewrite app_nil_r. unfold resetErrorCounts. by destruct (truthy_string key).
Qed.

Lemma type_name_inj (ty1 ty2 : ErrorType) (s1 s2 : string) :
  type_name ty1 +:+ "_" +:+ s1 = type_name ty2 +:+ "_" +:+ s2 -> ty1 = ty2 /\ s1 = s2.
Proof.
  destruct ty1, ty2; simpl; intros H; try discriminate H; by simplify_eq.
Qed.

(** Two counters are the same one exactly when the error types agree and
    the post URLs do, a missing or empty URL counting as ["global"]. *)
Lemma errorKey_of_inj (ty1 ty2 : ErrorType) context1 context2 :
  errorKey_of ty1 context1 = errorKey_of ty2 context2
  <-> ty1 = ty2 /\ context_key context1 = context_key context2.
Proof.
  unfold errorKey_of, context_key. split.
  - apply type_name_inj.
  - by intros [-> ->].
Qed.

(** X10.  Handling an error changes no counter but its own: the count kept
    for an error of another type, or for another post, is what it was. *)
Theorem handleError_counters_independent m now error context error' context' :
  classifyError error <> classifyError error' \/ context_key context <> context_key context' ->
  counter (handleError m now error context).2 error' context' = counter m error' context'.
Proof.
  intros Hne.
  assert (Hkey : errorKey_of (classifyError error) context
                 <> errorKey_of (classifyError error') context').
  { rewrite errorKey_of_inj. tauto. }
  unfold counter, handleError. cbv zeta.
  set (key := errorKey_of (classifyError error) context) in *.
  set (key' := errorKey_of (classifyError error') context') in *.
  simpl.
  destruct (_ <? _); simpl; [by rewrite lookup_insert_ne|].
  destruct (recoveryStrategies m (classifyError error)) as [strategy|]; simpl;
    [|by rewrite lookup_insert_ne].
  destruct (strategy error context) as [result|e]; simpl; [|by rewrite lookup_insert_ne].
  destruct (bool_decide _); simpl.
  - by rewrite lookup_delete_ne, lookup_insert_ne.
  - by rewrite lookup_insert_ne.
Qed.

Lemma classifyError_timeout_message (d : Z) (code : Z) (retryable : bool) :
  classifyError (new_ApiError (ApiClient.timeout_message d) code retryable) = TimeoutError.
Proof.
  unfold classifyError, new_ApiError, ApiClient.timeout_message. cbn [name message].
  generalize (pretty d +:+ "ms). 잠시 후 다시 시도해주세요."). intros rest.
  cbv zeta.
  assert (Hn : String.eqb (toLowerCase "ApiError") "typeerror" = false) by reflexivity.
  rewrite Hn. cbn [andb].
  assert (Hinc : includes (toLowerCase ("요청 시간이 초과되었습니다 (" +:+ rest)) "시간이 초과" = true).
  { unfold includes. simpl. reflexivity. }
  rewrite Hinc. by rewrite orb_true_r.
Qed.

(** X11.  The error [fetchWithTimeout] throws when its timer aborts the
    request is classified as a [TimeoutError], whatever timeout was applied.
    Handled with the default timeout strategy while the retry limit is not
    exceeded, and with a cache manager that holds a result for the post, it
    is answered by a successful [fallback] that carries the cached result,
    and the counter of the pair is reset. *)
Theorem timeout_error_recovery (c : ApiClient.t) (endpoint : string) (rejection : Error) :
  name rejection = "AbortError" ->
  exists e,
    (ApiClient.fetchWithTimeout c endpoint (ApiClient.Rejected rejection)).1 = Throw e /\
    classifyError e = TimeoutError /\
    forall m now context (url : string) (cm : CacheManagerRef Data) (cached : Data),
      recoveryStrategies m TimeoutError = Some timeoutStrategy ->
      counter m e context < maxRetries m ->
      truthy_string (postUrl context) = Some url ->
      cacheManager context = Some cm ->
      cm_getAnalysisResult cm url = Return (Some cached) ->
      let out := handleError m now e context in
      success out.1 = true /\ action out.1 = fallback /\ data out.1 = Some cached /\
      counter out.2 e context = 0.
Proof.
  intros Hname. eexists. split; [|split].
  - unfold ApiClient.fetchWithTimeout. rewrite Hname. reflexivity.
  - apply classifyError_timeout_message.
  - intros m now context url cm cached Hstrat Hcount Hurl Hcm Hget out. subst out.
    unfold counter in *. unfold handleError. cbv zeta.
    rewrite classifyError_timeout_message in *.
    set (key := errorKey_of TimeoutError context) in *.
    cbn [maxRetries set_errorCounts recordError set_errorHistory recoveryStrategies].
    destruct (Z.ltb_spec (maxRetries m) (default 0 (errorCounts m !! key) + 1)) as [Hlt|_]; [lia|].
    rewrite Hstrat. unfold timeoutStrategy. rewrite Hurl, Hcm, Hget. simpl.
    by rewrite lookup_delete_eq.
Qed.

(** X12.  With the default strategies a recovery carries data in one case
    only: the error is a [TimeoutError], the context names a post and a cache
    manager, and the data is what that cache manager returns for the post;
    the recovery is then a successful [fallback]. *)
Theorem handleError_data_from_cache (w : KasFreeDB.Window) m now error context (d : Data) :
  recoveryStrategies m = defaultStrategies w ->
  data (handleError m now error context).1 = Some d ->
  classifyError error = TimeoutError /\
  action (handleError m now error context).1 = fallback /\
  success (handleError m now error context).1 = true /\
  exists url cm,
    truthy_string (postUrl context) = Some url /\
    cacheManager context = Some cm /\
    cm_getAnalysisResult cm url = Return (Some d).
Proof.
  intros Hstrat. unfold handleError. cbv zeta.
  cbn [maxRetries set_errorCounts recordError set_errorHistory recoveryStrategies].
  destruct (_ <? _); [discriminate|].
  rewrite Hstrat.
  destruct (classifyError error); cbn [defaultStrategies]; try discriminate.
  - unfold timeoutStrategy.
    destruct (truthy_string (postUrl context)) as [url|]; [|discriminate].
    destruct (cacheManager context) as [cm|]; [|discriminate].
    destruct (cm_getAnalysisResult cm url) as [[cached|]|e] eqn:Hget; try discriminate.
    simpl. intros [= ->]. repeat split; eauto.
  - unfold indexedDBStrategy. destruct (KasFreeDB.kasFreeDB w); discriminate.
  - unfold outOfMemoryStrategy.
    destruct (cacheManager context) as [cm|]; [|discriminate].
    destruct (cm_smartCleanup cm) as [[deleted|e]|]; discriminate.
Qed.

(** X13.  The default strategy for [IndexedDBError] never recovers: the
    method it calls to reinitialise the database does not exist on the
    database object, so with or without [window.kasFreeDB] the answer is
    [fail], and the counter of the pair grows by one. *)
Theorem indexedDB_error_never_recovers (w : KasFreeDB.Window) m now error context :
  recoveryStrategies m IndexedDBError = Some (indexedDBStrategy w) ->
  classifyError error = IndexedDBError ->
  action (handleError m now error context).1 = fail /\
  success (handleError m now error context).1 = false /\
  counter (handleError m now error context).2 error context = counter m error context + 1.
Proof.
  intros Hstrat Hty. unfold counter, handleError. cbv zeta. rewrite Hty.
  cbn [maxRetries set_errorCounts recordError set_errorHistory recoveryStrategies].
  destruct (_ <? _); simpl; [by rewrite lookup_insert_eq|].
  rewrite Hstrat. unfold indexedDBStrategy.
  destruct (KasFreeDB.kasFreeDB w); simpl; by rewrite lookup_insert_eq.
Qed.

End ErrorRecoveryMore.

Section ErrorRecoveryMoreExamples.
Import JS ErrorRecoveryManager.

(** A network error of one post leaves the count of unknown failures of the
    same post alone. *)
Lemma handleError_counters_independent_witness :
  counter (handleError new_manager 0 network_error post_context).2 unknown_failure post_context
  = counter new_manager unknown_failure post_context.
Proof.
  apply (handleError_counters_independent new_manager 0 network_error post_context
           unknown_failure post_context).
  left. vm_compute. discriminate.
Defined.

(** An aborted request for a post whose result is cached. *)
Lemma timeout_error_recovery_witness :
  exists e,
    (ApiClient.fetchWithTimeout (ApiClient.constructor ApiClient.no_options)
       "api.openai.com" (ApiClient.Rejected abort_error)).1 = Throw e /\
    classifyError e = TimeoutError /\
    data (handleError new_manager 0 e cached_context).1 = Some tt.
Proof.
  destruct (timeout_error_recovery (Data := unit) (ApiClient.constructor ApiClient.no_options)
              "api.openai.com" abort_error eq_refl) as (e & Hthrown & Hclass & Hrecover).
  exists e. split; [exact Hthrown|]. split; [exact Hclass|].
  destruct (Hrecover new_manager 0 cached_context
              "https://gall.dcinside.com/board/view/?id=dcbest&no=1"
              (mkCacheManagerRef (fun _ => Return (Some tt)) None) tt)
    as (_ & _ & Hdata & _); try reflexivity.
  exact Hdata.
Defined.

Lemma handleError_data_from_cache_witness :
  classifyError (new_Error "Request timeout") = TimeoutError /\
  action (handleError new_manager 0 (new_Error "Request timeout") cached_context).1 = fallback.
Proof.
  destruct (handleError_data_from_cache (KasFreeDB.mkWindow None) new_manager 0
              (new_Error "Request timeout") cached_context tt)
    as (Hclass & Haction & _); [reflexivity|reflexivity|].
  split; [exact Hclass|exact Haction].
Defined.

Lemma indexedDB_error_never_recovers_witness :
  action (handleError new_manager 0 database_error post_context).1 = fail.
Proof.
  destruct (indexedDB_error_never_recovers (KasFreeDB.mkWindow None) new_manager 0
              database_error post_context) as (Haction & _); [reflexivity|reflexivity|].
  exact Haction.
Defined.

End ErrorRecoveryMoreExamples.

(** ** The service worker: the status follows the score *)

Section ServiceWorkerMore.
Import JS ServiceWorker.

Lemma Qltb_compat (a a' b : Q) : (a == a')%Q -> Qltb a b = Qltb a' b.
Proof.
  intros Heq. apply eq_true_iff_eq. rewrite !Qltb_lt. by rewrite Heq.
Qed.

Lemma determineStatus_compat (thresholds : Thresholds) (a a' : Q) :
  (a == a')%Q -> determineStatus thresholds a = determineStatus thresholds a'.
Proof.
  intros Heq. unfold determineStatus. by rewrite !(Qltb_compat a a' _ Heq).
Qed.

(** X14.  A higher risk score never gets a milder status, whatever the
    thresholds are; and thresholds with [cautionMax] at or below [safeMax]
    leave no score with the status [caution]. *)
Theorem determineStatus_monotone (thresholds : Thresholds) (s1 s2 : Q) :
  (s1 <= s2)%Q ->
  severity (determineStatus thresholds s1) <= severity (determineStatus thresholds s2) /\
  ((cautionMax thresholds <= safeMax thresholds)%Q ->
   determineStatus thresholds s1 <> caution).
Proof.
  intros Hle. unfold determineStatus.
  destruct (Qltb s1 (safeMax thresholds)) eqn:H1.
  { split; [|done].
    destruct (Qltb s2 (safeMax thresholds)), (Qltb s2 (cautionMax thresholds)); simpl; lia. }
  apply not_true_iff_false in H1. rewrite Qltb_lt in H1.
  destruct (Qltb s2 (safeMax thresholds)) eqn:H2.
  { apply Qltb_lt in H2. exfalso. apply H1. lra. }
  destruct (Qltb s1 (cautionMax thresholds)) eqn:H3.
  { apply Qltb_lt in H3. split.
    - destruct (Qltb s2 (cautionMax thresholds)); simpl; lia.
    - intros Hc _. apply H1. lra. }
  split; [|done].
  destruct (Qltb s2 (cautionMax thresholds)) eqn:H4; [|simpl; lia].
  apply Qltb_lt in H4. apply not_true_iff_false in H3. rewrite Qltb_lt in H3.
  exfalso. apply H3. lra.
Qed.

Lemma determineStatus_monotone_witness :
  severity (determineStatus default_thresholds (45 # 100))
  <= severity (determineStatus default_thresholds (8 # 10)).
Proof.
  destruct (determineStatus_monotone default_thresholds (45 # 100) (8 # 10)) as [Hmono _].
  - discriminate.
  - exact Hmono.
Defined.

Section request.
Variable env : Collaborators.
Variable thresholds : Thresholds.
Variable now : Z.
Variable imageUrl : string.

Lemma buildFinalResult_status (primary secondary : option AnalysisResult)
    (status : Status) (main : AnalysisResult) :
  match secondary with Some s => Some s | None => primary end = Some main ->
  status = determineStatus thresholds (riskScore main) ->
  final_status (buildFinalResult primary secondary status now)
  = determineStatus thresholds
      (final_riskScore (buildFinalResult primary secondary status now)).
Proof.
  intros Hmain ->. symmetry. apply determineStatus_compat.
  by apply buildFinalResult_riskScore.
Qed.

(** X15.  With a positive [safeMax], the status of the result [analyzeImage]
    returns is always the status [determineStatus] gives for the risk score
    of that same result: in the short circuit, after a deep analysis, after
    a deep analysis that failed, and in the fallback after a failed hash
    stage. *)
Theorem analyzeImage_status_matches_score :
  (0 < safeMax thresholds)%Q ->
  exists final log,
    run (analyzeImage env thresholds now imageUrl) = (Return final, log) /\
    final_status final = determineStatus thresholds (final_riskScore final).
Proof.
  intros Hsafe.
  destruct (run (analyzeImageWithHash env imageUrl)) as [[primary|e] log1] eqn:Hhash.
  - destruct (Qlt_le_dec (riskScore primary) (safeMax thresholds)) as [Hlt|Hge].
    + rewrite (analyzeImage_hash_safe env thresholds now imageUrl primary log1 Hhash Hlt).
      eexists _, _. split; [done|].
      apply (buildFinalResult_status _ _ _ primary); [done|].
      symmetry. by apply determineStatus_safe.
    + rewrite (analyzeImage_escalates env thresholds now imageUrl primary log1 Hhash)
        by (by apply Qle_not_lt).
      destruct (secondStage env imageUrl log1) as [[secondary|e] log2].
      * eexists _, _. split; [done|]. by apply (buildFinalResult_status _ _ _ secondary).
      * eexists _, _. split; [done|]. by apply (buildFinalResult_status _ _ _ primary).
  - rewrite (analyzeImage_hash_throws env thresholds now imageUrl e log1 Hhash).
    eexists _, _. split; [done|]. simpl. symmetry. by apply determineStatus_safe.
Qed.

End request.

(** The escalation whose encoding step fails keeps the hash stage's 0.45 and
    its status [caution]. *)
Lemma analyzeImage_status_matches_score_witness :
  exists final log,
    run (analyzeImage env_encoding_fails default_thresholds 0 example_image)
    = (Return final, log) /\
    final_status final = determineStatus default_thresholds (final_riskScore final).
Proof.
  apply (analyzeImage_status_matches_score env_encoding_fails default_thresholds 0
           example_image).
  reflexivity.
Defined.

End ServiceWorkerMore.

(** ** The analyzers' results *)

Section AnalyzerFacts.
Import JS ServiceWorker Analyzers.

Lemma category_key_cases (categoryId : Z) :
  category_key categoryId ∈ zero_scores.*1.
Proof.
  unfold category_key.
  destruct categoryId as [|p|p]; [set_solver| |set_solver].
  do 4 (destruct p as [p|p|]; try set_solver).
Qed.

Lemma total_score_set (m : list (string * Q)) (k : string) (v : Q) :
  NoDup m.*1 -> k ∈ m.*1 ->
  (total_score (Map.set m k v) == total_score m - default 0%Q (Map.get m k) + v)%Q.
Proof.
  induction m as [|[k' v'] m IH]; intros Hnd Hin.
  - by apply elem_of_nil in Hin.
  - rewrite fmap_cons in Hnd, Hin. apply NoDup_cons in Hnd as [Hk' Hnd].
    unfold Map.get. simpl.
    destruct (String.eqb_spec k' k) as [->|Hne]; simpl.
    + lra.
    + apply elem_of_cons in Hin as [->|Hin]; [done|].
      specialize (IH Hnd Hin). unfold Map.get in IH. rewrite IH. lra.
Qed.

(** X16.  The result both analyzers build from a server answer lists the ten
    categories in their fixed order, with the same scores under
    [detailedScores] and [categories], and the scores add up to the risk
    score.  Without a match everything is 0.  With a match the risk score is
    a fifth of the severity, 5 standing in for a missing or zero severity,
    and it is the score of exactly one category: the one the category id
    names, [gore] for a missing id, [disturbing] for an id outside 1..10. *)
Theorem transform_categories (source : string) (data : CheckData) :
  let r := transform source data in
  (categories r).*1 = zero_scores.*1 /\
  detailedScores r = categories r /\
  (total_score (categories r) == riskScore r)%Q /\
  (data_matched data = false -> riskScore r = 0%Q /\ categories r = zero_scores) /\
  (data_matched data = true ->
   (riskScore r == severity_or_default data / 5)%Q /\
   Map.get (categories r) (category_key (or_default (image_category data) 1))
   = Some (severity_or_default data / 5)%Q /\
   forall k v, (k, v) ∈ categories r ->
     k <> category_key (or_default (image_category data) 1) -> v = 0%Q).
Proof.
  intros r. subst r. unfold transform.
  destruct (data_matched data); simpl.
  2:{ repeat split; try done. }
  set (key := category_key (or_default (image_category data) 1)).
  set (score := (severity_or_default data / 5)%Q).
  pose proof (category_key_cases (or_default (image_category data) 1)) as Hkey.
  fold key in Hkey. unfold mapCategoryToScores. fold key score.
  assert (Hnd : NoDup zero_scores.*1) by compute_done.
  split; [by apply Map_set_keys|]. split; [done|]. split.
  { rewrite total_score_set by done.
    assert (Hz : forall k, k ∈ zero_scores.*1 -> Map.get zero_scores k = Some 0%Q).
    { intros k Hk. unfold zero_scores in *. simpl in Hk.
      repeat (apply elem_of_cons in Hk as [->|Hk]; [reflexivity|]).
      by apply elem_of_nil in Hk. }
    rewrite (Hz key Hkey). simpl. unfold total_score; simpl. lra. }
  split; [done|]. intros _. split; [reflexivity|].
  unfold zero_scores in *. simpl in Hkey.
  repeat (apply elem_of_cons in Hkey as [->|Hkey];
    [split; [reflexivity|];
     intros k v Hin Hne; simpl in Hin;
     repeat (apply elem_of_cons in Hin as [[= -> ->]|Hin]; [done|]);
     by apply elem_of_nil in Hin|]).
  by apply elem_of_nil in Hkey.
Qed.

(** X17.  What the default thresholds (0.3 and 0.6) make of a server answer:
    no match is [safe]; a match without a severity, or with severity 0, is
    [danger]; a match of severity below 1.5 (so severity 1) is [safe], from
    1.5 to below 3 (severity 2) [caution], and from 3 on [danger]. *)
Theorem transform_verdict (source : string) (data : CheckData) :
  let verdict := determineStatus default_thresholds (riskScore (transform source data)) in
  (data_matched data = false -> verdict = safe) /\
  (data_matched data = true ->
   match image_severity data with
   | None => verdict = danger
   | Some s =>
       ((s == 0)%Q -> verdict = danger) /\
       ((s < 3 # 2)%Q -> ~ (s == 0)%Q -> verdict = safe) /\
       ((3 # 2 <= s)%Q -> (s < 3)%Q -> verdict = caution) /\
       ((3 <= s)%Q -> verdict = danger)
   end).
Proof.
  intros verdict. subst verdict. unfold transform.
  destruct (data_matched data); simpl; [|done].
  split; [done|]. intros _. unfold severity_or_default.
  assert (Hd : forall q, determineStatus default_thresholds q = danger <-> (6 # 10 <= q)%Q).
  { intros q. unfold determineStatus, default_thresholds. simpl.
    destruct (Qltb q (3 # 10)) eqn:H1; [apply Qltb_lt in H1|apply not_true_iff_false in H1;
      rewrite Qltb_lt in H1];
    (destruct (Qltb q (6 # 10)) eqn:H2; [apply Qltb_lt in H2|apply not_true_iff_false in H2;
      rewrite Qltb_lt in H2]); split; try done; intros; lra. }
  assert (Hc : forall q, determineStatus default_thresholds q = caution
                          <-> (3 # 10 <= q /\ q < 6 # 10)%Q).
  { intros q. unfold determineStatus, default_thresholds. simpl.
    destruct (Qltb q (3 # 10)) eqn:H1; [apply Qltb_lt in H1|apply not_true_iff_false in H1;
      rewrite Qltb_lt in H1];
    (destruct (Qltb q (6 # 10)) eqn:H2; [apply Qltb_lt in H2|apply not_true_iff_false in H2;
      rewrite Qltb_lt in H2]); split; try done; try (intros [? ?]; lra); intros; lra. }
  destruct (image_severity data) as [s|]; [|by apply Hd].
  destruct (Qeq_bool s 0) eqn:Hs0.
  - apply Qeq_bool_iff in Hs0. split; [|split; [|split]].
    + intros _. by apply Hd.
    + intros _ Hne. by destruct Hne.
    + intros H1 _. lra.
    + intros H3. lra.
  - apply Qeq_bool_neq in Hs0. split; [|split; [|split]].
    + intros H0. by destruct Hs0.
    + intros Hlt _. apply determineStatus_safe. simpl. 
      apply Qlt_shift_div_r; lra.
    + intros H1 H2. apply Hc. split.
      * apply Qle_shift_div_l; lra.
      * apply Qlt_shift_div_r; lra.
    + intros H3. apply Hd. apply Qle_shift_div_l; lra.
Qed.

Example transform_examples :
  riskScore (transformResult porn_match) = (2 / 5)%Q /\
  Map.get (categories (transformResult porn_match)) "nsfw_porn" = Some (2 / 5)%Q /\
  determineStatus default_thresholds (riskScore (transformResult porn_match)) = caution /\
  Map.get (categories (transformCheckResult bare_match)) "gore" = Some (5 / 5)%Q /\
  determineStatus default_thresholds (riskScore (transformCheckResult bare_match)) = danger.
Proof. repeat split. Qed.

End AnalyzerFacts.

(** ** The reporter id *)

Section ReporterIdFacts.
Import ReporterId.

Lemma indexOf_found (id : Chars) (char : ascii) (fromIndex q : nat) :
  id !! q = Some char -> (fromIndex <= q)%nat ->
  exists i, indexOf id char fromIndex = Some i /\ (fromIndex <= i <= q)%nat.
Proof.
  revert fromIndex q. induction id as [|c id IH]; intros fromIndex q Hq Hle; [done|].
  destruct fromIndex as [|n]; simpl.
  - destruct (Ascii.eqb_spec c char) as [->|Hne]; [exists 0%nat; split; [done|lia]|].
    destruct q as [|q]; [simpl in Hq; congruence|].
    destruct (IH 0%nat q Hq) as (i & -> & Hi); [lia|].
    exists (S i). split; [done|lia].
  - destruct q as [|q]; [lia|].
    destruct (IH n q Hq) as (i & -> & Hi); [lia|].
    exists (S i). split; [done|lia].
Qed.

Lemma isNerdyId_loop_complete (id : Chars) (chars : list ascii) (qs : list nat)
    (lastIndex : Z) :
  Forall2 (fun q c => id !! q = Some c) qs chars ->
  StronglySorted lt qs ->
  Forall (fun q => lastIndex < Z.of_nat q) qs ->
  -1 <= lastIndex ->
  isNerdyId_loop id chars lastIndex = true.
Proof.
  intros Hall. revert lastIndex.
  induction Hall as [|q c qs chars Hq Hall IH]; intros lastIndex Hsorted Hlast Hge; [done|].
  apply StronglySorted_inv in Hsorted as [Hsorted Hlt].
  apply Forall_cons in Hlast as [Hq0 Hlast].
  simpl.
  destruct (indexOf_found id c (Z.to_nat (lastIndex + 1)) q Hq) as (i & -> & Hi); [lia|].
  destruct (Z.leb_spec (Z.of_nat i) lastIndex) as [Hle|_]; [lia|].
  apply IH; [done| |lia].
  eapply Forall_impl; [exact Hlt|]. simpl. lia.
Qed.

Lemma fold_assign_cons (q : nat) (c : ascii) (rest : list (nat * ascii)) (arr : Chars) :
  fold_left assign (prod_map Some (fun c => c) <$> (q, c) :: rest) arr
  = fold_left assign (prod_map Some (fun c => c) <$> rest) (<[q := c]> arr).
Proof. reflexivity. Qed.

Lemma fold_assign_other (rest : list (nat * ascii)) (arr : Chars) :
  length (fold_left assign (prod_map Some (fun c => c) <$> rest) arr) = length arr /\
  forall i, i ∉ rest.*1 ->
    fold_left assign (prod_map Some (fun c => c) <$> rest) arr !! i = arr !! i.
Proof.
  revert arr. induction rest as [|[q c] rest IH]; intros arr; [done|].
  rewrite !fold_assign_cons.
  destruct (IH (<[q := c]> arr)) as [Hlen Hother]. split.
  - by rewrite Hlen, length_insert.
  - intros i Hi. apply not_elem_of_cons in Hi as [Hne Hi].
    rewrite Hother by done. by apply list_lookup_insert_ne.
Qed.

Lemma fold_assign_positions (rest : list (nat * ascii)) (arr : Chars) :
  NoDup rest.*1 ->
  Forall (fun q => (q < length arr)%nat) rest.*1 ->
  Forall (fun qc => fold_left assign (prod_map Some (fun c => c) <$> rest) arr !! qc.1
                    = Some qc.2) rest.
Proof.
  revert arr. induction rest as [|[q c] rest IH]; intros arr Hnd Hlt; [done|].
  rewrite fmap_cons in Hnd, Hlt. apply NoDup_cons in Hnd as [Hq Hnd].
  apply Forall_cons in Hlt as [Hqlt Hlt].
  constructor.
  - rewrite fold_assign_cons. simpl. destruct (fold_assign_other rest (<[q := c]> arr)) as [_ Hother].
    rewrite Hother by done. by apply list_lookup_insert_eq.
  - eapply Forall_impl; [apply (IH (<[q := c]> arr)); [done|by rewrite length_insert]|].
    intros qc Hqc. by rewrite fold_assign_cons.
Qed.

Lemma insert_position_Permutation (x : nat) (l : list nat) :
  insert_position x l ≡ₚ x :: l.
Proof.
  induction l as [|y l IH]; simpl; [done|].
  destruct (x <=? y)%nat; [done|]. by rewrite IH, Permutation_swap.
Qed.

Lemma sorted_positions_Permutation (l : list nat) :
  fold_right insert_position [] l ≡ₚ l.
Proof.
  induction l as [|x l IH]; simpl; [done|]. by rewrite insert_position_Permutation, IH.
Qed.

Lemma insert_position_sorted (x : nat) (l : list nat) :
  x ∉ l -> StronglySorted lt l -> StronglySorted lt (insert_position x l).
Proof.
  intros Hx Hs. induction Hs as [|y l Hs IH Hall]; simpl.
  - repeat constructor.
  - apply not_elem_of_cons in Hx as [Hne Hx].
    destruct (Nat.leb_spec x y) as [Hle|Hgt].
    + constructor; [by constructor|]. constructor; [lia|].
      eapply Forall_impl; [exact Hall|]. simpl. lia.
    + constructor; [by apply IH|].
      rewrite insert_position_Permutation. constructor; [lia|done].
Qed.

Lemma sorted_positions_sorted (l : list nat) :
  NoDup l -> StronglySorted lt (fold_right insert_position [] l).
Proof.
  induction 1 as [|x l Hx Hnd IH]; simpl; [constructor|].
  apply insert_position_sorted; [|done]. by rewrite sorted_positions_Permutation.
Qed.

Lemma omap_Some (ps : list nat) : omap (fun p : option nat => p) (Some <$> ps) = ps.
Proof. induction ps as [|p ps IH]; [done|]. rewrite fmap_cons. cbn. f_equal. exact IH. Qed.

Lemma filter_None_Some (ps : list nat) :
  filter (fun p : option nat => p = None) (Some <$> ps) = [].
Proof. induction ps as [|p ps IH]; [done|]. rewrite fmap_cons, filter_cons_False; done. Qed.

Lemma randomIndex_lt (random : Q) (n : nat) :
  (0 <= random)%Q -> (random < 1)%Q -> (0 < n)%nat ->
  (Z.to_nat (Qfloor (random * inject_Z (Z.of_nat n))) < n)%nat.
Proof.
  intros H0 H1 Hn.
  assert (Hpos : (0 < inject_Z (Z.of_nat n))%Q).
  { change 0%Q with (inject_Z 0). rewrite <- Zlt_Qlt. lia. }
  assert (Hlo : 0 <= Qfloor (random * inject_Z (Z.of_nat n))).
  { change 0 with (Qfloor 0). apply Qfloor_resp_le. nra. }
  assert (Hhi : Qfloor (random * inject_Z (Z.of_nat n)) < Z.of_nat n).
  { pose proof (Qfloor_le (random * inject_Z (Z.of_nat n))) as Hf.
    assert (inject_Z (Qfloor (random * inject_Z (Z.of_nat n))) < inject_Z (Z.of_nat n))%Q
      as Hlt by nra.
    by rewrite <- Zlt_Qlt in Hlt. }
  lia.
Qed.

(** The selection loop picks distinct available positions. *)
Lemma select_steps (random : nat -> Q) (k a : nat) (ps avail : list nat) :
  (forall i, (0 <= random i)%Q /\ (random i < 1)%Q) ->
  (k <= length avail)%nat ->
  exists ps' avail',
    fold_left select (random <$> seq a k) (Some <$> ps, avail) = (Some <$> ps', avail') /\
    length ps' = (length ps + k)%nat /\
    ps' ++ avail' ≡ₚ ps ++ avail.
Proof.
  intros Hr. revert a ps avail. induction k as [|k IH]; intros a ps avail Hlen.
  - exists ps, avail. simpl. split; [done|]. split; [lia|done].
  - cbn [seq fmap list_fmap fold_left]. unfold select at 2.
    set (idx := Z.to_nat (Qfloor (random a * inject_Z (Z.of_nat (length avail))))).
    assert (Hidx : (idx < length avail)%nat).
    { destruct (Hr a). apply randomIndex_lt; [done|done|lia]. }
    destruct (lookup_lt_is_Some_2 avail idx Hidx) as [p Hp]. rewrite Hp.
    change (list_fmap nat Q random (seq (S a) k)) with (random <$> seq (S a) k).
    replace ((Some <$> ps) ++ [Some p]) with (Some <$> (ps ++ [p]))
      by (by rewrite fmap_app).
    destruct (IH (S a) (ps ++ [p]) (delete idx avail)) as (ps' & avail' & Hrun & Hl & Hperm).
    { rewrite length_delete by eauto. lia. }
    exists ps', avail'. split; [done|]. split.
    + rewrite Hl, length_app. simpl. lia.
    + rewrite Hperm, <- app_assoc. simpl.
      by rewrite <- (delete_Permutation avail idx p Hp).
Qed.

Lemma availablePositions_spec (uuid : Chars) :
  NoDup (availablePositions uuid) /\
  Forall (fun i => (i < length uuid)%nat) (availablePositions uuid).
Proof.
  unfold availablePositions. split.
  - apply NoDup_filter, NoDup_seq.
  - apply Forall_forall. intros i [_ Hi%elem_of_seq]%list_elem_of_filter. lia.
Qed.

Lemma generateNerdyReporterId_spec (uuid : Chars) (random : nat -> Q) :
  (4 <= length (availablePositions uuid))%nat ->
  (forall i, (0 <= random i)%Q /\ (random i < 1)%Q) ->
  let reporterId := generateNerdyReporterId uuid random in
  isNerdyId reporterId = true /\
  length reporterId = length uuid /\
  forall i, i ∉ availablePositions uuid -> reporterId !! i = uuid !! i.
Proof.
  intros Hlen Hr reporterId. subst reporterId. unfold generateNerdyReporterId.
  destruct (select_steps random 4 0 [] (availablePositions uuid) Hr Hlen)
    as (ps & rest & Hrun & Hl & Hperm).
  change (Some <$> []) with (@nil (option nat)) in Hrun.
  cbv zeta. rewrite Hrun.
  destruct (availablePositions_spec uuid) as [Hnd Hlt].
  simpl in Hperm. rewrite <- Hperm in Hnd, Hlt.
  apply NoDup_app in Hnd as (Hnd & _ & _). apply Forall_app in Hlt as [Hlt _].
  set (qs := fold_right insert_position [] ps).
  assert (Hsort : sort_positions (Some <$> ps) = Some <$> qs).
  { unfold sort_positions. by rewrite omap_Some, filter_None_Some, app_nil_r. }
  rewrite Hsort.
  assert (Hqperm : qs ≡ₚ ps) by apply sorted_positions_Permutation.
  assert (Hqsorted : StronglySorted lt qs) by by apply sorted_positions_sorted.
  assert (Hqlen : length qs = 4%nat) by (rewrite Hqperm, Hl; done).
  rewrite <- Hqperm in Hnd, Hlt.
  assert (Hin : forall q, q ∈ qs -> q ∈ availablePositions uuid).
  { intros q Hq. rewrite <- Hperm. apply elem_of_app. left. by rewrite <- Hqperm. }
  destruct qs as [|q0 [|q1 [|q2 [|q3 [|q4 qs]]]]]; try discriminate Hqlen.
  change (zip (Some <$> [q0; q1; q2; q3]) nerdChars)
    with (prod_map Some (fun c : ascii => c)
            <$> [(q0, "n"%char); (q1, "e"%char); (q2, "r"%char); (q3, "d"%char)]).
  set (rest' := [(q0, "n"%char); (q1, "e"%char); (q2, "r"%char); (q3, "d"%char)]).
  pose proof (fold_assign_other rest' uuid) as [Hlength Hother].
  pose proof (fold_assign_positions rest' uuid Hnd Hlt) as Hpos.
  split; [|split; [done|]].
  - apply (isNerdyId_loop_complete _ nerdChars [q0; q1; q2; q3]); [|done| |done].
    + repeat (apply Forall_cons in Hpos as [? Hpos]). repeat constructor; done.
    + apply Forall_forall. intros; lia.
  - intros i Hi. apply Hother. intros Hq. apply Hi, Hin. exact Hq.
Qed.

(** X18.  [generateNerdyReporterId] always produces an id that [isNerdyId]
    accepts: for a UUID with at least four free positions (a real one has
    thirty) and random numbers in [0, 1), the result has the length of the
    UUID and differs from it only at free positions, so the hyphens, the
    version digit and the variant digit stay. *)
Theorem generateNerdyReporterId_nerdy (uuid : Chars) (random : nat -> Q) :
  (4 <= length (availablePositions uuid))%nat ->
  (forall i, (0 <= random i)%Q /\ (random i < 1)%Q) ->
  let reporterId := generateNerdyReporterId uuid random in
  isNerdyId reporterId = true /\
  length reporterId = length uuid /\
  forall i, i ∉ availablePositions uuid -> reporterId !! i = uuid !! i.
Proof. apply generateNerdyReporterId_spec. Qed.

(** X19.  [getOrCreateReporterId] gives an installation one id: the id it
    returns passes [isNerdyId] and is what the storage holds afterwards; a
    stored id that passes is returned as it is; and a second call returns
    the id of the first and leaves the storage alone, whatever UUID and
    random numbers it would have had at hand. *)
Theorem getOrCreateReporterId_stable (stored : option Chars) (uuid uuid' : Chars)
    (random random' : nat -> Q) :
  (4 <= length (availablePositions uuid))%nat ->
  (forall i, (0 <= random i)%Q /\ (random i < 1)%Q) ->
  let first := getOrCreateReporterId stored uuid random in
  let second := getOrCreateReporterId first.2 uuid' random' in
  isNerdyId first.1 = true /\
  first.2 = Some first.1 /\
  second = first /\
  (forall reporterId, stored = Some reporterId -> isNerdyId reporterId = true ->
     first = (reporterId, stored)).
Proof.
  intros Hlen Hr first second.
  pose proof (generateNerdyReporterId_spec uuid random Hlen Hr) as [Hgen _].
  assert (Hnonempty : forall id, isNerdyId id = true -> bool_decide (id = []) = false).
  { intros id Hid. apply bool_decide_eq_false. by intros ->. }
  assert (Hfirst : isNerdyId first.1 = true /\ first.2 = Some first.1).
  { subst first. unfold getOrCreateReporterId.
    destruct stored as [id|]; [|done].
    destruct (negb (bool_decide (id = [])) && isNerdyId id) eqn:Hok; [|done].
    apply andb_true_iff in Hok as [_ Hok]. done. }
  destruct Hfirst as [Hn Hs]. split; [done|]. split; [done|]. split.
  - subst second. rewrite Hs. unfold getOrCreateReporterId at 1.
    rewrite Hn, (Hnonempty _ Hn). simpl. rewrite <- Hs. by destruct first.
  - intros id -> Hid. subst first. unfold getOrCreateReporterId.
    by rewrite Hid, (Hnonempty _ Hid).
Qed.

Lemma indexOf_drop (id : Chars) (char : ascii) (fromIndex : nat) :
  indexOf id char fromIndex = Nat.add fromIndex <$> indexOf (drop fromIndex id) char 0.
Proof.
  revert fromIndex. induction id as [|c id IH]; intros [|n]; simpl; try done.
  - destruct (Ascii.eqb c char); [done|]. by destruct (indexOf id char 0).
  - rewrite IH. by destruct (indexOf (drop n id) char 0).
Qed.

Lemma indexOf_first (l : Chars) (char : ascii) :
  match indexOf l char 0 with
  | Some i => exists l1 l2, l = l1 ++ char :: l2 /\ (char ∉ l1) /\ length l1 = i
  | None => char ∉ l
  end.
Proof.
  induction l as [|c l IH]; simpl; [apply not_elem_of_nil|].
  destruct (Ascii.eqb_spec c char) as [->|Hne].
  - exists [], l. split; [done|]. split; [apply not_elem_of_nil|done].
  - destruct (indexOf l char 0) as [i|]; simpl.
    + destruct IH as (l1 & l2 & -> & Hl1 & Hlen).
      exists (c :: l1), l2. split; [done|]. split; [|simpl; lia].
      apply not_elem_of_cons. split; [congruence|done].
    + apply not_elem_of_cons. split; [congruence|done].
Qed.

Lemma sublist_first (char : ascii) (chars l1 l2 : Chars) :
  char ∉ l1 -> (sublist (char :: chars) (l1 ++ char :: l2) <-> sublist chars l2).
Proof.
  intros Hl1. split.
  - induction l1 as [|y l1 IH]; simpl; intros Hsub.
    + inversion Hsub as [|? ? ? Hs|? ? ? Hs]; subst; [done|].
      apply sublist_cons_l in Hs as (k1 & k2 & -> & Hs).
      etrans; [exact Hs|]. apply sublist_inserts_l, sublist_cons. done.
    + apply not_elem_of_cons in Hl1 as [Hne Hl1].
      inversion Hsub as [|? ? ? Hs|? ? ? Hs]; subst; [done|by apply IH].
  - intros Hsub. apply sublist_inserts_l. by apply sublist_skip.
Qed.

Lemma isNerdyId_loop_sublist (id : Chars) (chars : list ascii) (lastIndex : Z) :
  -1 <= lastIndex ->
  isNerdyId_loop id chars lastIndex = true
  <-> sublist chars (drop (Z.to_nat (lastIndex + 1)) id).
Proof.
  revert lastIndex. induction chars as [|char chars IH]; intros lastIndex Hge; simpl.
  - split; [intros _; apply sublist_nil_l|done].
  - rewrite indexOf_drop.
    set (l := drop (Z.to_nat (lastIndex + 1)) id).
    pose proof (indexOf_first l char) as Hfirst.
    destruct (indexOf l char 0) as [j|]; simpl.
    + destruct Hfirst as (l1 & l2 & Hl & Hl1 & Hlen).
      destruct (Z.leb_spec (Z.of_nat (Z.to_nat (lastIndex + 1) + j)) lastIndex) as [Hle|_];
        [lia|].
      rewrite IH by lia.
      assert (drop (Z.to_nat (Z.of_nat (Z.to_nat (lastIndex + 1) + j) + 1)) id = l2) as ->.
      { replace (Z.to_nat (Z.of_nat (Z.to_nat (lastIndex + 1) + j) + 1))
          with (Z.to_nat (lastIndex + 1) + S j)%nat by lia.
        rewrite <- drop_drop. change (drop (Z.to_nat (lastIndex + 1)) id) with l.
        rewrite Hl, drop_app_ge by lia.
        by replace (S j - length l1)%nat with 1%nat by lia. }
      by rewrite Hl, sublist_first.
    + split; [done|]. intros Hsub. destruct Hfirst.
      apply (elem_of_sublist _ _ char) in Hsub; [done|]. apply elem_of_cons. by left.
Qed.

(** X20.  [isNerdyId] accepts exactly the ids in which the letters n, e, r, d
    occur in this order, other characters between them allowed. *)
Theorem isNerdyId_subsequence (id : Chars) :
  isNerdyId id = true <-> sublist nerdChars id.
Proof. unfold isNerdyId. by rewrite isNerdyId_loop_sublist. Qed.


Lemma example_uuid_positions : (4 <= length (availablePositions example_uuid))%nat.
Proof. vm_compute. lia. Qed.

Lemma example_random_range (i : nat) : (0 <= example_random i)%Q /\ (example_random i < 1)%Q.
Proof. destruct i as [|[|[|i]]]; split; reflexivity || discriminate. Qed.

Lemma generateNerdyReporterId_nerdy_witness :
  isNerdyId (generateNerdyReporterId example_uuid example_random) = true /\
  length (generateNerdyReporterId example_uuid example_random) = length example_uuid.
Proof.
  destruct (generateNerdyReporterId_nerdy example_uuid example_random
              example_uuid_positions example_random_range) as (Hnerdy & Hlen & _).
  split; [exact Hnerdy|exact Hlen].
Defined.

Lemma getOrCreateReporterId_stable_witness :
  getOrCreateReporterId
    (getOrCreateReporterId None example_uuid example_random).2 example_uuid (fun _ => 0%Q)
  = getOrCreateReporterId None example_uuid example_random.
Proof.
  destruct (getOrCreateReporterId_stable None example_uuid example_uuid example_random
              (fun _ => 0%Q) example_uuid_positions example_random_range)
    as (_ & _ & Hsecond & _).
  exact Hsecond.
Defined.

Example generateNerdyReporterId_example :
  String.string_of_list_ascii (generateNerdyReporterId example_uuid example_random)
  = "n23e4567-e8eb-42d3-ar56-42661417400d".
Proof. reflexivity. Qed.

End ReporterIdFacts.

(** ** The caches in [chrome.storage.local] *)

Section StorageCacheFacts.
Import Storage.

(** *** The cache key *)

Lemma ToInt32_range (x : Z) : - 2 ^ 31 <= ToInt32 x < 2 ^ 31.
Proof. unfold ToInt32. pose proof (Z.mod_pos_bound (x + 2 ^ 31) (2 ^ 32)). lia. Qed.

Lemma ToInt32_mod (x : Z) : ToInt32 x mod 2 ^ 32 = x mod 2 ^ 32.
Proof.
  unfold ToInt32.
  rewrite <- Zminus_mod_idemp_l, Z.mod_mod by lia.
  rewrite Zminus_mod_idemp_l. f_equal. lia.
Qed.

Lemma ToInt32_eq (x y : Z) : x mod 2 ^ 32 = y mod 2 ^ 32 -> ToInt32 x = ToInt32 y.
Proof.
  intros H. unfold ToInt32. f_equal.
  rewrite <- (Zplus_mod_idemp_l x), <- (Zplus_mod_idemp_l y). by rewrite H.
Qed.

Lemma ToInt32_idemp (x : Z) : ToInt32 (ToInt32 x) = ToInt32 x.
Proof. apply ToInt32_eq, ToInt32_mod. Qed.

Lemma hashString_step_eq (hash char : Z) :
  hashString_step hash char = ToInt32 (31 * hash + char).
Proof.
  unfold hashString_step. cbv zeta. rewrite Z.land_diag, ToInt32_idemp.
  apply ToInt32_eq. rewrite Z.shiftl_mul_pow2 by lia.
  rewrite <- Zplus_mod_idemp_l, <- Zminus_mod_idemp_l, ToInt32_mod.
  rewrite <- (Zmult_mod_idemp_l (ToInt32 hash)), ToInt32_mod, Zmult_mod_idemp_l.
  rewrite Zminus_mod_idemp_l, Zplus_mod_idemp_l. f_equal. lia.
Qed.

Lemma hashString_fold (codes : list Z) (h : Z) :
  fold_left hashString_step codes h
  = fold_left (fun hash char => ToInt32 (31 * hash + char)) codes h.
Proof.
  revert h. induction codes as [|c codes IH]; intros h; [done|].
  simpl. by rewrite hashString_step_eq, IH.
Qed.

Lemma charCodes_app (s1 s2 : string) : charCodes (s1 +:+ s2) = charCodes s1 ++ charCodes s2.
Proof.
  unfold charCodes. rewrite <- fmap_app. f_equal.
  induction s1 as [|c s1 IH]; [done|]. simpl. by rewrite IH.
Qed.

Lemma ToInt32_step (x c : Z) : ToInt32 (31 * ToInt32 x + c) = ToInt32 (31 * x + c).
Proof.
  apply ToInt32_eq.
  rewrite <- Zplus_mod_idemp_l, <- Zmult_mod_idemp_r, ToInt32_mod, Zmult_mod_idemp_r.
  by rewrite Zplus_mod_idemp_l.
Qed.

(** X21.  [hashString] is the polynomial hash with multiplier 31 reduced to a
    signed 32-bit integer, so different URLs can share a cache key: two
    strings that differ only in having ["Aa"] where the other has ["BB"] get
    the same key, whatever precedes and follows. *)
Theorem hashString_collision (prefix suffix : string) :
  hashString (prefix +:+ "Aa" +:+ suffix) = hashString (prefix +:+ "BB" +:+ suffix) /\
  hashString (prefix +:+ "Aa" +:+ suffix)
  = fold_left (fun hash char => ToInt32 (31 * hash + char))
      (charCodes (prefix +:+ "Aa" +:+ suffix)) 0.
Proof.
  unfold hashString. split; [|apply hashString_fold].
  rewrite !charCodes_app, !fold_left_app, !hashString_fold.
  set (h := fold_left _ (charCodes prefix) 0).
  f_equal. simpl. rewrite !ToInt32_step. f_equal.
  change (Z.of_nat (nat_of_ascii "A")) with 65. change (Z.of_nat (nat_of_ascii "a")) with 97.
  change (Z.of_nat (nat_of_ascii "B")) with 66. lia.
Qed.


(** *** Sorting keys by time stamp *)

Lemma insert_by_timestamp_Permutation {K} (ts : K -> Z) (x : K) (l : list K) :
  insert_by_timestamp ts x l ≡ₚ x :: l.
Proof.
  induction l as [|y l IH]; simpl; [done|].
  destruct (ts x <=? ts y); [done|]. by rewrite IH, Permutation_swap.
Qed.

Lemma sort_by_timestamp_Permutation {K} (ts : K -> Z) (l : list K) :
  sort_by_timestamp ts l ≡ₚ l.
Proof.
  induction l as [|x l IH]; simpl; [done|].
  by rewrite insert_by_timestamp_Permutation, IH.
Qed.

Lemma insert_by_timestamp_sorted {K} (ts : K -> Z) (x : K) (l : list K) :
  StronglySorted (fun a b => ts a <= ts b) l ->
  StronglySorted (fun a b => ts a <= ts b) (insert_by_timestamp ts x l).
Proof.
  intros Hs. induction Hs as [|y l Hs IH Hall]; simpl.
  - repeat constructor.
  - destruct (Z.leb_spec (ts x) (ts y)) as [Hle|Hgt].
    + constructor; [by constructor|]. constructor; [done|].
      eapply Forall_impl; [exact Hall|]. simpl. lia.
    + constructor; [done|]. rewrite insert_by_timestamp_Permutation.
      constructor; [lia|done].
Qed.

Lemma length_sort {K} (ts : K -> Z) (l : list K) :
  length (sort_by_timestamp ts l) = length l.
Proof. by rewrite sort_by_timestamp_Permutation. Qed.

Lemma sort_by_timestamp_sorted {K} (ts : K -> Z) (l : list K) :
  StronglySorted (fun a b => ts a <= ts b) (sort_by_timestamp ts l).
Proof.
  induction l as [|x l IH]; simpl; [constructor|]. by apply insert_by_timestamp_sorted.
Qed.

(** The keys before a cut of a sorted list are no younger than those after. *)
Lemma sorted_take_drop {K} (ts : K -> Z) (l : list K) (d : nat) (a b : K) :
  StronglySorted (fun a b => ts a <= ts b) l ->
  a ∈ take d l -> b ∈ drop d l -> ts a <= ts b.
Proof.
  intros Hs. revert d. induction Hs as [|y l Hs IH Hall]; intros d Ha Hb.
  - rewrite take_nil in Ha. by apply elem_of_nil in Ha.
  - destruct d as [|d]; [by apply elem_of_nil in Ha|]. simpl in Ha, Hb.
    apply elem_of_cons in Ha as [->|Ha]; [|by eapply IH].
    rewrite Forall_forall in Hall. apply Hall.
    rewrite <- (take_drop d l). apply elem_of_app. by right.
Qed.

(** *** Deleting a list of keys *)

Lemma fold_delete_lookup {K V} `{Countable K} (ks : list K) (m : gmap K V) (k : K) :
  fold_left (fun m key => delete key m) ks m !! k
  = if decide (k ∈ ks) then None else m !! k.
Proof.
  revert m. induction ks as [|k0 ks IH]; intros m; cbn [fold_left].
  - destruct (decide (k ∈ [])) as [Hin|_]; [by apply elem_of_nil in Hin|done].
  - rewrite IH.
    destruct (decide (k ∈ ks)) as [Hin|Hnin], (decide (k ∈ k0 :: ks)) as [Hin'|Hnin'];
      try done.
    + destruct Hnin'. by right.
    + apply elem_of_cons in Hin' as [->|Hin']; [apply lookup_delete_eq|done].
    + apply lookup_delete_ne. intros ->. apply Hnin'. by left.
Qed.

Lemma fold_delete_size {K V} `{Countable K} (ks : list K) (m : gmap K V) :
  NoDup ks -> (forall k, k ∈ ks -> is_Some (m !! k)) ->
  size (fold_left (fun m key => delete key m) ks m) = (size m - length ks)%nat.
Proof.
  revert m. induction ks as [|k0 ks IH]; intros m Hnd Hin; simpl; [lia|].
  apply NoDup_cons in Hnd as [Hk0 Hnd].
  rewrite IH; [|done|].
  - rewrite map_size_delete_Some by (apply Hin; by left). lia.
  - intros k Hk. rewrite lookup_delete_ne by (by intros ->).
    apply Hin. by right.
Qed.

(** *** Enumerations of the keys of an object *)

Lemma keys_elem {K V} `{Countable K} (keys : list K) (m : gmap K V) (k : K) :
  keys ≡ₚ (map_to_list m).*1 -> k ∈ keys <-> is_Some (m !! k).
Proof.
  intros ->. rewrite list_elem_of_fmap. split.
  - intros [[k' e] [-> Hin%elem_of_map_to_list]]. by exists e.
  - intros [e He]. exists (k, e). split; [done|]. by apply elem_of_map_to_list.
Qed.

Lemma keys_NoDup {K V} `{Countable K} (keys : list K) (m : gmap K V) :
  keys ≡ₚ (map_to_list m).*1 -> NoDup keys.
Proof. intros ->. apply NoDup_fst_map_to_list. Qed.

Lemma keys_length {K V} `{Countable K} (keys : list K) (m : gmap K V) :
  keys ≡ₚ (map_to_list m).*1 -> length keys = size m.
Proof. intros ->. by rewrite length_fmap, length_map_to_list. Qed.

(** *** The result cache *)

Section result_cache.
Context {Data : Type}.
Variable Object_keys : Cache Data -> list Z.
Hypothesis Object_keys_spec : forall cache, Object_keys cache ≡ₚ (map_to_list cache).*1.

Lemma Object_keys_elem (cache : Cache Data) (k : Z) :
  k ∈ Object_keys cache <-> is_Some (cache !! k).
Proof. apply keys_elem, Object_keys_spec. Qed.

Lemma Object_keys_NoDup (cache : Cache Data) : NoDup (Object_keys cache).
Proof. eapply keys_NoDup, Object_keys_spec. Qed.

Lemma Object_keys_length (cache : Cache Data) : length (Object_keys cache) = size cache.
Proof. apply keys_length, Object_keys_spec. Qed.

Section set.
Variable cache : Cache Data.
Variable imageUrl : string.
Variable result : Data.
Variable now : Z.

Local Abbreviation cache1 := (<[hashString imageUrl := mkCachedData now result]> cache).
Local Abbreviation cache' := (setCachedResult Object_keys cache imageUrl result now).
Local Abbreviation sortedKeys :=
  (sort_by_timestamp (timestamp_of cache1) (Object_keys cache1)).
Local Abbreviation deleteCount := (length (Object_keys cache1) - 1000)%nat.

Lemma setCachedResult_unfold :
  cache' = fold_left (fun cache key => delete key cache) (take deleteCount sortedKeys) cache1.
Proof.
  unfold setCachedResult. cbv zeta.
  destruct (Nat.ltb_spec 1000 (length (Object_keys cache1))) as [Hlt|Hge]; [done|].
  by replace deleteCount with 0%nat by lia.
Qed.

Lemma sortedKeys_elem (k : Z) : k ∈ sortedKeys <-> is_Some (cache1 !! k).
Proof. by rewrite sort_by_timestamp_Permutation, Object_keys_elem. Qed.

Lemma sortedKeys_NoDup : NoDup sortedKeys.
Proof. rewrite sort_by_timestamp_Permutation. apply Object_keys_NoDup. Qed.

Lemma setCachedResult_lookup (k : Z) :
  cache' !! k = if decide (k ∈ take deleteCount sortedKeys) then None else cache1 !! k.
Proof. by rewrite setCachedResult_unfold, fold_delete_lookup. Qed.

Lemma setCachedResult_size :
  size cache' = Nat.min (size cache1) 1000.
Proof.
  rewrite setCachedResult_unfold, fold_delete_size.
  - rewrite length_take, length_sort, Object_keys_length. lia.
  - eapply sublist_NoDup; [apply sortedKeys_NoDup|apply sublist_take].
  - intros k Hk. apply sortedKeys_elem. rewrite <- (take_drop deleteCount sortedKeys).
    apply elem_of_app. by left.
Qed.

(** X22.  After [setCachedResult] the result cache holds at most 1000
    entries: the new entry is written, and when that makes more than 1000 the
    oldest entries are deleted until 1000 are left.  An entry that stays is
    as it was, and no entry that is deleted has a later time stamp than one
    that stays.  This holds for every order in which the engine may
    enumerate the keys. *)
Theorem setCachedResult_capacity :
  size cache' = Nat.min (size cache1) 1000 /\
  (forall k e, cache' !! k = Some e -> cache1 !! k = Some e) /\
  (forall k_out k_in,
     is_Some (cache1 !! k_out) -> cache' !! k_out = None -> is_Some (cache' !! k_in) ->
     timestamp_of cache1 k_out <= timestamp_of cache1 k_in).
Proof.
  split; [apply setCachedResult_size|]. split.
  - intros k e. rewrite setCachedResult_lookup. by destruct (decide _).
  - intros k_out k_in Hout Hgone Hin.
    rewrite setCachedResult_lookup in Hgone, Hin.
    destruct (decide (k_out ∈ take deleteCount sortedKeys)) as [Ho|_];
      [|by rewrite Hgone in Hout; destruct Hout].
    destruct (decide (k_in ∈ take deleteCount sortedKeys)) as [|Hi]; [by destruct Hin|].
    apply (sorted_take_drop _ sortedKeys deleteCount); [apply sort_by_timestamp_sorted|done|].
    apply sortedKeys_elem in Hin. rewrite <- (take_drop deleteCount sortedKeys) in Hin.
    by apply elem_of_app in Hin as [?|?].
Qed.

Lemma new_entry_survives :
  (size cache < 1000)%nat \/
  (forall k e, cache !! k = Some e -> k <> hashString imageUrl -> cd_timestamp e < now) ->
  hashString imageUrl ∉ take deleteCount sortedKeys.
Proof.
  intros Hold Hin.
  assert (Hlen : length sortedKeys = length (Object_keys cache1)) by apply length_sort.
  destruct (decide (deleteCount = 0)%nat) as [Hz|Hpos].
  { rewrite Hz in Hin. by apply elem_of_nil in Hin. }
  destruct Hold as [Hsmall|Hold].
  { rewrite Object_keys_length in Hpos.
    pose proof (map_size_insert (hashString imageUrl) (mkCachedData now result) cache) as Hs.
    destruct (cache !! hashString imageUrl); unfold Datatypes.id in Hs; lia. }
  destruct (lookup_lt_is_Some_2 sortedKeys deleteCount) as [b Hb]; [lia|].
  assert (Hbdrop : b ∈ drop deleteCount sortedKeys).
  { apply list_elem_of_lookup. exists 0%nat. by rewrite lookup_drop, Nat.add_0_r. }
  pose proof (sorted_take_drop _ sortedKeys deleteCount _ _
                (sort_by_timestamp_sorted _ _) Hin Hbdrop) as Hle.
  assert (Hne : b <> hashString imageUrl).
  { intros ->. pose proof sortedKeys_NoDup as Hnd.
    rewrite <- (take_drop deleteCount sortedKeys) in Hnd.
    apply NoDup_app in Hnd as (_ & Hdisj & _). by apply (Hdisj _ Hin). }
  assert (Hb1 : is_Some (cache1 !! b)).
  { apply sortedKeys_elem. rewrite <- (take_drop deleteCount sortedKeys).
    apply elem_of_app. by right. }
  rewrite lookup_insert_ne in Hb1 by done. destruct Hb1 as [e He].
  unfold timestamp_of in Hle.
  rewrite lookup_insert_eq, lookup_insert_ne, He in Hle by done. simpl in Hle.
  specialize (Hold b e He Hne). lia.
Qed.

(** X23.  A result written by [setCachedResult] is what [getCachedResult]
    returns for that URL, and for every URL with the same hash, until more
    than [cacheDuration] milliseconds have passed since the write, and
    nothing from then on; provided the write does not evict its own entry,
    which is so while the cache holds fewer than 1000 entries, or when every
    other entry is strictly older. *)
Theorem getCachedResult_after_set (url' : string) (cacheDuration now' : Z) :
  (size cache < 1000)%nat \/
  (forall k e, cache !! k = Some e -> k <> hashString imageUrl -> cd_timestamp e < now) ->
  hashString url' = hashString imageUrl ->
  getCachedResult cache' url' cacheDuration now'
  = if cacheDuration <? now' - now then None else Some result.
Proof.
  intros Hold Hkey. unfold getCachedResult. cbv zeta. rewrite Hkey.
  rewrite setCachedResult_lookup, decide_False by by apply new_entry_survives.
  by rewrite lookup_insert_eq.
Qed.

End set.
End result_cache.

(** *** The hash cache *)

Section hash_cache.
Context {Data : Type}.
Variable Object_keys : gmap string (HashEntry Data) -> list string.
Hypothesis Object_keys_spec : forall cache, Object_keys cache ≡ₚ (map_to_list cache).*1.

Section set.
Variable cache : gmap string (HashEntry Data).
Variable imageUrl hashes : string.
Variable result : Data.
Variable now : Z.

Local Abbreviation sorted := (sort_by_timestamp (hash_timestamp_of cache) (Object_keys cache)).
Local Abbreviation trimmed :=
  (if (5000 <=? length (Object_keys cache))%nat
   then fold_left (fun cache key => delete key cache) (take 1000 sorted) cache
   else cache).






End set.

Lemma fold_expired (ts : string -> Z) (now : Z) (ks : list string)
    (m : gmap string (HashEntry Data)) (n : Z) :
  fold_left
    (fun (state : Z * gmap string (HashEntry Data)) (url : string) =>
       let '(deletedCount, cache') := state in
       if TTL <? now - ts url then (deletedCount + 1, delete url cache') else state)
    ks (n, m)
  = (n + Z.of_nat (length (filter (fun url => TTL < now - ts url) ks)),
     fold_left (fun cache key => delete key cache)
       (filter (fun url => TTL < now - ts url) ks) m).
Proof.
  revert m n. induction ks as [|k ks IH]; intros m n; cbn [fold_left].
  - simpl. f_equal. lia.
  - destruct (Z.ltb_spec TTL (now - ts k)) as [Hlt|Hge].
    + rewrite IH, filter_cons_True by done. cbn [length fold_left]. f_equal. lia.
    + rewrite IH, filter_cons_False by lia. done.
Qed.

Lemma clearExpiredHashCache_unfold (cache : gmap string (HashEntry Data)) (now : Z) :
  let expired := filter (fun url => TTL < now - hash_timestamp_of cache url)
                        (Object_keys cache) in
  clearExpiredHashCache Object_keys cache now
  = (Z.of_nat (length expired), fold_left (fun cache key => delete key cache) expired cache).
Proof.
  unfold clearExpiredHashCache. cbv zeta.
  by rewrite (fold_expired (hash_timestamp_of cache)).
Qed.

(** X25.  [clearExpiredHashCache] deletes exactly the entries older than 24
    hours and returns how many there were; what [getHashCache] answers at
    that moment is the same before and after, for every URL. *)
Theorem clearExpiredHashCache_spec (cache : gmap string (HashEntry Data)) (now : Z) :
  let deletedCount := (clearExpiredHashCache Object_keys cache now).1 in
  let cache' := (clearExpiredHashCache Object_keys cache now).2 in
  (forall url, getHashCache cache' url now = getHashCache cache url now) /\
  (forall url e,
     cache' !! url = Some e <-> cache !! url = Some e /\ now - he_timestamp e <= TTL) /\
  deletedCount = Z.of_nat (size cache) - Z.of_nat (size cache').
Proof.
  intros deletedCount cache'. subst deletedCount cache'.
  rewrite clearExpiredHashCache_unfold. cbv zeta. cbn [fst snd].
  set (expired := filter _ (Object_keys cache)).
  assert (Hexp : forall url, url ∈ expired
            <-> exists e, cache !! url = Some e /\ TTL < now - he_timestamp e).
  { intros url. unfold expired. rewrite list_elem_of_filter.
    rewrite (keys_elem _ _ _ (Object_keys_spec cache)). unfold hash_timestamp_of. split.
    - intros [Hlt [e He]]. rewrite He in Hlt. eauto.
    - intros (e & He & Hlt). rewrite He. eauto. }
  assert (Hlookup : forall url e,
            fold_left (fun cache key => delete key cache) expired cache !! url = Some e
            <-> cache !! url = Some e /\ now - he_timestamp e <= TTL).
  { intros url e. rewrite fold_delete_lookup.
    destruct (decide (url ∈ expired)) as [Hin|Hnin].
    - apply Hexp in Hin as (e' & He' & Hlt). split; [done|].
      intros [He Hle]. rewrite He in He'. injection He' as <-. lia.
    - split; [|by intros [? _]]. intros He. split; [done|].
      destruct (Z.le_gt_cases (now - he_timestamp e) TTL) as [|Hgt]; [done|].
      destruct Hnin. apply Hexp. exists e. split; [done|lia]. }
  split; [|split; [exact Hlookup|]].
  - intros url. unfold getHashCache.
    destruct (fold_left _ expired cache !! url) as [e|] eqn:He.
    + apply Hlookup in He as [-> Hle]. done.
    + destruct (cache !! url) as [e|] eqn:Hc; [|done].
      destruct (Z.ltb_spec TTL (now - he_timestamp e)) as [|Hle]; [done|].
      assert (fold_left (fun cache key => delete key cache) expired cache !! url = Some e)
        as Hsome by (by apply Hlookup).
      congruence.
  - rewrite fold_delete_size.
    + assert (length expired <= size cache)%nat; [|lia].
      rewrite <- (keys_length _ _ (Object_keys_spec cache)). apply length_filter.
    + apply NoDup_filter. eapply keys_NoDup, Object_keys_spec.
    + intros k [e [He _]]%Hexp. by exists e.
Qed.

End hash_cache.

Section examples.

Lemma listed_keys_spec {K V} `{Countable K} (cache : gmap K V) :
  listed_keys cache ≡ₚ (map_to_list cache).*1.
Proof. reflexivity. Qed.

Lemma setCachedResult_capacity_witness :
  size (setCachedResult listed_keys (∅ : Cache unit) example_post tt 1000) = 1%nat.
Proof.
  destruct (setCachedResult_capacity listed_keys listed_keys_spec (∅ : Cache unit)
              example_post tt 1000) as [Hsize _].
  rewrite Hsize. reflexivity.
Defined.

Lemma getCachedResult_after_set_witness :
  getCachedResult (setCachedResult listed_keys (∅ : Cache unit) example_post tt 1000)
    example_post 60000 2000
  = Some tt.
Proof.
  rewrite (getCachedResult_after_set listed_keys listed_keys_spec (∅ : Cache unit)
             example_post tt 1000 example_post 60000 2000).
  - reflexivity.
  - left. rewrite map_size_empty. lia.
  - reflexivity.
Defined.


Lemma clearExpiredHashCache_spec_witness :
  (clearExpiredHashCache listed_keys
     ({[ example_picture := mkHashEntry "f0e1d2c3" tt 0 ]} : gmap string (HashEntry unit))
     (TTL + 1)).1
  = 1.
Proof.
  destruct (clearExpiredHashCache_spec listed_keys listed_keys_spec
              ({[ example_picture := mkHashEntry "f0e1d2c3" tt 0 ]}
                 : gmap string (HashEntry unit))
              (TTL + 1)) as (_ & _ & Hcount).
  rewrite Hcount. vm_compute. reflexivity.
Defined.

Example hashString_examples :
  hashString "Aa" = 2112 /\ hashString "BB" = 2112 /\
  hashString example_post = hashString_step (hashString
    "https://gall.dcinside.com/board/view/?id=dcbest&no=") 49.
Proof. repeat split. Qed.

End examples.

End StorageCacheFacts.

(** ** AdvancedCacheManager: the bookkeeping stays consistent *)

Section TrackerFacts.
Import JS AdvancedCacheManager.

Lemma tracked_get (c : t) (postUrl : string) (hit : bool) (now : Z) :
  tracked c -> tracked (getAnalysisResult c postUrl hit now).
Proof.
  intros (Hwf & Hkeys & Hpos). unfold getAnalysisResult.
  destruct hit; [|done].
  destruct (Map_set_wf (accessCount c) postUrl
              (default 0 (Map.get (accessCount c) postUrl) + 1) Hwf) as [Hwf' Hkeys'].
  split; [done|]. split; simpl.
  - intros k. rewrite Hkeys'. destruct (decide (k = postUrl)) as [->|Hne].
    + rewrite lookup_insert_eq. split; [eauto|]. by left.
    + rewrite lookup_insert_ne by done. rewrite <- Hkeys. split; [by intros [?|?]|by right].
  - intros k v [[= -> ->]|Hin]%Map_set_elem; [|by eapply Hpos].
    unfold Map.get.
    destruct (List.find _ _) as [[k' v']|] eqn:Hfind; simpl; [|lia].
    apply find_some in Hfind as [Hin _]. apply list_elem_of_In in Hin.
    specialize (Hpos _ _ Hin). lia.
Qed.

Lemma tracked_set (c : t) (postUrl : string) (now : Z) :
  tracked c -> tracked (setAnalysisResult c postUrl now).
Proof.
  intros (Hwf & Hkeys & Hpos). unfold setAnalysisResult.
  destruct (Map.has (accessCount c) postUrl) eqn:Hhas; [done|].
  destruct (Map_set_wf (accessCount c) postUrl 1 Hwf) as [Hwf' Hkeys'].
  split; [done|]. split; simpl.
  - intros k. rewrite Hkeys'. destruct (decide (k = postUrl)) as [->|Hne].
    + rewrite lookup_insert_eq. split; [eauto|]. by left.
    + rewrite lookup_insert_ne by done. rewrite <- Hkeys. split; [by intros [?|?]|by right].
  - intros k v [[= -> ->]|Hin]%Map_set_elem; [lia|by eapply Hpos].
Qed.

Lemma tracked_sweep (c : t) (now : Z) :
  tracked c -> tracked (smartCleanup c now).2.
Proof.
  intros (Hwf & Hkeys & Hpos). rewrite smartCleanup_unfold. cbv zeta.
  destruct (_ <=? 0); [done|]. simpl.
  set (d := Z.to_nat _). unfold evict.
  split; [|split].
  - unfold Map.wf, Map.keys. rewrite fold_delete_accessCount.
    pose proof (fmap_fst_filter (fun k => k ∉ url <$> take d (ranking c now)) (accessCount c))
      as Heq. cbv beta in Heq. rewrite Heq. by apply NoDup_filter.
  - intros k. unfold Map.keys. rewrite fold_delete_accessCount, fold_delete_lastAccess.
    pose proof (fmap_fst_filter (fun k => k ∉ url <$> take d (ranking c now)) (accessCount c))
      as Heq. cbv beta in Heq. rewrite Heq, list_elem_of_filter.
    destruct (decide (k ∈ url <$> take d (ranking c now))) as [Hin|Hnin].
    + split; [by intros [? _]|by intros []].
    + rewrite <- Hkeys. unfold Map.keys. tauto.
  - intros k v. rewrite fold_delete_accessCount.
    intros [_ Hin]%list_elem_of_filter. by eapply Hpos.
Qed.

Lemma tracked_run_ops (w : KasFreeDB.Window) (ops : list Op) :
  tracked (run_ops (constructor w) ops).
Proof.
  unfold run_ops.
  assert (H0 : tracked (constructor w)).
  { split; [apply NoDup_nil_2|]. split.
    - intros k. simpl. rewrite lookup_empty. split; [by intros ?%elem_of_nil|by intros []].
    - intros k v Hin. by apply elem_of_nil in Hin. }
  revert H0. generalize (constructor w).
  induction ops as [|op ops IH]; intros c Hc; [done|].
  simpl. apply IH. destruct op; simpl.
  - by apply tracked_get.
  - by apply tracked_set.
  - by apply tracked_sweep.
Qed.


(** X26.  Whatever lookups, writes and sweeps a new [AdvancedCacheManager] has
    gone through, its two maps track the same posts: no post is listed twice
    in [accessCount], a post has an [accessCount] exactly when it has a
    [lastAccess], and every count is at least 1. *)
Theorem tracked_always (w : KasFreeDB.Window) (ops : list Op) :
  let c := run_ops (constructor w) ops in
  Map.wf (accessCount c) /\
  (forall k, k ∈ Map.keys (accessCount c) <-> is_Some (lastAccess c !! k)) /\
  (forall k v, (k, v) ∈ accessCount c -> 1 <= v).
Proof. apply tracked_run_ops. Qed.

End TrackerFacts.

(** ** AdvancedCacheManager and the stored results *)

Section AdvancedCacheFacts.
Import JS Storage AdvancedCacheManager.
Context {Data : Type}.

(** X27.  A sweep removes posts from the bookkeeping only: the stored results
    are untouched, so every lookup is answered after the sweep as it would
    have been before, and a post the sweep has evicted is, at its next hit,
    tracked anew with an access count of 1. *)
Theorem smartCleanup_keeps_results (settings : CacheManager.Settings)
    (st : AdvancedCache.State Data) (now : Z) :
  Map.wf (accessCount (AdvancedCache.tracker st)) ->
  let st' := (AdvancedCache.smartCleanup st now).2 in
  AdvancedCache.store st' = AdvancedCache.store st /\
  (forall postUrl now' accessed,
     (AdvancedCache.getAnalysisResult settings st' postUrl now' accessed).1
     = (AdvancedCache.getAnalysisResult settings st postUrl now' accessed).1) /\
  (forall e now' accessed cached,
     e ∈ accessCount (AdvancedCache.tracker st) ->
     e ∉ accessCount (AdvancedCache.tracker st') ->
     (AdvancedCache.getAnalysisResult settings st' e.1 now' accessed).1 = Some cached ->
     let tracker' :=
       AdvancedCache.tracker
         (AdvancedCache.getAnalysisResult settings st' e.1 now' accessed).2 in
     Map.get (accessCount tracker') e.1 = Some 1 /\
     lastAccess tracker' !! e.1 = Some accessed).
Proof.
  intros Hwf st'. subst st'. unfold AdvancedCache.smartCleanup.
  pose proof (smartCleanup_unfold (AdvancedCache.tracker st) now) as Hunfold.
  cbv zeta in Hunfold.
  destruct (smartCleanup (AdvancedCache.tracker st) now) as [deleted tracker1] eqn:Hsweep.
  cbn [snd AdvancedCache.store AdvancedCache.tracker].
  split; [done|]. split; [done|].
  intros e now' accessed cached Hin Hout Hhit.
  unfold AdvancedCache.getAnalysisResult in *. cbv zeta in *.
  cbn [fst snd AdvancedCache.store AdvancedCache.tracker] in *.
  rewrite Hhit. rewrite bool_decide_eq_true_2 by eauto.
  unfold getAnalysisResult. cbn [accessCount lastAccess].
  assert (Hgone : Map.get (accessCount tracker1) e.1 = None).
  { destruct (_ <=? 0); injection Hunfold as _ Ht; subst tracker1; [done|].
    by apply evicted_gone. }
  rewrite Hgone. simpl. split; [apply Map_get_set|apply lookup_insert_eq].
Qed.

End AdvancedCacheFacts.

Section AdvancedCacheExample.
Import JS Storage AdvancedCacheManager.

(** Twelve tracked posts: the sweep evicts [p1], whose stored result is still
    returned. *)
Lemma smartCleanup_keeps_results_witness :
  let st := AdvancedCache.mkState (tracked_posts 12)
              ({[ hashString "p1" := mkCachedData 0 tt ]} : Cache unit) in
  AdvancedCache.store (AdvancedCache.smartCleanup st 1000).2 = AdvancedCache.store st /\
  (AdvancedCache.getAnalysisResult CacheManager.default_settings
     (AdvancedCache.smartCleanup st 1000).2 "p1" 2000 2001).1 = Some tt.
Proof.
  intros st.
  destruct (smartCleanup_keeps_results CacheManager.default_settings st 1000)
    as (Hstore & Hsame & _).
  - apply tracked_posts_wf.
  - split; [exact Hstore|]. rewrite Hsame. reflexivity.
Defined.

End AdvancedCacheExample.

(** ** The handler of an analysis request *)

Section HandlerFacts.
Import JS ServiceWorker Storage RequestHandler.

Lemma analyzeImage_returns (env : Collaborators) (thresholds : Thresholds) (now : Z)
    (imageUrl : string) :
  exists final log, run (analyzeImage env thresholds now imageUrl) = (Return final, log).
Proof.
  destruct (run (analyzeImageWithHash env imageUrl)) as [[primary|e] log1] eqn:Hhash.
  - destruct (Qlt_le_dec (riskScore primary) (safeMax thresholds)) as [Hlt|Hge].
    + rewrite (analyzeImage_hash_safe env thresholds now imageUrl primary log1 Hhash Hlt). eauto.
    + rewrite (analyzeImage_escalates env thresholds now imageUrl primary log1 Hhash)
        by (by apply Qle_not_lt).
      destruct (secondStage env imageUrl log1) as [[secondary|e] log2]; eauto.
  - rewrite (analyzeImage_hash_throws env thresholds now imageUrl e log1 Hhash). eauto.
Qed.

Section request.
Variable Object_keys : Cache PostResult -> list Z.
Hypothesis Object_keys_spec : forall cache, Object_keys cache ≡ₚ (map_to_list cache).*1.
Variable settings : CacheManager.Settings.
Variable env : Collaborators.
Variable thresholds : Thresholds.
Variable fetchPostImage : string -> option string.

(** X28.  A post that has been analysed is not analysed again while its
    result is fresh.  With the extension and the cache enabled and fewer than
    1000 stored results, a request that misses the cache and finds an image
    returns the result of [analyzeImage] with the image URL; a second request
    for the post, no more than [cacheDuration] after the result was stored,
    returns the same result without a single call to a backend and leaves
    the stored results as they are. *)
Theorem handleAnalyzeImage_cached_repeat (st : AdvancedCache.State PostResult)
    (postUrl picture : string)
    (now accessed built stored tracked now' accessed' built' stored' tracked' : Z) :
  CacheManager.enabled settings = true ->
  CacheManager.cacheEnabled settings = true ->
  (AdvancedCache.getAnalysisResult settings st postUrl now accessed).1 = None ->
  fetchPostImage postUrl = Some picture ->
  (size (AdvancedCache.store st) < 1000)%nat ->
  now' - stored <= CacheManager.cacheDuration settings ->
  let first := handleAnalyzeImage Object_keys settings env thresholds fetchPostImage
                 st postUrl now accessed built stored tracked in
  let second := handleAnalyzeImage Object_keys settings env thresholds fetchPostImage
                  first.1.2 postUrl now' accessed' built' stored' tracked' in
  exists r,
    first.1.1 = Return (Analysed r) /\
    imageUrl r = picture /\
    run (analyzeImage env thresholds built picture) = (Return (result r), first.2) /\
    second.1.1 = Return (Analysed r) /\
    second.2 = [] /\
    AdvancedCache.store second.1.2 = AdvancedCache.store first.1.2.
Proof.
  intros Hen Hcache Hmiss Himg Hsize Hfresh first second.
  destruct (analyzeImage_returns env thresholds built picture) as (final & log & Hrun).
  exists (mkPostResult final picture).
  assert (Hfirst : first
    = (Return (Analysed (mkPostResult final picture)),
       AdvancedCache.setAnalysisResult Object_keys settings
         (AdvancedCache.getAnalysisResult settings st postUrl now accessed).2 postUrl
         (mkPostResult final picture) stored tracked, log)).
  { subst first. unfold handleAnalyzeImage. rewrite Hen. cbn [negb].
    destruct (AdvancedCache.getAnalysisResult settings st postUrl now accessed) as [cached st1].
    simpl in Hmiss. subst cached. by rewrite Himg, Hrun. }
  subst second. rewrite Hfirst. cbn [fst snd].
  split; [done|]. split; [done|]. split; [done|].
  unfold handleAnalyzeImage. rewrite Hen. cbn [negb].
  unfold AdvancedCache.getAnalysisResult at 1. cbv zeta.
  cbn [AdvancedCache.store AdvancedCache.setAnalysisResult AdvancedCache.getAnalysisResult snd].
  unfold CacheManager.getAnalysisResult, CacheManager.setAnalysisResult.
  rewrite Hcache. cbn [negb].
  unfold getCachedResult. cbv zeta.
  rewrite (setCachedResult_lookup Object_keys).
  rewrite decide_False
    by (apply (new_entry_survives Object_keys Object_keys_spec); by left).
  rewrite lookup_insert_eq. cbn [cd_timestamp cd_result].
  destruct (Z.ltb_spec (CacheManager.cacheDuration settings) (now' - stored)) as [Hlt|_]; [lia|].
  done.
Qed.


End request.

(** The scenario of the safe short circuit, asked for twice within a
    minute. *)
Lemma handleAnalyzeImage_cached_repeat_witness :
  let first := handleAnalyzeImage listed_keys CacheManager.default_settings env_hash_safe
                 default_thresholds example_page new_state example_post 0 5 10 20 30 in
  let second := handleAnalyzeImage listed_keys CacheManager.default_settings env_hash_safe
                  default_thresholds example_page first.1.2 example_post 60000 60005 0 0 0 in
  second.1.1 = first.1.1 /\ second.2 = [].
Proof.
  intros first second.
  destruct (handleAnalyzeImage_cached_repeat listed_keys listed_keys_spec
              CacheManager.default_settings env_hash_safe default_thresholds example_page
              new_state example_post example_image 0 5 10 20 30 60000 60005 0 0 0)
    as (r & Hfirst & _ & _ & Hsecond & Hlog & _); try reflexivity.
  - simpl. rewrite map_size_empty. lia.
  - simpl. lia.
  - subst first second. split; [|exact Hlog]. by rewrite Hsecond, Hfirst.
Defined.

End HandlerFacts.
